(** * Pyroscope VS Code extension: pprof decoding, aggregation, call tree
      and source resolution

    A shallow embedding of the computational core of the extension:

    - [Wire]      : [src/utils/pprofProtobuf.ts], the hand-written wire reader
                    ([readVarint], [readTag], [readLengthDelimited],
                    [skipField], the message parsers and [parseProtobuf]);
    - [CallTree]  : [src/models/CallTree.ts], the [CallTreeBuilder];
    - [Parser]    : [src/parsers/pprofParser.ts], the aggregation performed by
                    [PprofParser.parseProtobuf], [parseTextFormat] and
                    [parseBuffer];
    - [PathMapper]: [src/utils/pathMapper.ts], candidate scoring in
                    [findFileInWorkspace];
    - [Encoder]   : [test-data/generateMockProfile.ts], the encoder that
                    writes the sample profile;
    - [FileLookup]: [getFileMetrics] and [getLineMetrics] of
                    [src/parsers/pprofParser.ts];
    - [Names]     : [formatFunctionName] of the breakdown view and
                    [suggestPathMappings] of [src/utils/pathMapper.ts];
    - [TreeSearch]: [findFunctionsInFile] of the decoration provider.

    JavaScript numbers that only ever hold integers are modelled as [Z]; the
    32-bit coercions of the bitwise operators are written out.  Thrown
    exceptions are the [Throw] outcome; a [while] loop whose termination is
    not structural takes a fuel argument and yields [OutOfFuel] when the fuel
    is exhausted. *)

From Stdlib Require Import ZArith QArith Lia Strings.Byte Ascii String List.
From stdpp Require Import gmap strings list pretty.

Open Scope Z_scope.

(** ** JavaScript primitives *)

Module JS.

(** [ToInt32]: the signed 32-bit value every bitwise operator coerces its
    operands (and its result) to. *)
Definition ToInt32 (x : Z) : Z := (x + 2 ^ 31) mod 2 ^ 32 - 2 ^ 31.

(** [ToUint32]: used by [>>>] and for shift counts. *)
Definition ToUint32 (x : Z) : Z := x mod 2 ^ 32.

(** [a & b] *)
Definition band (a b : Z) : Z := Z.land (ToInt32 a) (ToInt32 b).

(** [a | b] *)
Definition bor (a b : Z) : Z := Z.lor (ToInt32 a) (ToInt32 b).

(** [a << s]: the count is taken modulo 32 and the result wraps to int32. *)
Definition shl (a s : Z) : Z :=
  ToInt32 (Z.shiftl (ToInt32 a) (ToUint32 s mod 32)).

(** [a >>> s]: unsigned right shift. *)
Definition ushr (a s : Z) : Z := Z.shiftr (ToUint32 a) (ToUint32 s mod 32).


End JS.

(** ** Outcomes of possibly throwing, possibly diverging code *)

(** The only exception the wire reader throws itself is
    [Error(`Invalid varint at offset ${offset - iterations}: too many bytes`)]. *)
Inductive JsError : Type :=
  | InvalidVarint (offset : Z).

Inductive outcome (A : Type) : Type :=
  | Return (a : A)
  | Throw (e : JsError)
  | OutOfFuel.
Arguments Return {A} a.
Arguments Throw {A} e.
Arguments OutOfFuel {A}.

Global Instance outcome_ret : MRet outcome := fun A a => Return a.

Global Instance outcome_bind : MBind outcome := fun A B k m =>
  match m with
  | Return a => k a
  | Throw e => Throw e
  | OutOfFuel => OutOfFuel
  end.

(** ** The wire reader, [src/utils/pprofProtobuf.ts] *)

Module Wire.

(** A Node [Buffer]: a sequence of octets. *)
Abbreviation Buffer := (list byte) (only parsing).

Definition byteVal (b : byte) : Z := Z.of_N (Byte.to_N b).

Definition blength (buffer : Buffer) : Z := Z.of_nat (length buffer).

(** [buffer[i]]: [None] is [undefined], which is what an index outside
    [0 .. length-1] reads. *)
Definition bget (buffer : Buffer) (i : Z) : option Z :=
  if (0 <=? i) && (i <? blength buffer)
  then byteVal <$> (buffer !! Z.to_nat i)
  else None.

(** A bitwise operator turns [undefined] into 0. *)
Definition numOf (o : option Z) : Z :=
  match o with Some z => z | None => 0 end.

(** [buffer.slice(start, end)]: negative indices count from the end, both
    are clamped to the buffer, an empty range gives an empty buffer. *)
Definition clampIndex (len i : Z) : Z :=
  if i <? 0 then Z.max (len + i) 0 else Z.min i len.

Definition slice (buffer : Buffer) (start stop : Z) : Buffer :=
  let len := blength buffer in
  let s := clampIndex len start in
  let e := clampIndex len stop in
  take (Z.to_nat (e - s)) (drop (Z.to_nat s) buffer).

Record Varint := mkVarint { value : Z; newOffset : Z }.

Definition maxIterations : Z := 10.

(** The [while] loop of [readVarint].  The trip count is bounded by
    [maxIterations]; [fuel] is the structural measure for it.  The result is
    the final [(value, offset, iterations)]. *)
Fixpoint readVarint_loop (fuel : nat) (buffer : Buffer)
    (offset value shift iterations : Z) : Z * Z * Z :=
  if (offset <? blength buffer) && (iterations <? maxIterations) then
    match fuel with
    | O => (value, offset, iterations)
    | S fuel' =>
        let byte := numOf (bget buffer offset) in
        let offset := offset + 1 in
        let value := JS.bor value (JS.shl (JS.band byte 127) shift) in
        if JS.band byte 128 =? 0 then (value, offset, iterations)
        else readVarint_loop fuel' buffer offset value (shift + 7) (iterations + 1)
    end
  else (value, offset, iterations).

Definition readVarint (buffer : Buffer) (offset : Z) : outcome Varint :=
  let '(value, offset, iterations) :=
    readVarint_loop (Z.to_nat maxIterations) buffer offset 0 0 0 in
  if maxIterations <=? iterations
  then Throw (InvalidVarint (offset - iterations))
  else Return (mkVarint value offset).

Record Tag := mkTag { fieldNumber : Z; wireType : Z; tagOffset : Z }.

Definition readTag (buffer : Buffer) (offset : Z) : outcome Tag :=
  v ← readVarint buffer offset;
  Return (mkTag (JS.ushr (value v) 3) (JS.band (value v) 7) (newOffset v)).

Record Delimited := mkDelimited { payload : Buffer; endOffset : Z }.

Definition readLengthDelimited (buffer : Buffer) (offset : Z) : outcome Delimited :=
  v ← readVarint buffer offset;
  Return (mkDelimited (slice buffer (newOffset v) (newOffset v + value v))
                      (newOffset v + value v)).

Definition skipField (buffer : Buffer) (offset wireType : Z) : outcome Z :=
  if wireType =? 0 then v ← readVarint buffer offset; Return (newOffset v)
  else if wireType =? 1 then Return (offset + 8)
  else if wireType =? 2 then d ← readLengthDelimited buffer offset; Return (endOffset d)
  else if wireType =? 3 then Return offset
  else if wireType =? 4 then Return offset
  else if wireType =? 5 then Return (offset + 4)
  else match readVarint buffer offset with
       | Return v => Return (newOffset v)
       | Throw _ => Return (offset + 1)
       | OutOfFuel => OutOfFuel
       end.

(** *** Decoded entities (the [PprofProfile] interfaces) *)

Record SampleType := mkSampleType { st_type : Z; st_unit : Z }.

Record Label := mkLabel { lb_key : Z; lb_str : Z; lb_num : Z }.

Record Sample := mkSample {
  s_locationId : list Z; s_value : list Z; s_label : list Label }.

Record Mapping := mkMapping {
  m_id : Z; m_memoryStart : Z; m_memoryLimit : Z;
  m_fileOffset : Z; m_filename : Z; m_buildId : Z }.

Record Line := mkLine { ln_functionId : Z; ln_line : Z }.

Record Location := mkLocation {
  l_id : Z; l_mappingId : Z; l_address : Z; l_line : list Line }.

Record Function := mkFunction {
  f_id : Z; f_name : Z; f_systemName : Z; f_filename : Z; f_startLine : Z }.

(** [stringTable] entries are [value.toString('utf-8')]; the model keeps the
    octets of each entry as a [string]. *)
Record PprofProfile := mkProfile {
  sampleType : list SampleType;
  sample : list Sample;
  mapping : list Mapping;
  location : list Location;
  function : list Function;
  stringTable : list string;
  timeNanos : Z;
  durationNanos : Z;
  period : Z }.

Definition emptyProfile : PprofProfile := mkProfile [] [] [] [] [] [] 0 0 0.

(** *** Message parsers *)

Fixpoint parseSampleType_loop (fuel : nat) (buffer : Buffer) (offset : Z)
    (result : SampleType) : outcome SampleType :=
  if offset <? blength buffer then
    match fuel with
    | O => OutOfFuel
    | S fuel' =>
        t ← readTag buffer offset;
        v ← readVarint buffer (tagOffset t);
        let result :=
          if fieldNumber t =? 1 then mkSampleType (value v) (st_unit result)
          else if fieldNumber t =? 2 then mkSampleType (st_type result) (value v)
          else result in
        parseSampleType_loop fuel' buffer (newOffset v) result
    end
  else Return result.

Definition parseSampleType (fuel : nat) (buffer : Buffer) : outcome SampleType :=
  parseSampleType_loop fuel buffer 0 (mkSampleType 0 0).

(** The inner loop over a packed repeated field: the varints of
    [packedData], appended to [acc]. *)
Fixpoint readPacked (fuel : nat) (packedData : Buffer) (packedOffset : Z)
    (acc : list Z) : outcome (list Z) :=
  if packedOffset <? blength packedData then
    match fuel with
    | O => OutOfFuel
    | S fuel' =>
        v ← readVarint packedData packedOffset;
        readPacked fuel' packedData (newOffset v) (acc ++ [value v])
    end
  else Return acc.

(** One repeated numeric field of [parseSample] (fields 1 and 2 share the
    code): the extended list and the new offset. *)
Definition readRepeated (fuel : nat) (buffer : Buffer) (tagOffset wireType : Z)
    (acc : list Z) : outcome (list Z * Z) :=
  if wireType =? 2 then
    d ← readLengthDelimited buffer tagOffset;
    acc' ← readPacked fuel (payload d) 0 acc;
    Return (acc', endOffset d)
  else
    v ← readVarint buffer tagOffset;
    Return (acc ++ [value v], newOffset v).

Fixpoint parseSample_loop (fuel : nat) (buffer : Buffer) (offset : Z)
    (result : Sample) : outcome Sample :=
  if offset <? blength buffer then
    match fuel with
    | O => OutOfFuel
    | S fuel' =>
        t ← readTag buffer offset;
        if fieldNumber t =? 1 then
          '(ids, offset') ← readRepeated fuel' buffer (tagOffset t) (wireType t)
                              (s_locationId result);
          parseSample_loop fuel' buffer offset'
            (mkSample ids (s_value result) (s_label result))
        else if fieldNumber t =? 2 then
          '(vals, offset') ← readRepeated fuel' buffer (tagOffset t) (wireType t)
                               (s_value result);
          parseSample_loop fuel' buffer offset'
            (mkSample (s_locationId result) vals (s_label result))
        else
          offset' ← skipField buffer (tagOffset t) (wireType t);
          parseSample_loop fuel' buffer offset' result
    end
  else Return result.

Definition parseSample (fuel : nat) (buffer : Buffer) : outcome Sample :=
  parseSample_loop fuel buffer 0 (mkSample [] [] []).

Definition setMappingField (result : Mapping) (fieldNumber value : Z) : Mapping :=
  let '(mkMapping a b c d e f) := result in
  if fieldNumber =? 1 then mkMapping value b c d e f
  else if fieldNumber =? 2 then mkMapping a value c d e f
  else if fieldNumber =? 3 then mkMapping a b value d e f
  else if fieldNumber =? 4 then mkMapping a b c value e f
  else if fieldNumber =? 5 then mkMapping a b c d value f
  else if fieldNumber =? 6 then mkMapping a b c d e value
  else result.

Fixpoint parseMapping_loop (fuel : nat) (buffer : Buffer) (offset : Z)
    (result : Mapping) : outcome Mapping :=
  if offset <? blength buffer then
    match fuel with
    | O => OutOfFuel
    | S fuel' =>
        t ← readTag buffer offset;
        v ← readVarint buffer (tagOffset t);
        parseMapping_loop fuel' buffer (newOffset v)
          (setMappingField result (fieldNumber t) (value v))
    end
  else Return result.

Definition parseMapping (fuel : nat) (buffer : Buffer) : outcome Mapping :=
  parseMapping_loop fuel buffer 0 (mkMapping 0 0 0 0 0 0).

Fixpoint parseLine_loop (fuel : nat) (buffer : Buffer) (offset : Z)
    (result : Line) : outcome Line :=
  if offset <? blength buffer then
    match fuel with
    | O => OutOfFuel
    | S fuel' =>
        t ← readTag buffer offset;
        v ← readVarint buffer (tagOffset t);
        let result :=
          if fieldNumber t =? 1 then mkLine (value v) (ln_line result)
          else if fieldNumber t =? 2 then mkLine (ln_functionId result) (value v)
          else result in
        parseLine_loop fuel' buffer (newOffset v) result
    end
  else Return result.

Definition parseLine (fuel : nat) (buffer : Buffer) : outcome Line :=
  parseLine_loop fuel buffer 0 (mkLine 0 0).

Fixpoint parseLocation_loop (fuel : nat) (buffer : Buffer) (offset : Z)
    (result : Location) : outcome Location :=
  if offset <? blength buffer then
    match fuel with
    | O => OutOfFuel
    | S fuel' =>
        t ← readTag buffer offset;
        let '(mkLocation id mappingId address line) := result in
        if fieldNumber t =? 1 then
          v ← readVarint buffer (tagOffset t);
          parseLocation_loop fuel' buffer (newOffset v)
            (mkLocation (value v) mappingId address line)
        else if fieldNumber t =? 2 then
          v ← readVarint buffer (tagOffset t);
          parseLocation_loop fuel' buffer (newOffset v)
            (mkLocation id (value v) address line)
        else if fieldNumber t =? 3 then
          v ← readVarint buffer (tagOffset t);
          parseLocation_loop fuel' buffer (newOffset v)
            (mkLocation id mappingId (value v) line)
        else if fieldNumber t =? 4 then
          d ← readLengthDelimited buffer (tagOffset t);
          ln ← parseLine fuel' (payload d);
          parseLocation_loop fuel' buffer (endOffset d)
            (mkLocation id mappingId address (line ++ [ln]))
        else
          offset' ← skipField buffer (tagOffset t) (wireType t);
          parseLocation_loop fuel' buffer offset' result
    end
  else Return result.

Definition parseLocation (fuel : nat) (buffer : Buffer) : outcome Location :=
  parseLocation_loop fuel buffer 0 (mkLocation 0 0 0 []).

Definition setFunctionField (result : Function) (fieldNumber value : Z) : Function :=
  let '(mkFunction a b c d e) := result in
  if fieldNumber =? 1 then mkFunction value b c d e
  else if fieldNumber =? 2 then mkFunction a value c d e
  else if fieldNumber =? 3 then mkFunction a b value d e
  else if fieldNumber =? 4 then mkFunction a b c value e
  else if fieldNumber =? 5 then mkFunction a b c d value
  else result.

Fixpoint parseFunction_loop (fuel : nat) (buffer : Buffer) (offset : Z)
    (result : Function) : outcome Function :=
  if offset <? blength buffer then
    match fuel with
    | O => OutOfFuel
    | S fuel' =>
        t ← readTag buffer offset;
        v ← readVarint buffer (tagOffset t);
        parseFunction_loop fuel' buffer (newOffset v)
          (setFunctionField result (fieldNumber t) (value v))
    end
  else Return result.

Definition parseFunction (fuel : nat) (buffer : Buffer) : outcome Function :=
  parseFunction_loop fuel buffer 0 (mkFunction 0 0 0 0 0).

(** *** The top-level decoder *)

Definition toStringUtf8 (b : Buffer) : string := string_of_list_byte b.

(** The [switch (fieldNumber)] inside the [try] block of [parseProtobuf]:
    the updated profile and offset, or the exception that reaches the
    [catch].  Every mutation of [profile] follows the calls that can throw,
    so a thrown exception leaves [profile] and [offset] as they were. *)
Definition parseField (fuel : nat) (buffer : Buffer) (offset fieldNumber wireType : Z)
    (profile : PprofProfile) : outcome (PprofProfile * Z) :=
  let '(mkProfile sampleType sample mapping location function stringTable
                  timeNanos durationNanos period) := profile in
  if fieldNumber =? 1 then
    d ← readLengthDelimited buffer offset;
    x ← parseSampleType fuel (payload d);
    Return (mkProfile (sampleType ++ [x]) sample mapping location function
              stringTable timeNanos durationNanos period, endOffset d)
  else if fieldNumber =? 2 then
    d ← readLengthDelimited buffer offset;
    x ← parseSample fuel (payload d);
    Return (mkProfile sampleType (sample ++ [x]) mapping location function
              stringTable timeNanos durationNanos period, endOffset d)
  else if fieldNumber =? 3 then
    d ← readLengthDelimited buffer offset;
    x ← parseMapping fuel (payload d);
    Return (mkProfile sampleType sample (mapping ++ [x]) location function
              stringTable timeNanos durationNanos period, endOffset d)
  else if fieldNumber =? 4 then
    d ← readLengthDelimited buffer offset;
    x ← parseLocation fuel (payload d);
    Return (mkProfile sampleType sample mapping (location ++ [x]) function
              stringTable timeNanos durationNanos period, endOffset d)
  else if fieldNumber =? 5 then
    d ← readLengthDelimited buffer offset;
    x ← parseFunction fuel (payload d);
    Return (mkProfile sampleType sample mapping location (function ++ [x])
              stringTable timeNanos durationNanos period, endOffset d)
  else if fieldNumber =? 6 then
    d ← readLengthDelimited buffer offset;
    Return (mkProfile sampleType sample mapping location function
              (stringTable ++ [toStringUtf8 (payload d)])
              timeNanos durationNanos period, endOffset d)
  else if fieldNumber =? 9 then
    v ← readVarint buffer offset;
    Return (mkProfile sampleType sample mapping location function stringTable
              (value v) durationNanos period, newOffset v)
  else if fieldNumber =? 10 then
    v ← readVarint buffer offset;
    Return (mkProfile sampleType sample mapping location function stringTable
              timeNanos (value v) period, newOffset v)
  else if fieldNumber =? 11 then
    d ← readLengthDelimited buffer offset;
    Return (profile, endOffset d)
  else if fieldNumber =? 12 then
    v ← readVarint buffer offset;
    Return (mkProfile sampleType sample mapping location function stringTable
              timeNanos durationNanos (value v), newOffset v)
  else
    offset' ← skipField buffer offset wireType;
    Return (profile, offset').

(** The main [while (offset < buffer.length)] loop.  [break] is
    [Return profile]: the function's only exit is [return profile]. *)
Fixpoint parseProtobuf_loop (fuel : nat) (buffer : Buffer) (offset : Z)
    (profile : PprofProfile) : outcome PprofProfile :=
  if offset <? blength buffer then
    match fuel with
    | O => OutOfFuel
    | S fuel' =>
        match readTag buffer offset with
        | Throw _ => Return profile
        | OutOfFuel => OutOfFuel
        | Return t =>
            if (wireType t <? 0) || (5 <? wireType t) then
              parseProtobuf_loop fuel' buffer (tagOffset t + 1) profile
            else
              let offset := tagOffset t in
              match parseField fuel' buffer offset (fieldNumber t) (wireType t) profile with
              | Return (profile', offset') =>
                  parseProtobuf_loop fuel' buffer offset' profile'
              | OutOfFuel => OutOfFuel
              | Throw _ =>
                  match skipField buffer offset (wireType t) with
                  | Return offset' => parseProtobuf_loop fuel' buffer offset' profile
                  | Throw _ => Return profile
                  | OutOfFuel => OutOfFuel
                  end
              end
        end
    end
  else Return profile.

Definition parseProtobuf (fuel : nat) (buffer : Buffer) : outcome PprofProfile :=
  parseProtobuf_loop fuel buffer 0 emptyProfile.

(** *** The protobuf base-128 encoding (reference definition)

    The standard little-endian group-of-seven encoding of an unsigned
    integer, as the wire format defines it: the reference against which
    [readVarint] is compared. *)
Fixpoint varintEncoding_go (fuel : nat) (v : Z) : list Z :=
  match fuel with
  | O => [v mod 128]
  | S fuel' =>
      if v <? 128 then [v]
      else (v mod 128 + 128) :: varintEncoding_go fuel' (v / 128)
  end.

Definition ofByteVal (z : Z) : byte :=
  default x00 (Byte.of_N (Z.to_N z)).

Definition varintEncoding (v : Z) : Buffer :=
  ofByteVal <$> varintEncoding_go 9 v.

(** *** Predicates and reference values used in the statements *)

(** The bits [readVarint] accumulates from a run of bytes, whether or not
    the run ends with a byte without continuation bit. *)
Fixpoint accumulate (bytes : list byte) (value shift : Z) : Z :=
  match bytes with
  | [] => value
  | b :: bs =>
      accumulate bs (JS.bor value (JS.shl (JS.band (byteVal b) 127) shift)) (shift + 7)
  end.

(** The buffer ends in the middle of the varint that starts at [offset]:
    every byte from [offset] on has its continuation bit set. *)
Definition truncatedVarint (buffer : Buffer) (offset : Z) : Prop :=
  0 <= offset < blength buffer /\
  Forall (fun b => 128 <= byteVal b) (drop (Z.to_nat offset) buffer).

(** The buffer ends in the middle of the length-delimited payload whose
    length varint starts at [offset]: the declared length runs past the end. *)
Definition truncatedDelimited (buffer : Buffer) (offset : Z) : Prop :=
  exists v, readVarint buffer offset = Return v /\
            0 <= newOffset v <= blength buffer /\
            blength buffer < newOffset v + value v.

(** The main loop of [parseProtobuf], at [offset] with [profile] built so
    far, cannot determine the next field boundary: reading the tag throws,
    or the field throws and so does the attempt to skip it. *)
Definition cannotResume (fuel : nat) (buffer : Buffer) (offset : Z)
    (profile : PprofProfile) : Prop :=
  offset < blength buffer /\
  ((exists e, readTag buffer offset = Throw e) \/
   (exists t e e',
      readTag buffer offset = Return t /\
      0 <= wireType t <= 5 /\
      parseField fuel buffer (tagOffset t) (fieldNumber t) (wireType t) profile = Throw e /\
      skipField buffer (tagOffset t) (wireType t) = Throw e')).

(** A string-table entry "A" followed by a tag of eleven continuation bytes. *)
Definition garbled : Buffer :=
  [x32; x01; x41; xff; xff; xff; xff; xff; xff; xff; xff; xff; xff; xff].

(** A string-table entry "A" followed by a sample-type field whose length
    varint has eleven continuation bytes. *)
Definition garbledLength : Buffer :=
  [x32; x01; x41; x0a; xff; xff; xff; xff; xff; xff; xff; xff; xff; xff; xff].

(** A sample-type field whose length varint FA FF FF FF 0F is read as -6. *)
Definition looping : Buffer := [x0a; xfa; xff; xff; xff; x0f].

Definition profileA : PprofProfile := mkProfile [] [] [] [] [] ["A"%string] 0 0 0.

End Wire.

(** ** The call tree, [src/models/CallTree.ts]

    [createNodeId], [getOrCreateNode] and [addStack];
    [calculatePercentages], [getRoots] and [sortChildren] (floating point and
    sorting) are not modelled. *)

Module CallTree.

(** An element of the [stack] argument of [addStack]. *)
Record Frame := mkFrame { functionName : string; fileName : string; line : Z }.

(** A [CallTreeNode] object.  Nodes are mutable objects shared between
    [nodeMap], the [children] arrays, [parent] and [roots]; the builder
    creates exactly one object per [id] and never drops it from [nodeMap],
    so a reference to a node is modelled by its [id] and the objects live in
    [nodeMap].  [selfPercent] and [totalPercent] are written only by
    [calculatePercentages] and stay at their initial value here. *)
Record CallTreeNode := mkNode {
  n_functionName : string;
  n_fileName : string;
  n_line : Z;
  selfTime : Z;
  totalTime : Z;
  selfPercent : Z;
  totalPercent : Z;
  samples : Z;
  invocations : Z;
  children : list string;
  parent : option string;
  id : string }.

Record CallTreeBuilder := mkBuilder {
  nodeMap : gmap string CallTreeNode;
  roots : list string }.

Definition newBuilder : CallTreeBuilder := mkBuilder ∅ [].

(** [`${fileName}:${line}:${functionName}`] *)
Definition createNodeId (functionName fileName : string) (line : Z) : string :=
  fileName +:+ ":" +:+ pretty line +:+ ":" +:+ functionName.

Definition getOrCreateNode (b : CallTreeBuilder) (functionName fileName : string)
    (line : Z) : CallTreeBuilder * string :=
  let id := createNodeId functionName fileName line in
  match nodeMap b !! id with
  | None =>
      (mkBuilder (<[id := mkNode functionName fileName line 0 0 0 0 0 0 [] None id]>
                    (nodeMap b)) (roots b), id)
  | Some _ => (b, id)
  end.

(** A field update on the node object referenced by [id]. *)
Definition update (f : CallTreeNode -> CallTreeNode) (id : string)
    (b : CallTreeBuilder) : CallTreeBuilder :=
  mkBuilder (alter f id (nodeMap b)) (roots b).

Definition addTotal (value : Z) (n : CallTreeNode) : CallTreeNode :=
  let '(mkNode fn file ln self total sp tp smp inv ch par i) := n in
  mkNode fn file ln self (total + value) sp tp (smp + 1) inv ch par i.

Definition addSelf (value : Z) (n : CallTreeNode) : CallTreeNode :=
  let '(mkNode fn file ln self total sp tp smp inv ch par i) := n in
  mkNode fn file ln (self + value) total sp tp smp inv ch par i.

Definition pushChild (child : string) (n : CallTreeNode) : CallTreeNode :=
  let '(mkNode fn file ln self total sp tp smp inv ch par i) := n in
  mkNode fn file ln self total sp tp smp inv (ch ++ [child]) par i.

Definition setParent (p : string) (n : CallTreeNode) : CallTreeNode :=
  let '(mkNode fn file ln self total sp tp smp inv ch par i) := n in
  mkNode fn file ln self total sp tp smp inv ch (Some p) i.

Definition addInvocation (n : CallTreeNode) : CallTreeNode :=
  let '(mkNode fn file ln self total sp tp smp inv ch par i) := n in
  mkNode fn file ln self total sp tp smp (inv + 1) ch par i.

(** [currentParent.children.find((c) => c.id === node.id)] is truthy. *)
Definition hasChild (b : CallTreeBuilder) (p node : string) : bool :=
  match nodeMap b !! p with
  | Some pn => bool_decide (node ∈ children pn)
  | None => false
  end.

(** The body of the [for] loop of [addStack], run over the frames that are
    left of [reversedStack]; the frame is the leaf
    ([i === reversedStack.length - 1]) when no frame follows it. *)
Fixpoint addStack_loop (frames : list Frame) (value : Z) (b : CallTreeBuilder)
    (currentParent : option string) : CallTreeBuilder :=
  match frames with
  | [] => b
  | frame :: rest =>
      let '(b, node) :=
        getOrCreateNode b (functionName frame) (fileName frame) (line frame) in
      let b := update (addTotal value) node b in
      let b := match rest with
               | [] => update (addSelf value) node b
               | _ => b
               end in
      let b :=
        match currentParent with
        | Some p =>
            let b :=
              if hasChild b p node then b
              else update (setParent p) node (update (pushChild node) p b) in
            update addInvocation node b
        | None =>
            if bool_decide (node ∈ roots b) then b
            else mkBuilder (nodeMap b) (roots b ++ [node])
        end in
      addStack_loop rest value b (Some node)
  end.

Definition addStack (b : CallTreeBuilder) (stack : list Frame)
    (value totalDuration : Z) : CallTreeBuilder :=
  match stack with
  | [] => b
  | _ => addStack_loop (rev stack) value b None
  end.

(** A sequence of [addStack] calls on one builder. *)
Definition addStacks (b : CallTreeBuilder) (calls : list (list Frame * Z * Z))
    : CallTreeBuilder :=
  foldl (fun b '(stack, value, totalDuration) => addStack b stack value totalDuration)
        b calls.

(** *** Predicates used in the statements *)

Definition frameId (f : Frame) : string :=
  createNodeId (functionName f) (fileName f) (line f).

(** Node [p] lists node [c] among its children. *)
Definition childOf (b : CallTreeBuilder) (p c : string) : Prop :=
  exists pn, nodeMap b !! p = Some pn /\ c ∈ children pn.

(** Nodes are never dropped, keep their id, and [children] only grows. *)
Definition grows (b b' : CallTreeBuilder) : Prop :=
  forall p pn, nodeMap b !! p = Some pn ->
    exists pn', nodeMap b' !! p = Some pn' /\ id pn' = id pn /\
                forall c, c ∈ children pn -> c ∈ children pn'.

(** In [stack] (innermost frame first) frame [c] is directly followed by
    its caller [p]. *)
Definition calledFrom (stack : list Frame) (c p : Frame) : Prop :=
  exists l1 l2, stack = l1 ++ c :: p :: l2.

(** The identity a node was created with. *)
Definition identityOf (n : CallTreeNode) : Frame :=
  mkFrame (n_functionName n) (n_fileName n) (n_line n).


Definition allNodes (P : CallTreeNode -> Prop) (b : CallTreeBuilder) : Prop :=
  forall k n, nodeMap b !! k = Some n -> P n.

Definition timeOk (n : CallTreeNode) : Prop := selfTime n <= totalTime n.

Definition valueOf (call : list Frame * Z * Z) : Z := snd (fst call).

Definition frameA : Frame := mkFrame "A" "f.go" 1.
Definition frameB : Frame := mkFrame "B" "f.go" 2.
Definition frameC : Frame := mkFrame "C" "f.go" 3.

(** [C] called from [A] in one stack and from [B] in another. *)
Definition twoParents : list (list Frame * Z * Z) :=
  [([frameC; frameA], 5, 5); ([frameC; frameB], 7, 12)].

End CallTree.

(** ** A JavaScript [Map] with string keys, in insertion order *)

Module JsMap.

Definition t (V : Type) := list (string * V).

Fixpoint get {V} (m : t V) (k : string) : option V :=
  match m with
  | [] => None
  | (k', v) :: m' => if decide (k' = k) then Some v else get m' k
  end.

Definition has {V} (m : t V) (k : string) : bool :=
  match get m k with Some _ => true | None => false end.

(** An in-place mutation of the object stored under [k]. *)
Fixpoint modify {V} (f : V -> V) (k : string) (m : t V) : t V :=
  match m with
  | [] => []
  | (k', v) :: m' =>
      if decide (k' = k) then (k', f v) :: m' else (k', v) :: modify f k m'
  end.

(** [m.set(k, v)]: an existing key keeps its position. *)
Definition set {V} (k : string) (v : V) (m : t V) : t V :=
  if has m k then modify (fun _ => v) k m else m ++ [(k, v)].

End JsMap.

(** ** Aggregation, [src/parsers/pprofParser.ts] *)

Module Parser.

Import Wire CallTree.

(** [PprofParser.parseProtobuf] works on the message decoded by the protobuf
    library.  The generated message types ([proto/google/v1/profile_pb])
    are not among the sources; the decoded message has the fields the
    interfaces of [pprofProtobuf.ts] declare, so it is given the type
    [Wire.PprofProfile], its 64-bit integer fields being [bigint]s. *)

(** [Location], [LocationMetrics] of [src/models/ProfileData.ts]. *)
Record Location := mkLoc {
  loc_line : Z; loc_functionName : string; loc_fileName : string }.

(** The time and percentage fields are later rewritten by the percentage
    pass ([locationMetricsMap.forEach], floating point), which is not part
    of the model; the sample loop only touches [samples] and [totalTime]. *)
Record LocationMetrics := mkMetrics {
  lm_location : Location;
  lm_selfTime : Z;
  lm_totalTime : Z;
  lm_selfPercent : Z;
  lm_totalPercent : Z;
  lm_samples : Z }.

(** [Number(x)] on a [bigint] that a double represents exactly. *)
Definition Number (x : Z) : Z := x.

(** [stringTable[Number(i)] || dflt]: a missing entry and the empty
    string both give [dflt]. *)
Definition stringAt (stringTable : list string) (i : Z) (dflt : string) : string :=
  match (if 0 <=? Number i then stringTable !! Z.to_nat (Number i) else None) with
  | Some s => if decide (s = "") then dflt else s
  | None => dflt
  end.

(** [functionMap] and [locationMap]: a later record with the same id
    replaces an earlier one. *)
Definition functionMapOf (p : PprofProfile) : gmap Z Function :=
  foldl (fun m func => <[Number (f_id func) := func]> m) ∅ (function p).

Definition locationMapOf (p : PprofProfile) : gmap Z Wire.Location :=
  foldl (fun m loc => <[Number (l_id loc) := loc]> m) ∅ (location p).

Definition sampleTypeName (p : PprofProfile) : string :=
  match sampleType p with
  | st :: _ => stringAt (stringTable p) (st_type st) "samples"
  | [] => "samples"
  end.

Definition sampleUnit (p : PprofProfile) : string :=
  match sampleType p with
  | st :: _ => stringAt (stringTable p) (st_unit st) "count"
  | [] => "count"
  end.

(** [Number(sample.value[0] || 0n)] *)
Definition sampleValueOf (s : Sample) : Z :=
  match s_value s with
  | v :: _ => Number v
  | [] => Number 0
  end.

Definition metricsKey (fileName : string) (sampleLine : Z) : string :=
  fileName +:+ ":" +:+ pretty sampleLine.

Definition bumpMetrics (sampleValue : Z) (m : LocationMetrics) : LocationMetrics :=
  let '(mkMetrics l self total sp tp smp) := m in
  mkMetrics l self (total + sampleValue) sp tp (smp + sampleValue).

(** The state of the loops over one sample: the [stack] being built and the
    shared [locationMetricsMap]. *)
Definition LineState : Type := list Frame * JsMap.t LocationMetrics.

(** The body of [for (const line of location.line)]. *)
Definition lineStep (p : PprofProfile) (sampleValue : Z) (st : LineState)
    (line : Line) : LineState :=
  let '(stack, locationMetricsMap) := st in
  match functionMapOf p !! Number (ln_functionId line) with
  | None => st
  | Some func =>
      let fileName := stringAt (stringTable p) (f_filename func) "unknown" in
      let functionName := stringAt (stringTable p) (f_name func) "unknown" in
      let sampleLine := Number (ln_line line) in
      let functionStartLine := Number (f_startLine func) in
      let stack := stack ++ [mkFrame functionName fileName functionStartLine] in
      let key := metricsKey fileName sampleLine in
      let locationMetricsMap :=
        if JsMap.has locationMetricsMap key then locationMetricsMap
        else JsMap.set key
               (mkMetrics (mkLoc sampleLine functionName fileName) 0 0 0 0 0)
               locationMetricsMap in
      (stack, JsMap.modify (bumpMetrics sampleValue) key locationMetricsMap)
  end.

(** The body of [for (const locationId of sample.locationId)];
    [processedLocations] is the third component. *)
Definition locationStep (p : PprofProfile) (sampleValue : Z)
    (st : LineState * gset Z) (locationId : Z) : LineState * gset Z :=
  let '(ls, processedLocations) := st in
  let locationIdNum := Number locationId in
  if bool_decide (locationIdNum ∈ processedLocations) then st
  else
    let processedLocations := processedLocations ∪ {[locationIdNum]} in
    match locationMapOf p !! locationIdNum with
    | None => (ls, processedLocations)
    | Some location =>
        match l_line location with
        | [] => (ls, processedLocations)
        | lines => (foldl (lineStep p sampleValue) ls lines, processedLocations)
        end
    end.

Record SampleLoop := mkLoop {
  totalSamples : Z;
  locationMetricsMap : JsMap.t LocationMetrics;
  callTreeBuilder : CallTreeBuilder }.

(** The stack and metrics map after the location loop of one sample. *)
Definition walkSample (p : PprofProfile) (sample : Sample)
    (locationMetricsMap : JsMap.t LocationMetrics) : LineState :=
  fst (foldl (locationStep p (sampleValueOf sample))
             (([], locationMetricsMap), ∅) (s_locationId sample)).

(** The body of [for (const sample of pprofData.sample)]. *)
Definition sampleStep (p : PprofProfile) (st : SampleLoop) (sample : Sample)
    : SampleLoop :=
  let sampleValue := sampleValueOf sample in
  let totalSamples := totalSamples st + sampleValue in
  let '(stack, locationMetricsMap) := walkSample p sample (locationMetricsMap st) in
  let callTreeBuilder :=
    match stack with
    | [] => callTreeBuilder st
    | _ => addStack (callTreeBuilder st) stack sampleValue totalSamples
    end in
  mkLoop totalSamples locationMetricsMap callTreeBuilder.

Definition sampleLoop (p : PprofProfile) : SampleLoop :=
  foldl (sampleStep p) (mkLoop 0 [] newBuilder) (sample p).

(** [s.includes(sub)] *)
Fixpoint includes (s sub : string) : bool :=
  if String.prefix sub s then true
  else match s with
       | EmptyString => false
       | String _ s' => includes s' sub
       end.

(** [FileMetrics], restricted to its integer-keyed part: [lineMetrics]
    maps a line number to a [LocationMetrics] object of
    [locationMetricsMap], referenced here by its key in that map.
    [totalTime] and [totalPercent] are sums over the percentage pass and
    are left out with it. *)
Record FileMetrics := mkFileMetrics {
  fm_fileName : string;
  fm_lineMetrics : gmap Z string }.

(** The body of the "group by file" [forEach]. *)
Definition groupStep (fileMetricsMap : gmap string FileMetrics)
    (entry : string * LocationMetrics) : gmap string FileMetrics :=
  let '(key, metrics) := entry in
  let fileName := loc_fileName (lm_location metrics) in
  let fileMetricsMap :=
    match fileMetricsMap !! fileName with
    | Some _ => fileMetricsMap
    | None => <[fileName := mkFileMetrics fileName ∅]> fileMetricsMap
    end in
  alter (fun fm => mkFileMetrics (fm_fileName fm)
                     (<[loc_line (lm_location metrics) := key]> (fm_lineMetrics fm)))
        fileName fileMetricsMap.

Definition groupByFile (locationMetricsMap : JsMap.t LocationMetrics)
    : gmap string FileMetrics :=
  foldl groupStep ∅ locationMetricsMap.

(** What [PprofParser.parseProtobuf] computes from the decoded message
    ([fromBinary] and [gunzip] are library calls made before it), without
    its floating-point part: the percentage pass over the metrics, the
    [topFunctions] list built and sorted from it, and the percentages and
    sorting of the call tree. *)
Record Aggregated := mkAggregated {
  a_totalSamples : Z;
  a_durationNs : Z;
  a_sampleRate : Z;
  a_sampleType : string;
  a_locationMetrics : JsMap.t LocationMetrics;
  a_fileMetrics : gmap string FileMetrics;
  a_callTree : CallTreeBuilder }.

Section WithLowerCase.

(** [String.prototype.toLowerCase] *)
Variable toLowerCase : string -> string.

(** "Calculate duration and percentages": [(durationNs, actualTotalSamples)]. *)
Definition durationAndCount (p : PprofProfile) (totalSamples : Z) : Z * Z :=
  if includes (toLowerCase (sampleUnit p)) "nanosecond" then
    (totalSamples, Z.of_nat (length (sample p)))
  else
    let durationNs :=
      if negb (durationNanos p =? 0) && (0 <? durationNanos p)
      then Number (durationNanos p)
      else totalSamples *
           (if Number (period p) =? 0 then 10000000 else Number (period p)) in
    (durationNs, totalSamples).

Definition parseProtobuf (pprofData : PprofProfile) : Aggregated :=
  let st := sampleLoop pprofData in
  let '(durationNs, actualTotalSamples) :=
    durationAndCount pprofData (totalSamples st) in
  mkAggregated actualTotalSamples durationNs
    (if Number (period pprofData) =? 0 then 100 else Number (period pprofData))
    (if decide (sampleTypeName pprofData = "") then "cpu"
     else sampleTypeName pprofData)
    (locationMetricsMap st)
    (groupByFile (locationMetricsMap st))
    (callTreeBuilder st).

End WithLowerCase.

(** *** Reference values and example profiles used in the statements *)






















(** [fib] declared at line 10 of main.go, sampled at line 12 (location 1)
    while called from its own line 14 (location 2): one sample of value 5
    with stack [1; 2]. *)
Definition recursionProfile : PprofProfile :=
  mkProfile [mkSampleType 1 2] [mkSample [1; 2] [5] []] []
    [mkLocation 1 0 0 [mkLine 1 12]; mkLocation 2 0 0 [mkLine 1 14]]
    [mkFunction 1 3 0 4 10]
    [""; "cpu"; "nanoseconds"; "fib"; "main.go"]%string 0 0 0.

(** The same function, one sample of value 5 whose stack names location 2
    twice. *)
Definition repeatedLocationProfile : PprofProfile :=
  mkProfile [mkSampleType 1 2] [mkSample [2; 2] [5] []] []
    [mkLocation 1 0 0 [mkLine 1 12]; mkLocation 2 0 0 [mkLine 1 14]]
    [mkFunction 1 3 0 4 10]
    [""; "cpu"; "nanoseconds"; "fib"; "main.go"]%string 0 0 0.

(** Function 1 is "2:f", declared at line 7 of file "a" and sampled at line
    9; function 2 is "f", declared at line 2 of file "a:7" and sampled at
    line 7.  One sample for each. *)
Definition collisionProfile : PprofProfile :=
  mkProfile [mkSampleType 1 2] [mkSample [1] [1] []; mkSample [2] [1] []] []
    [mkLocation 1 0 0 [mkLine 1 9]; mkLocation 2 0 0 [mkLine 2 7]]
    [mkFunction 1 3 0 4 7; mkFunction 2 5 0 6 2]
    [""; "cpu"; "nanoseconds"; "2:f"; "a"; "f"; "a:7"]%string 0 0 0.

(** [processOrder] declared at line 1094 of main.go, sampled at line 1100. *)
Definition processOrderProfile : PprofProfile :=
  mkProfile [mkSampleType 1 2] [mkSample [1] [40] []] []
    [mkLocation 1 0 0 [mkLine 1 1100]]
    [mkFunction 1 3 0 4 1094]
    [""; "cpu"; "nanoseconds"; "processOrder"; "main.go"]%string 0 0 0.

End Parser.

(** ** Source resolution, [src/utils/pathMapper.ts] *)

Module PathMapper.

Import Parser.

(** [s.split(c)] for a one-character separator. *)
Fixpoint split (c : ascii) (s : string) : list string :=
  match s with
  | EmptyString => [EmptyString]
  | String a s' =>
      if Ascii.eqb a c then EmptyString :: split c s'
      else match split c s' with
           | h :: t => String a h :: t
           | [] => [String a EmptyString]
           end
  end.

(** [s.split(c).filter((p) => p)] *)
Definition parts (c : ascii) (s : string) : list string :=
  filter (fun p => p <> EmptyString) (split c s).

(** [\w] without the unicode flag *)
Definition isWord (a : ascii) : bool :=
  let n := N_of_ascii a in
  ((48 <=? n) && (n <=? 57) || (65 <=? n) && (n <=? 90)
   || (97 <=? n) && (n <=? 122) || (n =? 95))%N.

(** The longest prefix of word characters, and what follows it. *)
Fixpoint spanWord (s : string) : string * string :=
  match s with
  | EmptyString => (EmptyString, EmptyString)
  | String a s' =>
      if isWord a then let '(w, r) := spanWord s' in (String a w, r)
      else (EmptyString, s)
  end.

(** Case folding of the regular expression flag [i] (no unicode flag):
    ASCII letters only. *)
Definition foldCase (a : ascii) : ascii :=
  let n := N_of_ascii a in
  if ((65 <=? n) && (n <=? 90))%N then ascii_of_N (n + 32) else a.

Fixpoint foldCaseString (s : string) : string :=
  match s with
  | EmptyString => EmptyString
  | String a s' => String (foldCase a) (foldCaseString s')
  end.

(** A match of [\(\*?(\w+)\)\.] anchored at the start of [s]; [ok]
    is the additional condition on the captured word. *)
Definition receiverAt (ok : string -> bool) (s : string) : option string :=
  match s with
  | String "("%char r =>
      let r := match r with String "*"%char r' => r' | _ => r end in
      let '(w, rest) := spanWord r in
      if negb (bool_decide (w = EmptyString)) && ok w && String.prefix ")." rest
      then Some w else None
  | _ => None
  end.

(** The leftmost match, as [String.prototype.match] returns it. *)
Fixpoint receiverSearch (ok : string -> bool) (s : string) : option string :=
  match receiverAt ok s with
  | Some w => Some w
  | None => match s with
            | EmptyString => None
            | String _ s' => receiverSearch ok s'
            end
  end.

(** [functionName.match(/\(\*?(\w+)\)\./)], capture 1. *)
Definition matchReceiver (functionName : string) : option string :=
  receiverSearch (fun _ => true) functionName.

(** [name.match(/\(\*?(\w+Service)\)\./i)], capture 1: the word ends
    in "service" (any case) and is longer than that. *)
Definition endsWithService (w : string) : bool :=
  let n := String.length w in
  (Nat.ltb 7 n) && bool_decide (foldCaseString (substring (n - 7) 7 w) = "service").

Definition matchServiceReceiver (name : string) : option string :=
  receiverSearch endsWithService name.

(** The two fields of [FunctionMetrics] the resolver reads. *)
Record TopFunction := mkTopFunction { tf_name : string; tf_fileName : string }.

Definition pushNew (hint : string) (serviceHints : list string) : list string :=
  if bool_decide (hint ∈ serviceHints) then serviceHints else serviceHints ++ [hint].

Section Resolver.

(** [String.prototype.toLowerCase] and [path.sep]. *)
Variable toLowerCase : string -> string.
Variable sep : ascii.

Definition genericPrefixes : list string :=
  ["usr"; "src"; "app"; "go"; "code"; "workspace"].

(** The loop [for (let i = 0; i < pathParts.length - 1; i++)]; [rest]
    is [pathParts] from index [i] on. *)
Fixpoint pathHints (rest : list string) (serviceHints : list string) : list string :=
  match rest with
  | [] => serviceHints
  | [_] => serviceHints
  | part :: ((_ :: after) as rest') =>
      if bool_decide (toLowerCase part ∈ genericPrefixes) then
        pathHints rest' serviceHints
      else if includes part "service" || bool_decide (after = []) then
        pathHints rest' (serviceHints ++ [toLowerCase part])
      else pathHints rest' serviceHints
  end.

(** [if (functionName) { ... }] *)
Definition functionHints (functionName : option string)
    (serviceHints : list string) : list string :=
  match functionName with
  | None => serviceHints
  | Some EmptyString => serviceHints
  | Some functionName =>
      match matchReceiver functionName with
      | Some w => pushNew (toLowerCase w) serviceHints
      | None =>
          let ps := split "/" functionName in
          if Nat.ltb 1 (length ps) then
            let pkgPart := hd EmptyString (split "." (List.last ps EmptyString)) in
            let hint := toLowerCase pkgPart in
            if negb (bool_decide (hint = "main")) then pushNew hint serviceHints
            else serviceHints
          else serviceHints
      end
  end.

(** [if (serviceHints.length === 0 && profile) { ... }]; [profile] is
    given by its [topFunctions]. *)
Definition siblingHints (profilePath : string) (profile : option (list TopFunction))
    (serviceHints : list string) : list string :=
  match serviceHints, profile with
  | [], Some topFunctions =>
      foldl (fun hints func =>
               if bool_decide (tf_fileName func = profilePath) then
                 match matchServiceReceiver (tf_name func) with
                 | Some w => pushNew (toLowerCase w) hints
                 | None => hints
                 end
               else hints)
            [] topFunctions
  | _, _ => serviceHints
  end.

Definition extractHints (profilePath : string) (functionName : option string)
    (profile : option (list TopFunction)) : list string :=
  siblingHints profilePath profile
    (functionHints functionName (pathHints (parts "/" profilePath) [])).

(** The loop over [serviceHints] that computes [maxHintScore]. *)
Definition hintStep (filePathLower : string) (maxHintScore : Z) (hint : string) : Z :=
  if includes filePathLower ("/" +:+ hint +:+ "/") then
    (if maxHintScore <? 100 then 100 else maxHintScore)
  else if includes filePathLower hint then
    (if maxHintScore <? 50 then 50 else maxHintScore)
  else maxHintScore.

Definition maxHintScore (serviceHints : list string) (filePath : string) : Z :=
  foldl (hintStep (toLowerCase filePath)) 0 serviceHints.

(** The number of equal leading elements; on the reversed part lists this
    is the count of "matching path components from the end". *)
Fixpoint matchingPrefix (a b : list string) : Z :=
  match a, b with
  | x :: a', y :: b' => if bool_decide (x = y) then 1 + matchingPrefix a' b' else 0
  | _, _ => 0
  end.

Definition consecutiveMatches (profileParts fileParts : list string) : Z :=
  matchingPrefix (rev profileParts) (rev fileParts).

(** "Bonus for matching directory names anywhere in the path". *)
Definition bonus (profileParts fileParts : list string) : Z :=
  foldl (fun score profilePart =>
           if bool_decide (profilePart ∈ fileParts) then score + 5 else score)
        0 profileParts.

Definition scoreOf (serviceHints profileParts : list string) (filePath : string) : Z :=
  let fileParts := parts sep filePath in
  maxHintScore serviceHints filePath
  + consecutiveMatches profileParts fileParts * 10
  + bonus profileParts fileParts.

(** The body of [for (const fileUri of files)] on [(bestMatch, bestScore)]. *)
Definition candidateStep (serviceHints profileParts : list string)
    (best : option string * Z) (filePath : string) : option string * Z :=
  let score := scoreOf serviceHints profileParts filePath in
  if snd best <? score then (Some filePath, score) else best.

Definition bestCandidate (serviceHints profileParts files : list string)
    : option string * Z :=
  foldl (candidateStep serviceHints profileParts) (None, 0) files.

(** [findFileInWorkspace].  The three queries it makes to the editor are
    arguments: whether the exact path exists ([fs.stat]), whether
    [workspaceFolders] is defined, and the paths [findFiles] returned. *)
Definition findFileInWorkspace (profilePath : string) (functionName : option string)
    (profile : option (list TopFunction))
    (exactExists hasWorkspaceFolders : bool) (files : list string) : option string :=
  if exactExists then Some profilePath
  else if negb hasWorkspaceFolders then None
  else match files with
       | [] => None
       | [file] => Some file
       | _ =>
           let serviceHints := extractHints profilePath functionName profile in
           let profileParts := parts sep profilePath in
           fst (bestCandidate serviceHints profileParts files)
       end.

(** *** The score and the choice as the specification words them *)

Definition hintBonus (hints : list string) (filePath : string) : Z :=
  if existsb (fun h => includes (toLowerCase filePath) ("/" +:+ h +:+ "/")) hints then 100
  else if existsb (fun h => includes (toLowerCase filePath) h) hints then 50
  else 0.

Definition sharedSegments (profileParts fileParts : list string) : Z :=
  Z.of_nat (length (filter (fun x => x ∈ fileParts) profileParts)).

Definition specScore (hints profileParts : list string) (filePath : string) : Z :=
  hintBonus hints filePath
  + 10 * consecutiveMatches profileParts (parts sep filePath)
  + 5 * sharedSegments profileParts (parts sep filePath).

End Resolver.

(** [c] is the first candidate of [files] with the highest score, and that
    score is positive. *)
Definition firstBest (score : string -> Z) (files : list string) (c : string) : Prop :=
  exists i : nat,
    files !! i = Some c /\ 0 < score c /\
    (forall c', c' ∈ files -> score c' <= score c) /\
    (forall (j : nat) c', (j < i)%nat -> files !! j = Some c' -> score c' < score c).

(** [toLowerCase] on ASCII text, for the examples. *)
Definition asciiLowerCase : string -> string := foldCaseString.

Definition checkoutPath : string := "/usr/src/app/src/checkoutservice/main.go".
Definition checkoutFunction : string := "main.(*checkoutService).PlaceOrder".
Definition frontendCandidate : string := "/home/dev/demo/src/frontend/main.go".
Definition checkoutCandidate : string := "/home/dev/demo/src/checkoutservice/main.go".

End PathMapper.

(** ** The text fallback, [parseTextFormat] and [parseBuffer] of
       [src/parsers/pprofParser.ts] *)

Module TextFormat.

Import Wire.

(** A JavaScript string as its sequence of UTF-16 code units. *)
Definition ustring := list Z.

(** A string literal of the source (ASCII). *)
Definition lit (s : string) : ustring :=
  (fun a => Z.of_N (N_of_ascii a)) <$> list_ascii_of_string s.

Fixpoint startsWith (s pre : ustring) : bool :=
  match pre, s with
  | [], _ => true
  | p :: pre', c :: s' => (c =? p) && startsWith s' pre'
  | _ :: _, [] => false
  end.

(** [s.includes(sub)] *)
Fixpoint includes (s sub : ustring) : bool :=
  if startsWith s sub then true
  else match s with
       | [] => false
       | _ :: s' => includes s' sub
       end.

(** [text.split('\n')] *)
Fixpoint splitLines (text : ustring) : list ustring :=
  match text with
  | [] => [[]]
  | c :: text' =>
      if c =? 10 then [] :: splitLines text'
      else match splitLines text' with
           | l :: ls => (c :: l) :: ls
           | [] => [[c]]
           end
  end.

(** [\s]: WhiteSpace and LineTerminator code units. *)
Definition isSpace (c : Z) : bool :=
  (c =? 9) || (c =? 10) || (c =? 11) || (c =? 12) || (c =? 13) || (c =? 32)
  || (c =? 160) || (c =? 5760) || ((8192 <=? c) && (c <=? 8202))
  || (c =? 8232) || (c =? 8233) || (c =? 8239) || (c =? 8287)
  || (c =? 12288) || (c =? 65279).

(** [\d] *)
Definition isDigit (c : Z) : bool := (48 <=? c) && (c <=? 57).

(** [[\d.]] *)
Definition isDigitOrDot (c : Z) : bool := isDigit c || (c =? 46).

(** The longest prefix whose code units satisfy [f], and the rest. *)
Fixpoint span (f : Z -> bool) (s : ustring) : ustring * ustring :=
  match s with
  | [] => ([], [])
  | c :: s' => if f c then let '(a, r) := span f s' in (c :: a, r) else ([], s)
  end.

Definition dropPrefix (s pre : ustring) : option ustring :=
  if startsWith s pre then Some (drop (length pre) s) else None.

(** [/Total:\s+(\d+)/] anchored at the start of [s]: capture 1.  The
    greedy quantifiers take the longest runs; a shorter run of [\s] or
    [\d] is never followed by what the pattern asks next. *)
Definition totalAt (s : ustring) : option ustring :=
  r ← dropPrefix s (lit "Total:");
  let '(ws, r) := span isSpace r in
  let '(ds, _) := span isDigit r in
  match ws, ds with
  | _ :: _, _ :: _ => Some ds
  | _, _ => None
  end.

(** [line.match(/Total:\s+(\d+)/)]: the leftmost match. *)
Fixpoint matchTotal (line : ustring) : option ustring :=
  match totalAt line with
  | Some ds => Some ds
  | None => match line with
            | [] => None
            | _ :: line' => matchTotal line'
            end
  end.

(** The alternation [(s|ms|ns)] at the start of [s]. *)
Definition unitAt (s : ustring) : option ustring :=
  if startsWith s (lit "s") then Some (lit "s")
  else if startsWith s (lit "ms") then Some (lit "ms")
  else if startsWith s (lit "ns") then Some (lit "ns")
  else None.

(** [/Duration:\s+([\d.]+)(s|ms|ns)/] anchored at the start of [s]:
    captures 1 and 2. *)
Definition durationAt (s : ustring) : option (ustring * ustring) :=
  r ← dropPrefix s (lit "Duration:");
  let '(ws, r) := span isSpace r in
  let '(num, r) := span isDigitOrDot r in
  match ws, num with
  | _ :: _, _ :: _ => u ← unitAt r; Some (num, u)
  | _, _ => None
  end.

Fixpoint matchDuration (line : ustring) : option (ustring * ustring) :=
  match durationAt line with
  | Some m => Some m
  | None => match line with
            | [] => None
            | _ :: line' => matchDuration line'
            end
  end.

(** The value of a run of decimal digits. *)
Definition digitsValue (ds : ustring) : Z :=
  foldl (fun acc c => acc * 10 + (c - 48)) 0 ds.

(** [parseInt] on capture 1 of the [Total:] pattern. *)
Definition parseInt (ds : ustring) : Z := digitsValue ds.

(** A JavaScript number that need not be an integer: a rational, or [NaN]
    ([None]).  Rationals stand for doubles; rounding is not modelled. *)
Definition number := option Q.

(** [parseFloat] on capture 1 of the [Duration:] pattern, a run of digits
    and dots: the longest prefix that is a decimal literal. *)
Definition parseFloat (s : ustring) : number :=
  let '(ip, r) := span isDigit s in
  let fp := match r with
            | 46 :: r' => fst (span isDigit r')
            | _ => []
            end in
  match ip, fp with
  | [], [] => None
  | _, _ =>
      Some (Qmake (digitsValue ip * 10 ^ Z.of_nat (length fp) + digitsValue fp)
                  (Z.to_pos (10 ^ Z.of_nat (length fp))))
  end.

Definition scale (value : number) (k : Z) : number :=
  (fun q => Qmult q (inject_Z k)) <$> value.

(** [x || dflt] on numbers: 0 and [NaN] are falsy. *)
Definition orElse (x : number) (dflt : Q) : Q :=
  match x with
  | Some q => if Qeq_bool q 0 then dflt else q
  | None => dflt
  end.

(** The header loop [for (const line of lines)] on
    [(totalSamples, durationNs)]. *)
Definition headerStep (st : Z * number) (line : ustring) : Z * number :=
  let '(totalSamples, durationNs) := st in
  let totalSamples :=
    if includes line (lit "Total:") then
      match matchTotal line with
      | Some ds => parseInt ds
      | None => totalSamples
      end
    else totalSamples in
  let durationNs :=
    if includes line (lit "Duration:") then
      match matchDuration line with
      | Some (num, unit) =>
          let value := parseFloat num in
          if bool_decide (unit = lit "s") then scale value 1000000000
          else if bool_decide (unit = lit "ms") then scale value 1000000
          else value
      | None => durationNs
      end
    else durationNs in
  (totalSamples, durationNs).

(** [ProfileData] of [src/models/ProfileData.ts]; [F] and [T] are the types
    of the values of [fileMetrics] and of the elements of [topFunctions],
    which [parseTextFormat] leaves empty. *)
Record ProfileData (F T : Type) := mkProfileData {
  totalSamples : Z;
  durationNs : Q;
  sampleRate : Z;
  sampleType : string;
  fileMetrics : gmap string F;
  topFunctions : list T }.
Arguments mkProfileData {F T}.
Arguments totalSamples {F T}.
Arguments durationNs {F T}.
Arguments sampleRate {F T}.
Arguments sampleType {F T}.
Arguments fileMetrics {F T}.
Arguments topFunctions {F T}.

Section ParseBuffer.

Context {F T : Type}.

Definition parseTextFormat (text : ustring) : ProfileData F T :=
  let lines := splitLines text in
  let '(totalSamples, durationNs) := foldl headerStep (0, Some 0%Q) lines in
  mkProfileData (if totalSamples =? 0 then 1000 else totalSamples)
                (orElse durationNs (inject_Z 10000000000))
                100 "cpu" ∅ [].

(** [buffer.toString('utf-8')], and the protobuf branch
    [this.parseProtobuf(buffer)] with its library decoder. *)
Variable toStringUtf8 : Buffer -> ustring.
Variable parseProtobuf : Buffer -> outcome (ProfileData F T).

Definition parseBuffer (buffer : Buffer) : outcome (ProfileData F T) :=
  if bool_decide (bget buffer 0 = Some 31) && bool_decide (bget buffer 1 = Some 139)
  then parseProtobuf buffer
  else if bool_decide (bget buffer 0 = Some 10) || bool_decide (bget buffer 0 = Some 18)
  then parseProtobuf buffer
  else Return (parseTextFormat (toStringUtf8 buffer)).

End ParseBuffer.

(** Decoding of ASCII text, for the examples. *)
Definition asciiDecode (b : Buffer) : ustring := byteVal <$> b.

End TextFormat.

(** ** The mock profile generator, [test-data/generateMockProfile.ts] *)

Module Encoder.

Import Wire.

(** [Buffer.from(bytes)] on an array of numbers: each is stored modulo 256. *)
Definition bufferFrom (bytes : list Z) : Buffer :=
  (fun z => ofByteVal (z mod 256)) <$> bytes.

(** The [while (value > 0x7f)] loop of [encodeVarint] with the [push] that
    follows it: the final contents of [bytes]. *)
Fixpoint encodeVarint_loop (fuel : nat) (value : Z) (bytes : list Z)
    : outcome (list Z) :=
  if 127 <? value then
    match fuel with
    | O => OutOfFuel
    | S fuel' =>
        encodeVarint_loop fuel' (JS.ushr value 7)
          (bytes ++ [JS.bor (JS.band value 127) 128])
    end
  else Return (bytes ++ [JS.band value 127]).

Definition encodeVarint (fuel : nat) (value : Z) : outcome Buffer :=
  bytes ← encodeVarint_loop fuel value [];
  Return (bufferFrom bytes).

Definition encodeTag (fuel : nat) (fieldNumber wireType : Z) : outcome Buffer :=
  encodeVarint fuel (JS.bor (JS.shl fieldNumber 3) wireType).

Definition encodeLengthDelimited (fuel : nat) (fieldNumber : Z) (data : Buffer)
    : outcome Buffer :=
  tag ← encodeTag fuel fieldNumber 2;
  length ← encodeVarint fuel (blength data);
  Return (tag ++ length ++ data).

Definition encodeString (fuel : nat) (fieldNumber : Z) (str : string)
    : outcome Buffer :=
  encodeLengthDelimited fuel fieldNumber (list_byte_of_string str).

Definition encodeUint64 (fuel : nat) (fieldNumber value : Z) : outcome Buffer :=
  tag ← encodeTag fuel fieldNumber 0;
  val ← encodeVarint fuel value;
  Return (tag ++ val).

(** *** [createMockProfile] *)

(** [xs.forEach((x, index) => { parts.push(f(x, index)); })] *)
Fixpoint forEachPush {A : Type} (f : A -> Z -> outcome Buffer) (xs : list A)
    (index : Z) (parts : list Buffer) : outcome (list Buffer) :=
  match xs with
  | [] => Return parts
  | x :: xs' => b ← f x index; forEachPush f xs' (index + 1) (parts ++ [b])
  end.

Definition strings : list string :=
  [""; "samples"; "count"; "cpu"; "nanoseconds"; "processOrder"; "validateInput";
   "calculateTotal"; "fetchData"; "parseJSON"; "writeLog"; "formatOutput";
   "cleanup"; "/path/to/sample.go"]%string.

(** An element of the [functions] array. *)
Record MockFunction := mkMockFunction {
  mf_id : Z; mf_name : Z; mf_filename : Z; mf_line : Z }.

Definition functions : list MockFunction :=
  [mkMockFunction 1 5 13 45; mkMockFunction 2 6 13 67; mkMockFunction 3 7 13 89;
   mkMockFunction 4 8 13 123; mkMockFunction 5 9 13 156; mkMockFunction 6 10 13 178;
   mkMockFunction 7 11 13 201; mkMockFunction 8 12 13 234].

(** An element of the [sampleData] array. *)
Record MockSample := mkMockSample { ms_locationId : Z; ms_count : Z }.

Definition sampleData : list MockSample :=
  [mkMockSample 1 3450; mkMockSample 2 1230; mkMockSample 3 1870;
   mkMockSample 4 980; mkMockSample 5 710; mkMockSample 6 450;
   mkMockSample 7 320; mkMockSample 8 150].

(** The buffers the four [forEach] callbacks push. *)
Definition stringPart (fuel : nat) (str : string) (index : Z) : outcome Buffer :=
  encodeString fuel 6 str.

Definition functionPart (fuel : nat) (func : MockFunction) (index : Z)
    : outcome Buffer :=
  a ← encodeUint64 fuel 1 (mf_id func);
  b ← encodeUint64 fuel 2 (mf_name func);
  c ← encodeUint64 fuel 4 (mf_filename func);
  d ← encodeUint64 fuel 5 (mf_line func);
  encodeLengthDelimited fuel 5 (a ++ b ++ c ++ d).

Definition locationPart (fuel : nat) (func : MockFunction) (index : Z)
    : outcome Buffer :=
  a ← encodeUint64 fuel 1 (mf_id func);
  b ← encodeUint64 fuel 2 (mf_line func);
  let line := a ++ b in
  c ← encodeUint64 fuel 1 (index + 1);
  d ← encodeUint64 fuel 3 0;
  e ← encodeLengthDelimited fuel 4 line;
  encodeLengthDelimited fuel 4 (c ++ d ++ e).

Definition samplePart (fuel : nat) (sample : MockSample) (index : Z)
    : outcome Buffer :=
  a ← encodeUint64 fuel 1 (ms_locationId sample);
  b ← encodeUint64 fuel 2 (ms_count sample);
  encodeLengthDelimited fuel 2 (a ++ b).

(** [createMockProfile()]; [timeNanos] is the number
    [Date.now() * 1000000]. *)
Definition createMockProfile (fuel : nat) (timeNanos : Z) : outcome Buffer :=
  parts ← forEachPush (stringPart fuel) strings 0 [];
  a ← encodeUint64 fuel 1 1;
  b ← encodeUint64 fuel 2 2;
  let sampleType := a ++ b in
  st ← encodeLengthDelimited fuel 1 sampleType;
  let parts := parts ++ [st] in
  t ← encodeUint64 fuel 9 timeNanos;
  let parts := parts ++ [t] in
  d ← encodeUint64 fuel 10 (10 * 1000000000);
  let parts := parts ++ [d] in
  p ← encodeUint64 fuel 12 10000000;
  let parts := parts ++ [p] in
  parts ← forEachPush (functionPart fuel) functions 0 parts;
  parts ← forEachPush (locationPart fuel) functions 0 parts;
  parts ← forEachPush (samplePart fuel) sampleData 0 parts;
  Return (concat parts).

(** *** Reference values used in the statements *)

(** The groups [encodeVarint] stores for a non-negative value: one group
    for a value up to 127, and otherwise the low seven bits with the
    continuation bit, followed by the standard groups of the remaining 25
    bits of the value modulo 2^32. *)
Definition groupsOf (value : Z) : list Z :=
  if 127 <? value
  then (value mod 2 ^ 32 mod 128 + 128) :: varintEncoding_go 3 (value mod 2 ^ 32 / 128)
  else [value].

Definition varintBytes (value : Z) : Buffer := ofByteVal <$> groupsOf value.

(** The bytes of a varint field and of a length-delimited field. *)
Definition uint64Bytes (fieldNumber value : Z) : Buffer :=
  varintBytes (fieldNumber * 8 + 0) ++ varintBytes value.

Definition delimitedBytes (fieldNumber : Z) (data : Buffer) : Buffer :=
  varintBytes (fieldNumber * 8 + 2) ++ varintBytes (blength data) ++ data.

(** What the generator's tables should decode to. *)
Definition functionOf (func : MockFunction) : Function :=
  mkFunction (mf_id func) (mf_name func) 0 (mf_filename func) (mf_line func).

Definition locationOf (func : MockFunction) (index : Z) : Location :=
  mkLocation (index + 1) 0 0 [mkLine (mf_id func) (mf_line func)].

Definition sampleOf (sample : MockSample) : Sample :=
  mkSample [ms_locationId sample] [ms_count sample] [].

(** The effect of one field on the profile being decoded. *)
Definition pushSampleType (x : SampleType) (p : PprofProfile) : PprofProfile :=
  mkProfile (sampleType p ++ [x]) (sample p) (mapping p) (location p) (function p)
            (stringTable p) (timeNanos p) (durationNanos p) (period p).

Definition pushSample (x : Sample) (p : PprofProfile) : PprofProfile :=
  mkProfile (sampleType p) (sample p ++ [x]) (mapping p) (location p) (function p)
            (stringTable p) (timeNanos p) (durationNanos p) (period p).

Definition pushLocation (x : Location) (p : PprofProfile) : PprofProfile :=
  mkProfile (sampleType p) (sample p) (mapping p) (location p ++ [x]) (function p)
            (stringTable p) (timeNanos p) (durationNanos p) (period p).

Definition pushFunction (x : Function) (p : PprofProfile) : PprofProfile :=
  mkProfile (sampleType p) (sample p) (mapping p) (location p) (function p ++ [x])
            (stringTable p) (timeNanos p) (durationNanos p) (period p).

Definition pushString (x : string) (p : PprofProfile) : PprofProfile :=
  mkProfile (sampleType p) (sample p) (mapping p) (location p) (function p)
            (stringTable p ++ [x]) (timeNanos p) (durationNanos p) (period p).

Definition setTimeNanos (v : Z) (p : PprofProfile) : PprofProfile :=
  mkProfile (sampleType p) (sample p) (mapping p) (location p) (function p)
            (stringTable p) v (durationNanos p) (period p).

Definition setDurationNanos (v : Z) (p : PprofProfile) : PprofProfile :=
  mkProfile (sampleType p) (sample p) (mapping p) (location p) (function p)
            (stringTable p) (timeNanos p) v (period p).

Definition setPeriod (v : Z) (p : PprofProfile) : PprofProfile :=
  mkProfile (sampleType p) (sample p) (mapping p) (location p) (function p)
            (stringTable p) (timeNanos p) (durationNanos p) v.

(** The fields [createMockProfile] writes, in order: the bytes of each and
    its effect on the decoded profile. *)
Definition stringField (str : string) : Buffer * (PprofProfile -> PprofProfile) :=
  (delimitedBytes 6 (list_byte_of_string str), pushString str).

Definition functionField (func : MockFunction) : Buffer * (PprofProfile -> PprofProfile) :=
  (delimitedBytes 5
     (uint64Bytes 1 (mf_id func) ++ uint64Bytes 2 (mf_name func)
      ++ uint64Bytes 4 (mf_filename func) ++ uint64Bytes 5 (mf_line func)),
   pushFunction (functionOf func)).

Definition locationField (index : nat) (func : MockFunction)
    : Buffer * (PprofProfile -> PprofProfile) :=
  (delimitedBytes 4
     (uint64Bytes 1 (Z.of_nat index + 1) ++ uint64Bytes 3 0
      ++ delimitedBytes 4 (uint64Bytes 1 (mf_id func) ++ uint64Bytes 2 (mf_line func))),
   pushLocation (locationOf func (Z.of_nat index))).

Definition sampleField (sample : MockSample) : Buffer * (PprofProfile -> PprofProfile) :=
  (delimitedBytes 2
     (uint64Bytes 1 (ms_locationId sample) ++ uint64Bytes 2 (ms_count sample)),
   pushSample (sampleOf sample)).

Definition mockFields (timeNanos : Z) : list (Buffer * (PprofProfile -> PprofProfile)) :=
  (stringField <$> strings)
  ++ [(delimitedBytes 1 (uint64Bytes 1 1 ++ uint64Bytes 2 2),
       pushSampleType (mkSampleType 1 2));
      (uint64Bytes 9 timeNanos, setTimeNanos (JS.ToInt32 timeNanos));
      (uint64Bytes 10 (10 * 1000000000), setDurationNanos (JS.ToInt32 (10 * 1000000000)));
      (uint64Bytes 12 10000000, setPeriod (JS.ToInt32 10000000))]
  ++ (functionField <$> functions)
  ++ imap locationField functions
  ++ (sampleField <$> sampleData).

(** The profile the tables of [createMockProfile] describe, with the time
    stamp and the duration as the encoder leaves them: reduced to 32 bits. *)
Definition mockProfile (timeNanos : Z) : PprofProfile :=
  mkProfile [mkSampleType 1 2] (sampleOf <$> sampleData) []
            (imap (fun i func => locationOf func (Z.of_nat i)) functions)
            (functionOf <$> functions) strings
            (JS.ToInt32 timeNanos) 1410065408 10000000.

End Encoder.

(** ** The loop of [addStack] and the shape of the tree it builds *)

Module CallTreeShape.

Import CallTree.

(** One trip through the [for] loop of [addStack]: the builder after the
    body has run for [frame], [isLeaf] telling whether it is the last frame
    of [reversedStack]. *)
Definition stepFrame (frame : Frame) (isLeaf : bool) (value : Z)
    (b : CallTreeBuilder) (currentParent : option string) : CallTreeBuilder :=
  let '(b, node) :=
    getOrCreateNode b (functionName frame) (fileName frame) (line frame) in
  let b := update (addTotal value) node b in
  let b := if isLeaf then update (addSelf value) node b else b in
  match currentParent with
  | Some p =>
      let b :=
        if hasChild b p node then b
        else update (setParent p) node (update (pushChild node) p b) in
      update addInvocation node b
  | None =>
      if bool_decide (node ∈ roots b) then b
      else mkBuilder (nodeMap b) (roots b ++ [node])
  end.

(** The sum of a numeric field over all nodes of the builder. *)
Definition sumOver (g : CallTreeNode -> Z) (b : CallTreeBuilder) : Z :=
  map_fold (fun _ n acc => g n + acc) 0 (nodeMap b).

(** What the calls add up to: the values of the calls with a non-empty
    stack, the number of frames, and the values weighted by the number of
    frames. *)
Definition sumSelf (calls : list (list Frame * Z * Z)) : Z :=
  foldr (fun call acc =>
           match fst (fst call) with [] => acc | _ => valueOf call + acc end)
        0 calls.

Definition countFrames (calls : list (list Frame * Z * Z)) : Z :=
  foldr (fun call acc => Z.of_nat (length (fst (fst call))) + acc) 0 calls.

Definition sumTotal (calls : list (list Frame * Z * Z)) : Z :=
  foldr (fun call acc => valueOf call * Z.of_nat (length (fst (fst call))) + acc) 0 calls.

Definition sumInvocations (calls : list (list Frame * Z * Z)) : Z :=
  foldr (fun call acc =>
           match fst (fst call) with
           | [] => acc
           | stack => Z.of_nat (length stack) - 1 + acc
           end)
        0 calls.

(** The magnitudes of the values, weighted by the number of frames: a bound
    on every value that reaches a node and on every partial sum that
    [node.totalTime += value] and [node.selfTime += value] go through. *)
Definition sumMagnitude (calls : list (list Frame * Z * Z)) : Z :=
  foldr (fun call acc =>
           Z.abs (valueOf call) * Z.of_nat (length (fst (fst call))) + acc)
        0 calls.

(** Node [k] can be reached from a root through [children]. *)
Inductive reachable (b : CallTreeBuilder) : string -> Prop :=
  | reachable_root r : r ∈ roots b -> reachable b r
  | reachable_child p c : reachable b p -> childOf b p c -> reachable b c.

(** The shape of the tree: [roots] and every [children] array hold each
    node once and only nodes of [nodeMap]; a node is stored under its own
    [id], which is the id of its identity; a [parent] lists the node among
    its children. *)
Definition nodeShape (b : CallTreeBuilder) (k : string) (n : CallTreeNode) : Prop :=
  id n = k /\ k = frameId (identityOf n) /\
  NoDup (children n) /\
  (forall c, c ∈ children n -> is_Some (nodeMap b !! c)) /\
  (forall p, parent n = Some p -> childOf b p k).

Definition wellFormed (b : CallTreeBuilder) : Prop :=
  NoDup (roots b) /\
  (forall r, r ∈ roots b -> is_Some (nodeMap b !! r)) /\
  (forall k n, nodeMap b !! k = Some n -> nodeShape b k n).

(** Samples against invocations: a node counts a sample for each frame
    that names it and an invocation for each such frame that has a caller,
    so the two differ exactly for the nodes that are roots. *)
Definition countsOk (b : CallTreeBuilder) : Prop :=
  (forall r, r ∈ roots b -> is_Some (nodeMap b !! r)) /\
  forall k n, nodeMap b !! k = Some n ->
    0 <= invocations n <= samples n /\ 1 <= samples n /\
    (k ∈ roots b <-> invocations n < samples n).

End CallTreeShape.

(** ** Looking metrics up, [getFileMetrics] and [getLineMetrics] of
       [src/parsers/pprofParser.ts] *)

Module FileLookup.

Import Parser.

(** [s.split('/').pop() || s] *)
Definition baseName (s : string) : string :=
  let l := List.last (PathMapper.split "/" s) EmptyString in
  if decide (l = EmptyString) then s else l.

Section WithLowerCase.

(** [String.prototype.toLowerCase] *)
Variable toLowerCase : string -> string.

(** [parts[parts.length - 2]?.toLowerCase()]; [None] is [undefined]. *)
Definition parentDir (parts : list string) : option string :=
  match rev parts with
  | _ :: d :: _ => Some (toLowerCase d)
  | _ => None
  end.

(** The score the loop of [getFileMetrics] gives the entry stored under
    [key], once its base name has matched. *)
Definition keyScore (fileNameParts : list string) (key : string) : Z :=
  let keyParts := PathMapper.parts "/" key in
  let score := 10 + PathMapper.bonus fileNameParts keyParts in
  match parentDir fileNameParts, parentDir keyParts with
  | Some fileParentDir, Some keyParentDir =>
      if negb (bool_decide (fileParentDir = EmptyString))
         && negb (bool_decide (keyParentDir = EmptyString))
         && bool_decide (fileParentDir = keyParentDir)
      then score + 50 else score
  | _, _ => score
  end.

(** The body of [for (const [key, value] of profile.fileMetrics.entries())]
    on [(bestMatch, bestScore)]. *)
Definition matchStep {V : Type} (fileName : string)
    (best : option V * Z) (entry : string * V) : option V * Z :=
  let '(key, value) := entry in
  if negb (bool_decide (baseName key = baseName fileName)) then best
  else
    let score := keyScore (PathMapper.parts "/" fileName) key in
    if snd best <? score then (Some value, score) else best.

(** [getFileMetrics(profile, fileName)]; [fileMetrics] is
    [profile.fileMetrics], a [Map] in insertion order. *)
Definition getFileMetrics {V : Type} (fileMetrics : JsMap.t V) (fileName : string)
    : option V :=
  match JsMap.get fileMetrics fileName with
  | Some metrics => Some metrics
  | None => fst (foldl (matchStep fileName) (None, 0) fileMetrics)
  end.


End WithLowerCase.



(** The entry at position [i], stored under [key], is the first of the
    entries with the base name of [fileName] that has the highest score. *)
Definition firstBestEntry {V : Type} (score : string -> Z) (fileName : string)
    (entries : list (string * V)) (i : nat) (key : string) (v : V) : Prop :=
  entries !! i = Some (key, v) /\ baseName key = baseName fileName /\
  (forall j key' v', entries !! j = Some (key', v') ->
     baseName key' = baseName fileName ->
     score key' <= score key /\ ((j < i)%nat -> score key' < score key)).

End FileLookup.

(** ** Display names and path suggestions

    [formatFunctionName] of [src/views/performanceBreakdownView.ts] (the
    same extraction opens [findFunctionInDocument] of
    [src/utils/pathMapper.ts] and [findFunctionScope] of the decoration
    provider), and [suggestPathMappings] of [src/utils/pathMapper.ts]. *)

Module Names.

Import PathMapper.

(** The longest prefix without the character [c], and what follows it. *)
Fixpoint spanNot (c : ascii) (s : string) : string * string :=
  match s with
  | EmptyString => (EmptyString, EmptyString)
  | String a s' =>
      if Ascii.eqb a c then (EmptyString, s)
      else let '(w, r) := spanNot c s' in (String a w, r)
  end.

(** A match of [\([^)]+\)\.(\w+)] anchored at the start of [s]: capture 1.
    The greedy [[^)]+] stops at the first [)] (a shorter run is followed by
    a character that is not [)]), and [\w+] takes the longest run. *)
Definition methodAt (s : string) : option string :=
  match s with
  | String a r =>
      if Ascii.eqb a "(" then
        let '(inner, rest) := spanNot ")" r in
        match inner, rest with
        | String _ _, String c1 (String c2 rest') =>
            if Ascii.eqb c1 ")" && Ascii.eqb c2 "." then
              let '(w, _) := spanWord rest' in
              match w with
              | EmptyString => None
              | _ => Some w
              end
            else None
        | _, _ => None
        end
      else None
  | EmptyString => None
  end.

(** [fullName.match(/\([^)]+\)\.(\w+)/)], capture 1: the leftmost match. *)
Fixpoint matchMethod (fullName : string) : option string :=
  match methodAt fullName with
  | Some w => Some w
  | None => match fullName with
            | EmptyString => None
            | String _ s' => matchMethod s'
            end
  end.

Definition formatFunctionName (fullName : string) : string :=
  match matchMethod fullName with
  | Some w => w
  | None => List.last (split "." fullName) EmptyString
  end.

(** [suggestPathMappings] *)
Definition containerPrefixes : list string :=
  ["/usr/src/app"; "/app"; "/go/src"; "/src"; "/code"; "/workspace"].

(** The inner [for] loop with its [break]: the first container prefix the
    path starts with. *)
Definition firstPrefix (profilePath : string) : option string :=
  List.find (fun containerPrefix => String.prefix containerPrefix profilePath)
            containerPrefixes.

(** [workspaceFolders] is [undefined] ([None]) or the list of the folders'
    [uri.fsPath]. *)
Definition suggestPathMappings (workspaceFolders : option (list string))
    (profilePaths : list string) : JsMap.t string :=
  match workspaceFolders with
  | None => []
  | Some [] => []
  | Some (workspaceRoot :: _) =>
      foldl (fun mappings profilePath =>
               match firstPrefix profilePath with
               | Some containerPrefix => JsMap.set containerPrefix workspaceRoot mappings
               | None => mappings
               end)
            [] profilePaths
  end.

(** The character [c] does not occur in [s]. *)
Fixpoint without (c : ascii) (s : string) : Prop :=
  match s with
  | EmptyString => True
  | String a s' => a <> c /\ without c s'
  end.

(** All characters of [s] are word characters. *)
Fixpoint allWord (s : string) : Prop :=
  match s with
  | EmptyString => True
  | String a s' => isWord a = true /\ allWord s'
  end.

(** [s] is empty or starts with a character that [\w] does not match. *)
Definition wordEnds (s : string) : Prop :=
  match s with
  | EmptyString => True
  | String a _ => isWord a = false
  end.

End Names.

(** ** Searching the call tree, [findFunctionsInFile] of the decoration
       provider *)

Module TreeSearch.

Import Wire CallTree CallTreeShape FileLookup.

(** The body of [for (const node of nodes)], on [(results, visited)];
    [recurse] is the recursive call on [node.children], which shares the
    [visited] set.  An array of nodes holds node objects, so an id always
    names a node of [nodeMap]. *)
Definition visitNode
    (recurse : list string -> gset string -> outcome (list string * gset string))
    (b : CallTreeBuilder) (fileName : string)
    (st : list string * gset string) (k : string)
    : outcome (list string * gset string) :=
  let '(results, visited) := st in
  match nodeMap b !! k with
  | None => Return (results, visited)
  | Some node =>
      if bool_decide (id node ∈ visited) then Return (results, visited)
      else
        let visited := {[id node]} ∪ visited in
        let nodeBasename := baseName (n_fileName node) in
        let targetBasename := baseName fileName in
        let results :=
          if bool_decide (nodeBasename = targetBasename) then results ++ [k]
          else results in
        match children node with
        | [] => Return (results, visited)
        | _ =>
            '(found, visited) ← recurse (children node) visited;
            Return (results ++ found, visited)
        end
  end.

Fixpoint forNodes
    (recurse : list string -> gset string -> outcome (list string * gset string))
    (b : CallTreeBuilder) (fileName : string)
    (nodes : list string) (st : list string * gset string)
    : outcome (list string * gset string) :=
  match nodes with
  | [] => Return st
  | k :: nodes' =>
      st ← visitNode recurse b fileName st k;
      forNodes recurse b fileName nodes' st
  end.

(** [findFunctionsInFile(nodes, fileName, visited)]: the results and the
    [visited] set as the call leaves it.  [fuel] bounds the depth of the
    recursion. *)
Fixpoint findFunctionsInFile (fuel : nat) (b : CallTreeBuilder)
    (nodes : list string) (fileName : string) (visited : gset string)
    : outcome (list string * gset string) :=
  match fuel with
  | O => OutOfFuel
  | S fuel' =>
      forNodes (fun nodes visited => findFunctionsInFile fuel' b nodes fileName visited)
               b fileName nodes ([], visited)
  end.

(** What the search relies on: a node is stored under its own [id], and
    the [children] arrays hold nodes of [nodeMap] only. *)
Definition closed (b : CallTreeBuilder) : Prop :=
  forall k n, nodeMap b !! k = Some n ->
    id n = k /\ forall c, c ∈ children n -> is_Some (nodeMap b !! c).

(** Node [k] is one of [nodes] or can be reached from one of them through
    [children]. *)
Inductive reaches (b : CallTreeBuilder) (nodes : list string) : string -> Prop :=
  | reaches_here k : k ∈ nodes -> reaches b nodes k
  | reaches_child p c : reaches b nodes p -> childOf b p c -> reaches b nodes c.

(** The node [k] is one of a file with the base name of [fileName]. *)
Definition inFile (b : CallTreeBuilder) (fileName k : string) : Prop :=
  exists n, nodeMap b !! k = Some n /\ baseName (n_fileName n) = baseName fileName.

(** What a call of [findFunctionsInFile] on [nodes] that starts with the
    visited set [V] and ends with [V'] has done: it has visited [nodes] and
    all children of the nodes it has visited, only nodes at or below
    [nodes], and has found, once each, those of them that are in the file. *)
Definition searched (b : CallTreeBuilder) (fileName : string) (nodes : list string)
    (V : gset string) (found : list string) (V' : gset string) : Prop :=
  V ⊆ V' /\
  (forall k, k ∈ nodes -> k ∈ V') /\
  (forall x, x ∈ V' -> (x ∉ V) -> forall c, childOf b x c -> c ∈ V') /\
  (forall x, x ∈ V' -> (x ∉ V) -> reaches b nodes x) /\
  NoDup found /\
  (forall x, x ∈ found <-> x ∈ V' /\ (x ∉ V) /\ inFile b fileName x).

(** [A] calls [B] and [B] calls [A]: the tree has a cycle. *)
Definition mutualRecursion : list (list Frame * Z * Z) :=
  [([frameA; frameB; frameA], 5, 5)].

End TreeSearch.

(** * Properties *)

(** ** The wire reader *)

Module WireProps.

Import Wire.

Lemma continuation_bit (b : byte) :
  (JS.band (byteVal b) 128 =? 0) = negb (128 <=? byteVal b).
Proof. destruct b; reflexivity. Qed.

Lemma bget_app_here (pre : list byte) b rest :
  bget (pre ++ b :: rest) (Z.of_nat (length pre)) = Some (byteVal b).
Proof.
  unfold bget, blength. rewrite length_app. cbn [length].
  replace ((0 <=? Z.of_nat (length pre))
           && (Z.of_nat (length pre) <? Z.of_nat (length pre + S (length rest))))
    with true
    by (symmetry; apply andb_true_iff; split; [apply Z.leb_le | apply Z.ltb_lt]; lia).
  rewrite Nat2Z.id. rewrite list_lookup_middle by done. reflexivity.
Qed.

(** A run [rest] of continuation bytes is consumed whole when it ends the
    buffer or exhausts the iteration budget. *)
Lemma readVarint_loop_continuation rest :
  forall (pre tail : list byte) value shift iterations fuel,
  Forall (fun b => 128 <= byteVal b) rest ->
  (length rest <= fuel)%nat ->
  iterations + Z.of_nat (length rest) <= maxIterations ->
  tail = [] \/ iterations + Z.of_nat (length rest) = maxIterations ->
  readVarint_loop fuel (pre ++ rest ++ tail) (Z.of_nat (length pre)) value shift iterations
  = (accumulate rest value shift, Z.of_nat (length pre) + Z.of_nat (length rest),
     iterations + Z.of_nat (length rest)).
Proof.
  induction rest as [|b rest IH];
    intros pre tail value shift iterations fuel Hall Hfuel Hit Hend.
  - cbn [app length accumulate].
    assert (Hguard : (Z.of_nat (length pre) <? blength (pre ++ tail))
                     && (iterations <? maxIterations) = false).
    { destruct Hend as [-> | Hten].
      - rewrite app_nil_r. unfold blength. rewrite Z.ltb_irrefl. reflexivity.
      - apply andb_false_iff. right. apply Z.ltb_ge. cbn [length] in Hten. lia. }
    destruct fuel; cbn [readVarint_loop]; rewrite Hguard;
      change (Z.of_nat 0) with 0; rewrite !Z.add_0_r; reflexivity.
  - destruct fuel as [|fuel]; [cbn in Hfuel; lia|].
    cbn [readVarint_loop].
    replace (Z.of_nat (length pre) <? blength (pre ++ (b :: rest) ++ tail)) with true
      by (symmetry; apply Z.ltb_lt; unfold blength; rewrite !length_app; cbn [length]; lia).
    replace (iterations <? maxIterations) with true
      by (symmetry; apply Z.ltb_lt; cbn [length] in Hit; lia).
    cbn [andb]. rewrite <- app_comm_cons, bget_app_here. cbn [numOf].
    rewrite continuation_bit.
    apply Forall_cons in Hall as [Hb Hall].
    replace (128 <=? byteVal b) with true by (symmetry; apply Z.leb_le; exact Hb).
    cbn [negb].
    specialize (IH (pre ++ [b]) tail
                   (JS.bor value (JS.shl (JS.band (byteVal b) 127) shift))
                   (shift + 7) (iterations + 1) fuel Hall).
    rewrite <- app_assoc in IH. cbn [app] in IH.
    rewrite length_app in IH. cbn [length] in IH.
    replace (Z.of_nat (length pre) + 1) with (Z.of_nat (length pre + 1)) by lia.
    rewrite IH; [|cbn [length] in Hfuel; lia|cbn [length] in Hit; lia
                 |cbn [length] in Hend; destruct Hend; [left; done | right; lia]].
    cbn [accumulate length]. rewrite !Nat2Z.inj_succ, Nat2Z.inj_add.
    change (Z.of_nat 1) with 1. f_equal; [f_equal|]; lia.
Qed.

Lemma readVarint_truncated buffer offset :
  truncatedVarint buffer offset ->
  readVarint buffer offset =
    if maxIterations <=? blength buffer - offset
    then Throw (InvalidVarint offset)
    else Return (mkVarint (accumulate (drop (Z.to_nat offset) buffer) 0 0)
                          (blength buffer)).
Proof.
  intros [Hoff Hall].
  set (pre := take (Z.to_nat offset) buffer).
  set (rest := drop (Z.to_nat offset) buffer) in *.
  assert (Hpre : Z.of_nat (length pre) = offset)
    by (unfold pre, blength in *; rewrite length_take; lia).
  assert (Hrest : Z.of_nat (length rest) = blength buffer - offset)
    by (unfold rest, blength in *; rewrite length_drop; lia).
  assert (Hb : pre ++ rest = buffer) by apply take_drop.
  unfold readVarint.
  destruct (Z.leb_spec maxIterations (blength buffer - offset)) as [Hmany|Hfew].
  - pose proof (readVarint_loop_continuation (take 10 rest) pre (drop 10 rest) 0 0 0
                  (Z.to_nat maxIterations)) as H.
    rewrite take_drop, Hb in H.
    rewrite Hpre in H. rewrite length_take in H.
    unfold maxIterations in *.
    rewrite H; [| apply Forall_take; exact Hall | lia | lia | right; lia].
    replace (10 <=? 0 + Z.of_nat (10 `min` length rest)) with true
      by (symmetry; apply Z.leb_le; lia).
    do 2 f_equal. lia.
  - pose proof (readVarint_loop_continuation rest pre [] 0 0 0
                  (Z.to_nat maxIterations)) as H.
    rewrite app_nil_r, Hb in H.
    rewrite Hpre in H.
    unfold maxIterations in *.
    rewrite H; [| exact Hall | lia | lia | left; done].
    replace (10 <=? 0 + Z.of_nat (length rest)) with false
      by (symmetry; apply Z.leb_gt; lia).
    do 2 f_equal. lia.
Qed.

Lemma slice_past_end (buffer : list byte) start len :
  0 <= start <= blength buffer -> blength buffer <= start + len ->
  slice buffer start (start + len) = drop (Z.to_nat start) buffer.
Proof.
  intros Hs Hl. unfold slice, clampIndex.
  replace (start <? 0) with false by (symmetry; apply Z.ltb_ge; lia).
  replace (start + len <? 0) with false by (symmetry; apply Z.ltb_ge; lia).
  rewrite (Z.min_l start) by lia. rewrite (Z.min_r (start + len)) by lia.
  apply take_ge. rewrite length_drop. unfold blength in *. lia.
Qed.

Lemma parseProtobuf_loop_no_throw fuel : forall buffer offset profile e,
  parseProtobuf_loop fuel buffer offset profile <> Throw e.
Proof.
  induction fuel as [|fuel IH]; intros buffer offset profile e; cbn [parseProtobuf_loop].
  - destruct (offset <? blength buffer); discriminate.
  - destruct (offset <? blength buffer); [|discriminate].
    destruct (readTag buffer offset) as [t| |]; [|discriminate..].
    destruct ((wireType t <? 0) || (5 <? wireType t)); [apply IH|].
    destruct (parseField fuel buffer (tagOffset t) (fieldNumber t) (wireType t) profile)
      as [[profile' offset']| |]; [apply IH| |discriminate].
    destruct (skipField buffer (tagOffset t) (wireType t)); [apply IH|discriminate..].
Qed.

Lemma ToInt32_small x : - 2 ^ 31 <= x < 2 ^ 31 -> JS.ToInt32 x = x.
Proof. intros H. unfold JS.ToInt32. rewrite Z.mod_small by lia. lia. Qed.

Lemma byteVal_range b : 0 <= byteVal b < 256.
Proof. unfold byteVal. pose proof (Byte.to_N_bounded b). lia. Qed.

Lemma byteVal_ofByteVal z : 0 <= z < 256 -> byteVal (ofByteVal z) = z.
Proof.
intros Hz. unfold ofByteVal, byteVal.
destruct (Byte.of_N (Z.to_N z)) as [b|] eqn:E.
- cbn. apply Byte.to_of_N in E. rewrite E. lia.
- apply Byte.of_N_None_iff in E. lia.
Qed.

Lemma band_127 b : JS.band (byteVal b) 127 = byteVal b mod 128.
Proof. destruct b; reflexivity. Qed.

Lemma land_disjoint a g k :
0 <= a < 2 ^ k -> 0 <= k -> Z.land a (g * 2 ^ k) = 0.
Proof.
intros Ha Hk. apply Z.bits_inj'. intros n Hn.
rewrite Z.land_spec, Z.bits_0.
destruct (Z.lt_ge_cases n k) as [Hlt|Hge].
- rewrite Z.mul_pow2_bits_low by lia. apply andb_false_r.
- replace (Z.testbit a n) with false; [reflexivity|].
  symmetry. destruct (Z.eq_dec a 0) as [->|Hne]; [apply Z.bits_0|].
  apply Z.bits_above_log2; [lia|].
  apply Z.log2_lt_pow2; [lia|].
  assert (2 ^ k <= 2 ^ n) by (apply Z.pow_le_mono_r; lia). lia.
Qed.

Lemma lor_disjoint a g k :
0 <= a < 2 ^ k -> 0 <= k -> Z.lor a (g * 2 ^ k) = a + g * 2 ^ k.
Proof.
intros Ha Hk. pose proof (land_disjoint a g k Ha Hk) as H.
rewrite <- (Z.lxor_lor _ _ H). symmetry. apply Z.add_nocarry_lxor. exact H.
Qed.

Lemma shl_group g shift :
0 <= g -> 0 <= shift -> g * 2 ^ shift < 2 ^ 31 -> JS.shl g shift = g * 2 ^ shift.
Proof.
intros Hg Hs Hb. unfold JS.shl.
destruct (Z.eq_dec g 0) as [->|Hne].
{ change (JS.ToInt32 0) with 0. rewrite Z.shiftl_0_l. reflexivity. }
assert (Hpos : 0 < 2 ^ shift) by (apply Z.pow_pos_nonneg; lia).
assert (H31 : 2 ^ 31 = 2147483648) by reflexivity.
assert (Hp : 2 ^ shift < 2 ^ 31) by nia.
assert (Hlt : shift < 31) by (apply (Z.pow_lt_mono_r_iff 2); lia).
assert (Hg31 : g < 2 ^ 31) by nia.
rewrite (ToInt32_small g) by lia.
unfold JS.ToUint32. rewrite (Z.mod_small shift) by lia. rewrite Z.mod_small by lia.
rewrite Z.shiftl_mul_pow2 by lia. apply ToInt32_small. lia.
Qed.

Lemma bor_group value g shift :
0 <= value < 2 ^ shift -> 0 <= g -> 0 <= shift -> value + g * 2 ^ shift < 2 ^ 31 ->
JS.bor value (JS.shl g shift) = value + g * 2 ^ shift.
Proof.
intros Hv Hg Hs Hb.
assert (0 <= g * 2 ^ shift) by (apply Z.mul_nonneg_nonneg; [lia | apply Z.pow_nonneg; lia]).
rewrite shl_group by lia. unfold JS.bor.
rewrite !ToInt32_small by lia. apply lor_disjoint; lia.
Qed.

Lemma length_varintEncoding_go fe : forall v,
(1 <= length (varintEncoding_go fe v) <= fe + 1)%nat.
Proof.
induction fe as [|fe IH]; intros v; cbn [varintEncoding_go].
- cbn. lia.
- destruct (v <? 128); cbn [length]; [lia|]. specialize (IH (v / 128)). lia.
Qed.

Lemma readVarint_loop_last (pre tail : list byte) v value shift iterations fuel :
0 <= v < 128 -> 0 <= shift -> 0 <= value < 2 ^ shift ->
value + v * 2 ^ shift < 2 ^ 31 -> iterations < maxIterations ->
readVarint_loop (S fuel) (pre ++ ofByteVal v :: tail) (Z.of_nat (length pre))
                value shift iterations
= (value + v * 2 ^ shift, Z.of_nat (length pre) + 1, iterations).
Proof.
intros Hv Hs Hval Hb Hit. cbn [readVarint_loop].
replace (Z.of_nat (length pre) <? blength (pre ++ ofByteVal v :: tail)) with true
  by (symmetry; apply Z.ltb_lt; unfold blength; rewrite length_app; cbn [length]; lia).
replace (iterations <? maxIterations) with true by (symmetry; apply Z.ltb_lt; lia).
cbn [andb]. rewrite bget_app_here. cbn [numOf].
rewrite continuation_bit, band_127, byteVal_ofByteVal by lia.
replace (128 <=? v) with false by (symmetry; apply Z.leb_gt; lia). cbn [negb].
rewrite Z.mod_small by lia. rewrite bor_group by lia. reflexivity.
Qed.

Lemma readVarint_loop_encoding fe :
forall v (pre tail : list byte) value shift iterations fuel,
0 <= v < 128 ^ (Z.of_nat fe + 1) -> 0 <= shift -> 0 <= value < 2 ^ shift ->
value + v * 2 ^ shift < 2 ^ 31 ->
(length (varintEncoding_go fe v) <= fuel)%nat ->
iterations + Z.of_nat (length (varintEncoding_go fe v)) <= maxIterations ->
readVarint_loop fuel (pre ++ (ofByteVal <$> varintEncoding_go fe v) ++ tail)
                (Z.of_nat (length pre)) value shift iterations
= (value + v * 2 ^ shift,
   Z.of_nat (length pre) + Z.of_nat (length (varintEncoding_go fe v)),
   iterations + Z.of_nat (length (varintEncoding_go fe v)) - 1).
Proof.
induction fe as [|fe IH]; intros v pre tail value shift iterations fuel Hv Hs Hval Hb Hfuel Hit.
- cbn [varintEncoding_go] in *. cbn [length] in *.
  change (128 ^ (Z.of_nat 0 + 1)) with 128 in Hv.
  destruct fuel as [|fuel]; [lia|].
  rewrite Z.mod_small by lia. cbn [fmap list_fmap app].
  rewrite readVarint_loop_last by (unfold maxIterations in *; lia).
  f_equal. lia.
- cbn [varintEncoding_go] in *.
  destruct (Z.ltb_spec v 128) as [Hsmall|Hbig].
  + cbn [length] in *. destruct fuel as [|fuel]; [lia|].
    cbn [fmap list_fmap app].
    rewrite readVarint_loop_last by (unfold maxIterations in *; lia).
    f_equal. lia.
  + cbn [length] in *. destruct fuel as [|fuel]; [lia|].
    cbn [fmap list_fmap app].
    assert (Hmod : 0 <= v mod 128 < 128) by (apply Z.mod_pos_bound; lia).
    assert (Hdiv : v = 128 * (v / 128) + v mod 128) by (apply Z.div_mod; lia).
    assert (Hpow : 2 ^ (shift + 7) = 128 * 2 ^ shift)
      by (rewrite Z.pow_add_r by lia; change (2 ^ 7) with 128; lia).
    assert (Hpos : 0 < 2 ^ shift) by (apply Z.pow_pos_nonneg; lia).
    assert (Hq : 0 <= v / 128) by (apply Z.div_pos; lia).
    cbn [readVarint_loop].
    replace (Z.of_nat (length pre)
             <? blength (pre ++ ofByteVal (v mod 128 + 128)
                              :: (ofByteVal <$> varintEncoding_go fe (v / 128)) ++ tail))
      with true
      by (symmetry; apply Z.ltb_lt; unfold blength; rewrite length_app; cbn [length]; lia).
    pose proof (length_varintEncoding_go fe (v / 128)) as Hlen.
    replace (iterations <? maxIterations) with true
      by (symmetry; apply Z.ltb_lt; lia).
    cbn [andb]. rewrite bget_app_here. cbn [numOf].
    rewrite continuation_bit, band_127, byteVal_ofByteVal by lia.
    replace (128 <=? v mod 128 + 128) with true by (symmetry; apply Z.leb_le; lia).
    cbn [negb].
    replace ((v mod 128 + 128) mod 128) with (v mod 128)
      by (replace (v mod 128 + 128) with (v mod 128 + 1 * 128) by lia;
          rewrite Z.mod_add by lia; rewrite Z.mod_mod by lia; reflexivity).
    rewrite bor_group by nia.
    specialize (IH (v / 128) (pre ++ [ofByteVal (v mod 128 + 128)]) tail
                   (value + v mod 128 * 2 ^ shift) (shift + 7) (iterations + 1) fuel).
    rewrite <- app_assoc in IH. cbn [app] in IH.
    rewrite length_app in IH. cbn [length] in IH.
    replace (Z.of_nat (length pre) + 1) with (Z.of_nat (length pre + 1)) by lia.
    rewrite IH.
    * f_equal; [f_equal|]; nia.
    * split; [exact Hq|]. apply Z.div_lt_upper_bound; [lia|].
      replace (Z.of_nat (S fe) + 1) with (Z.succ (Z.of_nat fe + 1)) in Hv by lia.
      rewrite Z.pow_succ_r in Hv by lia. lia.
    * lia.
    * nia.
    * nia.
    * lia.
    * lia.
Qed.

(** Below 2^31 the decoder is right: [readVarint] returns [v] on the standard
  encoding of [v], and the offset just past it. *)
Lemma readVarint_roundtrip_below_2_31 v :
0 <= v < 2 ^ 31 ->
readVarint (varintEncoding v) 0 = Return (mkVarint v (blength (varintEncoding v))).
Proof.
intros Hv. unfold readVarint, varintEncoding.
pose proof (length_varintEncoding_go 9 v) as Hlen.
pose proof (readVarint_loop_encoding 9 v [] [] 0 0 0 (Z.to_nat maxIterations)) as H.
cbn [app length] in H. rewrite app_nil_r in H. change (Z.of_nat 0) with 0 in H.
rewrite H.
- replace (maxIterations <=? 0 + Z.of_nat (length (varintEncoding_go 9 v)) - 1) with false
    by (symmetry; apply Z.leb_gt; unfold maxIterations; lia).
  unfold blength. rewrite length_fmap. do 2 f_equal; lia.
- change (128 ^ (Z.of_nat 9 + 1)) with 1180591620717411303424.
  change (2 ^ 31) with 2147483648 in Hv. lia.
- lia.
- change (2 ^ 0) with 1. lia.
- change (2 ^ 0) with 1. lia.
- unfold maxIterations. lia.
- unfold maxIterations. lia.
Qed.

(** C1, at the failing input.  The standard encoding of 2^32 is the five
    bytes 80 80 80 80 10; [readVarint] shifts the last group by 28 inside a
    32-bit integer and returns 0.  The encoding of 2^32 + 1094 decodes to
    1094, and that of 2^31 to a negative number. *)
Theorem readVarint_wraps_to_32_bits :
  varintEncoding (2 ^ 32) = [x80; x80; x80; x80; x10]
  /\ readVarint (varintEncoding (2 ^ 32)) 0 = Return (mkVarint 0 5)
  /\ readVarint (varintEncoding (2 ^ 32 + 1094)) 0 = Return (mkVarint 1094 5)
  /\ readVarint (varintEncoding (2 ^ 31)) 0 = Return (mkVarint (- 2 ^ 31) 5).
Proof. repeat split; vm_compute; reflexivity. Qed.

(** C4 as stated fails: the one-byte buffer AC, the first byte of the
    encoding AC 02 of 300, is read as the value 44 without error; a payload
    declared five bytes long of which two are present is returned as those
    two bytes; and the top-level decoder returns a profile whose string is
    cut short. *)
Lemma truncated_input_is_accepted :
  varintEncoding 300 = [xac; x02]
  /\ truncatedVarint [xac] 0
  /\ readVarint [xac] 0 = Return (mkVarint 44 1)
  /\ truncatedDelimited [x05; x41; x42] 0
  /\ readLengthDelimited [x05; x41; x42] 0 = Return (mkDelimited [x41; x42] 6)
  /\ forall fuel, parseProtobuf (S fuel) [x32; x05; x41] = Return profileA.
Proof.
  split; [reflexivity|]. split.
  { split; [vm_compute; split; [discriminate | reflexivity]|].
    repeat constructor. vm_compute. discriminate. }
  split; [reflexivity|]. split.
  { exists (mkVarint 5 1). split; [reflexivity|]. vm_compute.
    repeat split; discriminate. }
  split; [reflexivity|].
  intros fuel. destruct fuel; reflexivity.
Qed.

(** C4 (amended).  Truncation as such raises nothing.  On a buffer that ends
    in the middle of a varint, [readVarint] returns the bits accumulated
    from the bytes that are present, with [newOffset] the buffer length; it
    throws only when ten continuation bytes were read.  On a buffer that
    ends in the middle of a length-delimited payload,
    [readLengthDelimited] returns the bytes that are present, fewer than
    declared, and an offset past the end of the buffer. *)
Theorem truncated_reads_return_partial buffer offset :
  (truncatedVarint buffer offset ->
     readVarint buffer offset =
       if maxIterations <=? blength buffer - offset
       then Throw (InvalidVarint offset)
       else Return (mkVarint (accumulate (drop (Z.to_nat offset) buffer) 0 0)
                             (blength buffer)))
  /\ (truncatedDelimited buffer offset ->
        exists v,
          readVarint buffer offset = Return v /\
          readLengthDelimited buffer offset
            = Return (mkDelimited (drop (Z.to_nat (newOffset v)) buffer)
                                  (newOffset v + value v)) /\
          blength (drop (Z.to_nat (newOffset v)) buffer) < value v /\
          blength buffer < newOffset v + value v).
Proof.
  split; [apply readVarint_truncated|].
  intros (v & Hv & Hoff & Hpast). exists v. split; [exact Hv|].
  unfold readLengthDelimited. rewrite Hv. cbn.
  rewrite slice_past_end by lia. repeat split; [|exact Hpast].
  unfold blength in *. rewrite length_drop. lia.
Qed.

Lemma truncated_reads_return_partial_witness :
  truncatedVarint [xac] 0
  /\ truncatedDelimited [x05; x41; x42] 0
  /\ readVarint [xac] 0 = Return (mkVarint 44 1)
  /\ exists v,
       readVarint [x05; x41; x42] 0 = Return v /\
       readLengthDelimited [x05; x41; x42] 0
         = Return (mkDelimited (drop (Z.to_nat (newOffset v)) [x05; x41; x42])
                               (newOffset v + value v)) /\
       blength (drop (Z.to_nat (newOffset v)) [x05; x41; x42]) < value v /\
       blength [x05; x41; x42] < newOffset v + value v.
Proof.
  assert (H1 : truncatedVarint [xac] 0).
  { split; [vm_compute; split; [discriminate | reflexivity]|].
    repeat constructor. vm_compute. discriminate. }
  assert (H2 : truncatedDelimited [x05; x41; x42] 0).
  { exists (mkVarint 5 1). split; [reflexivity|]. vm_compute.
    repeat split; discriminate. }
  split; [exact H1|]. split; [exact H2|]. split.
  - exact (proj1 (truncated_reads_return_partial [xac] 0) H1).
  - exact (proj2 (truncated_reads_return_partial [x05; x41; x42] 0) H2).
Defined.

Lemma looping_field fuel profile :
parseField fuel looping 1 1 2 profile
= Return (mkProfile (sampleType profile ++ [mkSampleType 0 0]) (sample profile)
            (mapping profile) (location profile) (function profile)
            (stringTable profile) (timeNanos profile) (durationNanos profile)
            (period profile), 0).
Proof. destruct profile, fuel; reflexivity. Qed.

Lemma parseProtobuf_loop_looping fuel : forall profile,
parseProtobuf_loop fuel looping 0 profile = OutOfFuel.
Proof.
induction fuel as [|fuel IH]; intros profile; [reflexivity|].
cbn [parseProtobuf_loop].
change (0 <? blength looping) with true. cbn match.
change (readTag looping 0) with (Return (mkTag 1 2 1)). cbn match.
cbn [wireType tagOffset fieldNumber]. change ((2 <? 0) || (5 <? 2)) with false. cbn match.
rewrite looping_field. apply IH.
Qed.

(** The main loop need not terminate: a declared length that [readVarint]
  returns as a negative number sends the offset back to the start of the
  field, which is then decoded again, for ever. *)
Lemma parseProtobuf_need_not_terminate :
readLengthDelimited looping 1 = Return (mkDelimited [] 0)
/\ forall fuel, parseProtobuf fuel looping = OutOfFuel.
Proof. split; [reflexivity | intros; apply parseProtobuf_loop_looping]. Qed.

(** C9 as stated fails: after the string-table entry "A" the decoder meets
    a tag (first buffer) or a length (second buffer) of eleven continuation
    bytes, cannot resume, and returns the profile holding "A" as an
    ordinary result. *)
Lemma garbled_input_returns_partial_profile :
  cannotResume 0 garbled 3 profileA
  /\ (forall fuel, parseProtobuf (S (S fuel)) garbled = Return profileA)
  /\ (forall fuel, parseProtobuf (S (S fuel)) garbledLength = Return profileA).
Proof.
  split.
  { split; [vm_compute; reflexivity|]. left. eexists. vm_compute. reflexivity. }
  split; intros fuel; reflexivity.
Qed.

(** C9 (amended).  [parseProtobuf] raises nothing to its caller.  When the
    main loop cannot determine the next field boundary (the tag cannot be
    read, or the field throws and cannot be skipped either) it stops and
    returns the profile populated so far as its normal result. *)
Theorem parseProtobuf_returns_partial_profile fuel buffer offset profile :
  cannotResume fuel buffer offset profile ->
  parseProtobuf_loop (S fuel) buffer offset profile = Return profile
  /\ forall fuel' e, parseProtobuf fuel' buffer <> Throw e.
Proof.
  intros [Hlt Hcase]. split; [|intros; apply parseProtobuf_loop_no_throw].
  cbn [parseProtobuf_loop].
  replace (offset <? blength buffer) with true by (symmetry; apply Z.ltb_lt; exact Hlt).
  destruct Hcase as [[e ->] | (t & e & e' & -> & Hwt & -> & ->)]; [reflexivity|].
  replace ((wireType t <? 0) || (5 <? wireType t)) with false; [reflexivity|].
  symmetry. apply orb_false_iff. split; [apply Z.ltb_ge | apply Z.ltb_ge]; lia.
Qed.

Lemma parseProtobuf_returns_partial_profile_witness :
  cannotResume 1 garbledLength 3 profileA
  /\ parseProtobuf_loop 2 garbledLength 3 profileA = Return profileA
  /\ forall fuel' e, parseProtobuf fuel' garbledLength <> Throw e.
Proof.
  assert (H : cannotResume 1 garbledLength 3 profileA).
  { split; [vm_compute; reflexivity|]. right.
    exists (mkTag 1 2 4), (InvalidVarint 4), (InvalidVarint 4).
    vm_compute. repeat split; try reflexivity; discriminate. }
  split; [exact H|].
  exact (parseProtobuf_returns_partial_profile 1 garbledLength 3 profileA H).
Defined.

End WireProps.

(** ** The call tree *)

Module CallTreeProps.

Import CallTree.

Lemma lookup_update f i b j :
  nodeMap (update f i b) !! j
  = if decide (i = j) then f <$> nodeMap b !! i else nodeMap b !! j.
Proof. unfold update. cbn [nodeMap]. apply lookup_alter. Qed.

Lemma update_update f g i b : update f i (update g i b) = update (f ∘ g) i b.
Proof. unfold update. cbn [nodeMap roots]. f_equal. apply alter_alter_eq. Qed.

(** *** Total time against self time *)

Lemma allNodes_update P f i b :
  (forall n, P n -> P (f n)) -> allNodes P b -> allNodes P (update f i b).
Proof.
  intros Hf Hb k n. rewrite lookup_update. case_decide as Hik.
  - subst k. destruct (nodeMap b !! i) as [n0|] eqn:E; [|discriminate].
    cbn. intros [= <-]. apply Hf. eapply Hb. exact E.
  - apply Hb.
Qed.

Lemma allNodes_getOrCreate P b fn file ln :
  P (mkNode fn file ln 0 0 0 0 0 0 [] None (createNodeId fn file ln)) ->
  allNodes P b -> allNodes P (fst (getOrCreateNode b fn file ln)).
Proof.
  intros Hnew Hb. unfold getOrCreateNode.
  destruct (nodeMap b !! createNodeId fn file ln) eqn:E; cbn [fst]; [exact Hb|].
  intros k n. cbn [nodeMap]. rewrite lookup_insert. case_decide.
  - intros [= <-]. exact Hnew.
  - apply Hb.
Qed.

Lemma addStack_loop_timeOk frames : forall value b cp,
  0 <= value -> allNodes timeOk b -> allNodes timeOk (addStack_loop frames value b cp).
Proof.
  induction frames as [|frame rest IH]; intros value b cp Hv Hb;
    cbn [addStack_loop]; [exact Hb|].
  destruct (getOrCreateNode b (functionName frame) (fileName frame) (line frame))
    as [b1 node] eqn:Eg.
  assert (H1 : allNodes timeOk b1).
  { replace b1
      with (fst (getOrCreateNode b (functionName frame) (fileName frame) (line frame)))
      by (rewrite Eg; reflexivity).
    apply allNodes_getOrCreate; [unfold timeOk; cbn; lia | exact Hb]. }
  set (b2 := match rest with
             | [] => update (addSelf value) node (update (addTotal value) node b1)
             | _ :: _ => update (addTotal value) node b1
             end).
  assert (H2 : allNodes timeOk b2).
  { unfold b2. destruct rest.
    - rewrite update_update. apply allNodes_update; [|exact H1].
      intros [] ?; unfold timeOk in *; cbn in *; lia.
    - apply allNodes_update; [|exact H1].
      intros [] ?; unfold timeOk in *; cbn in *; lia. }
  apply IH; [exact Hv|].
  destruct cp as [p|].
  - apply allNodes_update; [intros [] ?; assumption|].
    destruct (hasChild b2 p node); [exact H2|].
    apply allNodes_update; [intros [] ?; assumption|].
    apply allNodes_update; [intros [] ?; assumption|]. exact H2.
  - destruct (bool_decide (node ∈ roots b2)); exact H2.
Qed.

Lemma addStack_timeOk b stack value d :
  0 <= value -> allNodes timeOk b -> allNodes timeOk (addStack b stack value d).
Proof.
  intros Hv Hb. unfold addStack. destruct stack; [exact Hb|].
  apply addStack_loop_timeOk; assumption.
Qed.

(** C8 as stated fails: one stack [A] called from [B] with the sample value
    -5 leaves the root [B] with total time -5 below its self time 0. *)
Lemma negative_value_breaks_total_ge_self :
  nodeMap (addStack newBuilder [frameA; frameB] (-5) 0) !! frameId frameB
  = Some (mkNode "B" "f.go" 2 0 (-5) 0 0 1 0 [frameId frameA] None (frameId frameB))
  /\ ~ timeOk (mkNode "B" "f.go" 2 0 (-5) 0 0 1 0 [frameId frameA] None (frameId frameB)).
Proof. split; [vm_compute; reflexivity|]. unfold timeOk. cbn. lia. Qed.

(** C8 (amended).  After any sequence of [addStack] calls whose sample
    values are all non-negative, every node's total time is greater than or
    equal to its self time. *)
Theorem totalTime_ge_selfTime calls k n :
  Forall (fun call => 0 <= valueOf call) calls ->
  nodeMap (addStacks newBuilder calls) !! k = Some n ->
  selfTime n <= totalTime n.
Proof.
  intros Hcalls. revert k n. change (allNodes timeOk (addStacks newBuilder calls)).
  unfold addStacks.
  assert (H0 : allNodes timeOk newBuilder)
    by (intros k n; cbn; rewrite lookup_empty; discriminate).
  revert H0. generalize newBuilder as b.
  induction Hcalls as [|[[stack value] d] calls Hv _ IH]; intros b Hb;
    cbn [foldl]; [exact Hb|].
  apply IH. apply addStack_timeOk; [exact Hv | exact Hb].
Qed.

Lemma totalTime_ge_selfTime_witness :
  Forall (fun call => 0 <= valueOf call) twoParents
  /\ nodeMap (addStacks newBuilder twoParents) !! frameId frameA
     = Some (mkNode "A" "f.go" 1 0 5 0 0 1 0 [frameId frameC] None (frameId frameA))
  /\ selfTime (mkNode "A" "f.go" 1 0 5 0 0 1 0 [frameId frameC] None (frameId frameA))
     <= totalTime (mkNode "A" "f.go" 1 0 5 0 0 1 0 [frameId frameC] None (frameId frameA)).
Proof.
  assert (H1 : Forall (fun call => 0 <= valueOf call) twoParents)
    by (repeat constructor; vm_compute; discriminate).
  assert (H2 : nodeMap (addStacks newBuilder twoParents) !! frameId frameA
               = Some (mkNode "A" "f.go" 1 0 5 0 0 1 0 [frameId frameC] None
                              (frameId frameA)))
    by (vm_compute; reflexivity).
  split; [exact H1|]. split; [exact H2|].
  exact (totalTime_ge_selfTime twoParents _ _ H1 H2).
Defined.

(** *** One node per identity *)

Lemma grows_refl b : grows b b.
Proof. intros p pn H. exists pn. auto. Qed.

Lemma grows_trans b1 b2 b3 : grows b1 b2 -> grows b2 b3 -> grows b1 b3.
Proof.
  intros H12 H23 p pn H.
  destruct (H12 p pn H) as (pn2 & H2 & Hid2 & Hc2).
  destruct (H23 p pn2 H2) as (pn3 & H3 & Hid3 & Hc3).
  exists pn3. repeat split; [exact H3 | congruence | auto].
Qed.

Lemma grows_update f i b :
  (forall n, id (f n) = id n /\ forall c, c ∈ children n -> c ∈ children (f n)) ->
  grows b (update f i b).
Proof.
  intros Hf p pn H. rewrite lookup_update. case_decide as Hip.
  - subst p. rewrite H. cbn. exists (f pn). destruct (Hf pn). auto.
  - exists pn. auto.
Qed.

Lemma grows_getOrCreate b fn file ln :
  grows b (fst (getOrCreateNode b fn file ln)).
Proof.
  unfold getOrCreateNode.
  destruct (nodeMap b !! createNodeId fn file ln) eqn:E; cbn [fst]; [apply grows_refl|].
  intros p pn H. exists pn. cbn [nodeMap]. rewrite lookup_insert_ne; [auto|].
  intros Heq. rewrite Heq in E. congruence.
Qed.

Lemma grows_roots b r : grows b (mkBuilder (nodeMap b) r).
Proof. intros p pn H. exists pn. auto. Qed.

Lemma getOrCreate_present b fn file ln :
  snd (getOrCreateNode b fn file ln) = createNodeId fn file ln /\
  is_Some (nodeMap (fst (getOrCreateNode b fn file ln)) !! createNodeId fn file ln).
Proof.
  unfold getOrCreateNode.
  destruct (nodeMap b !! createNodeId fn file ln) eqn:E; cbn [fst snd nodeMap].
  - rewrite E. eauto.
  - rewrite lookup_insert_eq. eauto.
Qed.

Lemma present_grows b b' k :
  grows b b' -> is_Some (nodeMap b !! k) -> is_Some (nodeMap b' !! k).
Proof. intros Hg [n Hn]. destruct (Hg k n Hn) as (n' & Hn' & _). eauto. Qed.

Lemma childOf_grows b b' p c : grows b b' -> childOf b p c -> childOf b' p c.
Proof.
  intros Hg (pn & Hp & Hc). destruct (Hg p pn Hp) as (pn' & Hp' & _ & Hc').
  exists pn'. auto.
Qed.

Local Ltac modifier :=
  intros []; cbn; split; [reflexivity | intros c Hc; try exact Hc].

Lemma grows_addTotal v i b : grows b (update (addTotal v) i b).
Proof. apply grows_update. modifier. Qed.

Lemma grows_addSelf v i b : grows b (update (addSelf v) i b).
Proof. apply grows_update. modifier. Qed.

Lemma grows_setParent p i b : grows b (update (setParent p) i b).
Proof. apply grows_update. modifier. Qed.

Lemma grows_addInvocation i b : grows b (update addInvocation i b).
Proof. apply grows_update. modifier. Qed.

Lemma grows_pushChild x i b : grows b (update (pushChild x) i b).
Proof. apply grows_update. modifier. apply elem_of_app. left. exact Hc. Qed.

(** One trip through the loop of [addStack]: the frame's node exists
    afterwards, and the previous frame's node lists it as a child. *)
Lemma addStack_loop_step frame rest value b cp :
  exists b',
    addStack_loop (frame :: rest) value b cp
    = addStack_loop rest value b' (Some (frameId frame))
    /\ grows b b'
    /\ is_Some (nodeMap b' !! frameId frame)
    /\ forall p, cp = Some p -> is_Some (nodeMap b !! p) -> childOf b' p (frameId frame).
Proof.
  cbn [addStack_loop].
  pose proof (grows_getOrCreate b (functionName frame) (fileName frame) (line frame)) as Hg1.
  pose proof (getOrCreate_present b (functionName frame) (fileName frame) (line frame))
    as [Hnode Hpres].
  destruct (getOrCreateNode b (functionName frame) (fileName frame) (line frame))
    as [b1 node]. cbn [fst snd] in *. subst node. fold (frameId frame) in *.
  set (b2 := match rest with
             | [] => update (addSelf value) (frameId frame)
                       (update (addTotal value) (frameId frame) b1)
             | _ :: _ => update (addTotal value) (frameId frame) b1
             end).
  assert (Hg2 : grows b1 b2).
  { unfold b2. destruct rest;
      [eapply grows_trans; [apply grows_addTotal | apply grows_addSelf]
      | apply grows_addTotal]. }
  eexists. split; [reflexivity|].
  assert (Hb2 : grows b b2) by (eapply grows_trans; eassumption).
  destruct cp as [p|].
  - assert (Hg3 : grows b2 (if hasChild b2 p (frameId frame) then b2
                            else update (setParent p) (frameId frame)
                                   (update (pushChild (frameId frame)) p b2))).
    { destruct (hasChild b2 p (frameId frame)); [apply grows_refl|].
      eapply grows_trans; [apply grows_pushChild | apply grows_setParent]. }
    split; [|split].
    + eapply grows_trans; [exact Hb2|]. eapply grows_trans; [exact Hg3|].
      apply grows_addInvocation.
    + eapply present_grows; [apply grows_addInvocation|].
      eapply present_grows; [exact Hg3|].
      eapply present_grows; [exact Hg2 | exact Hpres].
    + intros p' [= <-] Hp.
      eapply childOf_grows; [apply grows_addInvocation|].
      destruct (present_grows _ _ _ Hb2 Hp) as [pn Hpn].
      unfold hasChild. rewrite Hpn. case_bool_decide as Hin.
      * exists pn. auto.
      * eapply childOf_grows; [apply grows_setParent|].
        exists (pushChild (frameId frame) pn). rewrite lookup_update.
        destruct (decide (p = p)); [|congruence]. rewrite Hpn. split; [reflexivity|].
        destruct pn; cbn. apply elem_of_app. right.
        apply list_elem_of_singleton. reflexivity.
  - split; [|split].
    + destruct (bool_decide (frameId frame ∈ roots b2)); [exact Hb2|].
      eapply grows_trans; [exact Hb2 | apply grows_roots].
    + destruct (bool_decide (frameId frame ∈ roots b2)); cbn [nodeMap];
        (eapply present_grows; [exact Hg2 | exact Hpres]).
    + intros p [=].
Qed.

Lemma addStack_loop_grows frames : forall value b cp,
  grows b (addStack_loop frames value b cp).
Proof.
  induction frames as [|frame rest IH]; intros value b cp; [apply grows_refl|].
  destruct (addStack_loop_step frame rest value b cp) as (b' & -> & Hg & _).
  eapply grows_trans; [exact Hg | apply IH].
Qed.

Lemma addStack_loop_adjacent l1 : forall p c l2 value b cp,
  childOf (addStack_loop (l1 ++ p :: c :: l2) value b cp) (frameId p) (frameId c)
  /\ is_Some (nodeMap (addStack_loop (l1 ++ p :: c :: l2) value b cp) !! frameId c).
Proof.
  induction l1 as [|a l1 IH]; intros p c l2 value b cp; cbn [app].
  - destruct (addStack_loop_step p (c :: l2) value b cp) as (b1 & -> & _ & Hp & _).
    destruct (addStack_loop_step c l2 value b1 (Some (frameId p)))
      as (b2 & -> & _ & Hc & Hch).
    split.
    + eapply childOf_grows; [apply addStack_loop_grows|].
      apply Hch; [reflexivity | exact Hp].
    + eapply present_grows; [apply addStack_loop_grows | exact Hc].
  - destruct (addStack_loop_step a (l1 ++ p :: c :: l2) value b cp) as (b1 & -> & _).
    apply IH.
Qed.

Lemma addStack_grows b stack value d : grows b (addStack b stack value d).
Proof.
  unfold addStack. destruct stack; [apply grows_refl | apply addStack_loop_grows].
Qed.

Lemma addStack_calledFrom b stack value d c p :
  calledFrom stack c p ->
  childOf (addStack b stack value d) (frameId p) (frameId c)
  /\ is_Some (nodeMap (addStack b stack value d) !! frameId c).
Proof.
  intros (l1 & l2 & ->). unfold addStack.
  destruct (l1 ++ c :: p :: l2) eqn:E; [destruct l1; discriminate|]. rewrite <- E.
  rewrite rev_app_distr. cbn [rev]. rewrite <- !app_assoc. cbn [app].
  apply addStack_loop_adjacent.
Qed.

Lemma addStacks_grows calls : forall b, grows b (addStacks b calls).
Proof.
  unfold addStacks. induction calls as [|[[s v] d] calls IH]; intros b; cbn [foldl].
  - apply grows_refl.
  - eapply grows_trans; [apply addStack_grows | apply IH].
Qed.

Lemma addStacks_calledFrom calls : forall b s v d c p,
  (s, v, d) ∈ calls -> calledFrom s c p ->
  childOf (addStacks b calls) (frameId p) (frameId c)
  /\ is_Some (nodeMap (addStacks b calls) !! frameId c).
Proof.
  induction calls as [|[[s0 v0] d0] calls IH]; intros b s v d c p Hin Hcf.
  - apply elem_of_nil in Hin. destruct Hin.
  - apply elem_of_cons in Hin as [[= -> -> ->] | Hin].
    + destruct (addStack_calledFrom b s0 v0 d0 c p Hcf) as [Hch Hpres].
      pose proof (addStacks_grows calls (addStack b s0 v0 d0)) as Hg.
      split; [eapply childOf_grows | eapply present_grows]; eauto.
    + exact (IH (addStack b s0 v0 d0) s v d c p Hin Hcf).
Qed.

(** C3 as stated fails: [C] is called from [A] in one stack and from [B] in
    another; the builder holds three nodes, not four, [A] and [B] both list
    the one node of [C] as a child, and that node has accumulated both
    samples (12 = 5 + 7, two samples, two invocations). *)
Lemma same_identity_two_parents_one_node :
  calledFrom [frameC; frameA] frameC frameA
  /\ calledFrom [frameC; frameB] frameC frameB
  /\ size (nodeMap (addStacks newBuilder twoParents)) = 3%nat
  /\ children <$> nodeMap (addStacks newBuilder twoParents) !! frameId frameA
     = Some [frameId frameC]
  /\ children <$> nodeMap (addStacks newBuilder twoParents) !! frameId frameB
     = Some [frameId frameC]
  /\ nodeMap (addStacks newBuilder twoParents) !! frameId frameC
     = Some (mkNode "C" "f.go" 3 12 12 0 0 2 2 [] (Some (frameId frameB))
                    (frameId frameC)).
Proof.
  split; [exists [], []; reflexivity|]. split; [exists [], []; reflexivity|].
  repeat split; vm_compute; reflexivity.
Qed.

(** C3 (amended).  Nodes are deduplicated by identity over the whole
    builder, not per parent: when a frame with identity (fileName,
    declaration line, functionName) occurs under one parent in one stack and
    under another parent in another stack, the builder holds a single node
    for that identity, and each of the two parents lists that same node
    among its children. *)
Theorem node_shared_between_parents calls s1 v1 d1 s2 v2 d2 c p1 p2 :
  (s1, v1, d1) ∈ calls -> (s2, v2, d2) ∈ calls ->
  calledFrom s1 c p1 -> calledFrom s2 c p2 ->
  exists n pn1 pn2,
    nodeMap (addStacks newBuilder calls) !! frameId c = Some n /\
    nodeMap (addStacks newBuilder calls) !! frameId p1 = Some pn1 /\
    frameId c ∈ children pn1 /\
    nodeMap (addStacks newBuilder calls) !! frameId p2 = Some pn2 /\
    frameId c ∈ children pn2.
Proof.
  intros H1 H2 Hc1 Hc2.
  destruct (addStacks_calledFrom calls newBuilder _ _ _ _ _ H1 Hc1)
    as [(pn1 & Hp1 & Hch1) [n Hn]].
  destruct (addStacks_calledFrom calls newBuilder _ _ _ _ _ H2 Hc2)
    as [(pn2 & Hp2 & Hch2) _].
  exists n, pn1, pn2. auto.
Qed.

Lemma node_shared_between_parents_witness :
  ([frameC; frameA], 5, 5) ∈ twoParents
  /\ ([frameC; frameB], 7, 12) ∈ twoParents
  /\ calledFrom [frameC; frameA] frameC frameA
  /\ calledFrom [frameC; frameB] frameC frameB
  /\ exists n pn1 pn2,
       nodeMap (addStacks newBuilder twoParents) !! frameId frameC = Some n /\
       nodeMap (addStacks newBuilder twoParents) !! frameId frameA = Some pn1 /\
       frameId frameC ∈ children pn1 /\
       nodeMap (addStacks newBuilder twoParents) !! frameId frameB = Some pn2 /\
       frameId frameC ∈ children pn2.
Proof.
  assert (H1 : ([frameC; frameA], 5, 5) ∈ twoParents) by (unfold twoParents; left).
  assert (H2 : ([frameC; frameB], 7, 12) ∈ twoParents)
    by (unfold twoParents; right; left).
  assert (H3 : calledFrom [frameC; frameA] frameC frameA) by (exists [], []; reflexivity).
  assert (H4 : calledFrom [frameC; frameB] frameC frameB) by (exists [], []; reflexivity).
  split; [exact H1|]. split; [exact H2|]. split; [exact H3|]. split; [exact H4|].
  exact (node_shared_between_parents twoParents _ _ _ _ _ _ _ _ _ H1 H2 H3 H4).
Defined.

(** *** What the nodes carry *)







End CallTreeProps.

(** ** Aggregation *)

Module ParserProps.

Import Wire CallTree Parser CallTreeProps.







(** C5, at the failing input.  The stack of the sample is location 1 then
    location 2, two different locations of the one function [fib]:
    [processedLocations] does not filter the second, two frames of [fib]
    reach [addStack], and the sample's value 5 is added to the total time of
    the node of [fib] twice. *)
Theorem recursion_counted_twice :
  walkSample recursionProfile (mkSample [1; 2] [5] []) []
  = ([mkFrame "fib" "main.go" 10; mkFrame "fib" "main.go" 10],
     [("main.go:12"%string, mkMetrics (mkLoc 12 "fib" "main.go") 0 5 0 0 5);
      ("main.go:14"%string, mkMetrics (mkLoc 14 "fib" "main.go") 0 5 0 0 5)])
  /\ nodeMap (a_callTree (parseProtobuf PathMapper.asciiLowerCase recursionProfile))
     !! createNodeId "fib" "main.go" 10
     = Some (mkNode "fib" "main.go" 10 5 10 0 0 2 1 ["main.go:10:fib"%string]
                    (Some "main.go:10:fib"%string) "main.go:10:fib").
Proof. split; vm_compute; reflexivity. Qed.

(** *** Which line goes where *)

(** JsMap facts *)
Lemma get_modify {V} (f : V -> V) k (m : JsMap.t V) k' :
JsMap.get (JsMap.modify f k m) k'
= if decide (k = k') then f <$> JsMap.get m k' else JsMap.get m k'.
Proof.
induction m as [|[k0 v] m IH]; cbn [JsMap.modify JsMap.get].
- destruct (decide (k = k')); reflexivity.
- destruct (decide (k0 = k)) as [->|Hne]; cbn [JsMap.get].
  + destruct (decide (k = k')); reflexivity.
  + destruct (decide (k0 = k')) as [->|Hne'].
    * rewrite decide_False by congruence. reflexivity.
    * exact IH.
Qed.

Lemma get_snoc {V} (m : JsMap.t V) k v k' :
JsMap.get (m ++ [(k, v)]) k'
= match JsMap.get m k' with
  | Some x => Some x
  | None => if decide (k = k') then Some v else None
  end.
Proof.
induction m as [|[k0 v0] m IH]; cbn [app JsMap.get]; [reflexivity|].
destruct (decide (k0 = k')); [reflexivity | exact IH].
Qed.

Lemma has_get {V} (m : JsMap.t V) k : JsMap.has m k = bool_decide (is_Some (JsMap.get m k)).
Proof.
unfold JsMap.has. destruct (JsMap.get m k) eqn:E.
- symmetry. apply bool_decide_eq_true_2. eauto.
- symmetry. apply bool_decide_eq_false_2. intros [x Hx]. discriminate.
Qed.

Lemma get_elem_of {V} (m : JsMap.t V) k v : JsMap.get m k = Some v -> (k, v) ∈ m.
Proof.
induction m as [|[k0 v0] m IH]; cbn [JsMap.get]; [discriminate|].
case_decide as Hk.
- intros [= <-]. subst k0. apply elem_of_cons. auto.
- intros H. apply elem_of_cons. auto.
Qed.

















Lemma app_empty (s : string) : "" +:+ s = s.
Proof. reflexivity. Qed.

Lemma app_String c (f s : string) : String c f +:+ s = String c (f +:+ s).
Proof. reflexivity. Qed.










(** A location id that occurs twice on one stack is walked once: the one
    frame of [fib] gets the sample's value once. *)
Example repeated_location_counted_once :
  walkSample repeatedLocationProfile (mkSample [2; 2] [5] []) []
  = ([mkFrame "fib" "main.go" 10],
     [("main.go:14"%string, mkMetrics (mkLoc 14 "fib" "main.go") 0 5 0 0 5)])
  /\ totalTime <$> nodeMap (a_callTree (parseProtobuf PathMapper.asciiLowerCase
                                         repeatedLocationProfile))
                    !! createNodeId "fib" "main.go" 10
     = Some 5.
Proof. split; vm_compute; reflexivity. Qed.

(** C2, at the failing input.  The frame of function "f" (file "a:7",
    declared at line 2, sampled at line 7) is handed to the tree with line
    2, but its id "a:7:2:f" is also the id of function "2:f" (file "a",
    declared at line 7): the node found for the frame is the one created
    for "2:f" and carries line 7. *)
Theorem colliding_node_id_reports_other_line :
  walkSample collisionProfile (mkSample [2] [1] []) []
  = ([mkFrame "f" "a:7" 2],
     [("a:7:7"%string, mkMetrics (mkLoc 7 "f" "a:7") 0 1 0 0 1)])
  /\ createNodeId "f" "a:7" 2 = createNodeId "2:f" "a" 7
  /\ nodeMap (a_callTree (parseProtobuf PathMapper.asciiLowerCase collisionProfile))
     !! createNodeId "f" "a:7" 2
     = Some (mkNode "2:f" "a" 7 2 2 0 0 2 0 [] None "a:7:2:f").
Proof. repeat split; vm_compute; reflexivity. Qed.

(** The two line numbers on the profile of the specification's end-to-end
    example: the node of [processOrder] carries the declaration line 1094,
    the line metrics of main.go are keyed by the sample line 1100. *)
Example processOrder_lines :
  n_line <$> nodeMap (a_callTree (parseProtobuf PathMapper.asciiLowerCase
                                    processOrderProfile))
             !! createNodeId "processOrder" "main.go" 1094
  = Some 1094
  /\ (fun fm => fm_lineMetrics fm !! 1100)
       <$> a_fileMetrics (parseProtobuf PathMapper.asciiLowerCase processOrderProfile)
           !! "main.go"%string
     = Some (Some (metricsKey "main.go" 1100))
  /\ JsMap.get (a_locationMetrics (parseProtobuf PathMapper.asciiLowerCase
                                     processOrderProfile))
               (metricsKey "main.go" 1100)
     = Some (mkMetrics (mkLoc 1100 "processOrder" "main.go") 0 40 0 0 40).
Proof. repeat split; vm_compute; reflexivity. Qed.

End ParserProps.

(** ** Source resolution *)

Module PathMapperProps.

Import Parser PathMapper.

Section Scoring.

Variable toLowerCase : string -> string.
Variable sep : ascii.

Lemma foldl_hintStep fl hints : forall m,
  (m = 0 \/ m = 50 \/ m = 100) ->
  foldl (hintStep fl) m hints =
    if (m =? 100) || existsb (fun h => includes fl ("/" +:+ h +:+ "/")) hints then 100
    else if (m =? 50) || existsb (fun h => includes fl h) hints then 50
    else 0.
Proof.
  induction hints as [|h hints IH]; intros m Hm; cbn [foldl existsb].
  - rewrite !orb_false_r. destruct Hm as [-> | [-> | ->]]; reflexivity.
  - unfold hintStep at 2.
    destruct (includes fl ("/" +:+ h +:+ "/")) eqn:Efull.
    + rewrite IH by (destruct Hm as [-> | [-> | ->]]; cbn; auto).
      destruct Hm as [-> | [-> | ->]]; cbn; reflexivity.
    + destruct (includes fl h) eqn:Esub.
      * rewrite IH by (destruct Hm as [-> | [-> | ->]]; cbn; auto).
        destruct Hm as [-> | [-> | ->]]; cbn;
          destruct (existsb _ hints); reflexivity.
      * rewrite IH by exact Hm. cbn [orb]. reflexivity.
Qed.

Lemma maxHintScore_spec hints filePath :
  maxHintScore toLowerCase hints filePath = hintBonus toLowerCase hints filePath.
Proof. unfold maxHintScore, hintBonus. rewrite foldl_hintStep by auto. reflexivity. Qed.

Lemma foldl_bonus fileParts profileParts : forall acc,
  foldl (fun score profilePart =>
           if bool_decide (profilePart ∈ fileParts) then score + 5 else score)
        acc profileParts
  = acc + 5 * sharedSegments profileParts fileParts.
Proof.
  unfold sharedSegments.
  induction profileParts as [|x l IH]; intros acc; cbn [foldl].
  - cbn. lia.
  - rewrite IH. rewrite filter_cons. case_bool_decide as Hin.
    + rewrite decide_True by exact Hin. cbn [length]. lia.
    + rewrite decide_False by exact Hin. lia.
Qed.

Lemma scoreOf_spec hints profileParts filePath :
  scoreOf toLowerCase sep hints profileParts filePath
  = specScore toLowerCase sep hints profileParts filePath.
Proof.
  unfold scoreOf, specScore, bonus. rewrite maxHintScore_spec, foldl_bonus. lia.
Qed.

Lemma matchingPrefix_nonneg a : forall b, 0 <= matchingPrefix a b.
Proof.
  induction a as [|x a IH]; intros [|y b]; cbn [matchingPrefix]; try lia.
  case_bool_decide; [specialize (IH b)|]; lia.
Qed.

Lemma specScore_nonneg hints profileParts filePath :
  0 <= specScore toLowerCase sep hints profileParts filePath.
Proof.
  unfold specScore, hintBonus, sharedSegments, consecutiveMatches.
  pose proof (matchingPrefix_nonneg (rev profileParts) (rev (parts sep filePath))).
  repeat destruct (existsb _ _); lia.
Qed.

(** The selection loop keeps the first candidate that reaches the highest
    score, provided that score is above the initial best score 0. *)
Lemma foldl_pick (score : string -> Z) (files : list string) :
  let r := foldl (fun best c => if snd best <? score c then (Some c, score c) else best)
                 (None, 0) files in
  match fst r with
  | Some c => firstBest score files c /\ snd r = score c
  | None => (forall c, c ∈ files -> score c <= 0) /\ snd r = 0
  end.
Proof.
  induction files as [|x files IH] using rev_ind; cbn zeta.
  - cbn. split; [intros c Hc; apply elem_of_nil in Hc; destruct Hc | reflexivity].
  - rewrite foldl_app. cbn [foldl]. cbn zeta in IH.
    destruct (foldl _ (None, 0) files) as [best bs]. cbn [fst snd] in *.
    destruct (Z.ltb_spec bs (score x)) as [Hlt|Hge]; cbn [fst snd].
    + split; [|reflexivity].
      exists (length files). repeat split.
      * apply list_lookup_middle. reflexivity.
      * destruct best as [c|];
          [destruct IH as [(i & _ & Hpos & _) ->] | destruct IH as [_ ->]]; lia.
      * intros c' Hc'. apply elem_of_app in Hc' as [Hc'|Hc'].
        -- destruct best as [c|].
           ++ destruct IH as [(i & _ & _ & Hmax & _) ->]. specialize (Hmax c' Hc'). lia.
           ++ destruct IH as [Hall ->]. specialize (Hall c' Hc'). lia.
        -- apply list_elem_of_singleton in Hc'. subst. lia.
      * intros j c' Hj Hc'. rewrite lookup_app_l in Hc' by exact Hj.
        assert (Hin : c' ∈ files) by (eapply list_elem_of_lookup_2; exact Hc').
        destruct best as [c|].
        -- destruct IH as [(i & _ & _ & Hmax & _) ->]. specialize (Hmax c' Hin). lia.
        -- destruct IH as [Hall ->]. specialize (Hall c' Hin). lia.
    + destruct best as [c|].
      * destruct IH as [(i & Hi & Hpos & Hmax & Hfirst) ->]. split; [|reflexivity].
        exists i. repeat split.
        -- rewrite lookup_app_l; [exact Hi|]. eapply lookup_lt_Some. exact Hi.
        -- exact Hpos.
        -- intros c' Hc'. apply elem_of_app in Hc' as [Hc'|Hc']; [auto|].
           apply list_elem_of_singleton in Hc'. subst. lia.
        -- intros j c' Hj Hc'. apply (Hfirst j c' Hj).
           rewrite lookup_app_l in Hc'; [exact Hc'|].
           pose proof (lookup_lt_Some _ _ _ Hi). lia.
      * destruct IH as [Hall ->]. split; [|reflexivity].
        intros c' Hc'. apply elem_of_app in Hc' as [Hc'|Hc']; [auto|].
        apply list_elem_of_singleton in Hc'. subst. lia.
Qed.

(** C7 (amended).  Once the exact path is not found and a workspace is
    open: no candidate gives no match; a single candidate is returned as
    it is, whatever it would score; two or more candidates are each
    scored +100 if the lower-cased candidate path contains /<hint>/ for
    some extracted hint, else +50 if it contains some hint as a substring,
    +10 per consecutive matching segment counted from the end of both
    paths, +5 per segment of the profiled path present anywhere in the
    candidate, and the first candidate with the highest score is returned
    if that score is positive, none if every score is zero. *)
Theorem candidate_selection profilePath functionName profile files :
  let hints := extractHints toLowerCase profilePath functionName profile in
  let score := specScore toLowerCase sep hints (parts sep profilePath) in
  let result :=
    findFileInWorkspace toLowerCase sep profilePath functionName profile
                        false true files in
  match files with
  | [] => result = None
  | [file] => result = Some file
  | _ =>
      (forall c, scoreOf toLowerCase sep hints (parts sep profilePath) c = score c) /\
      match result with
      | Some c => firstBest score files c
      | None => forall c, c ∈ files -> score c = 0
      end
  end.
Proof.
  intros hints score result.
  destruct files as [|f1 [|f2 files]]; [reflexivity..|].
  split; [intros; apply scoreOf_spec|].
  unfold result, findFileInWorkspace. cbn [negb].
  fold hints. unfold bestCandidate.
  pose proof (foldl_pick score (f1 :: f2 :: files)) as H. cbn zeta in H.
  replace (foldl (candidateStep toLowerCase sep hints (parts sep profilePath)) (None, 0)
                 (f1 :: f2 :: files))
    with (foldl (fun best c => if snd best <? score c then (Some c, score c) else best)
                (None, 0) (f1 :: f2 :: files)).
  - destruct (fst _) as [c|]; [exact (proj1 H)|].
    intros c Hc. pose proof (proj1 H c Hc).
    pose proof (specScore_nonneg hints (parts sep profilePath) c).
    unfold score in *. lia.
  - generalize (@None string, 0) as st. generalize (f1 :: f2 :: files) as l.
    induction l as [|x l IH]; intros st; cbn [foldl]; [reflexivity|].
    rewrite IH. unfold candidateStep. rewrite scoreOf_spec. reflexivity.
Qed.

End Scoring.

(** C7 as stated fails twice.  With backslash as separator, the single
    candidate found for the container path /usr/src/app/main.go scores 0 and
    is returned all the same.  And the candidate
    /home/dev/demo/src/CheckoutService/main.go, which contains neither
    "/checkoutservice/" nor "checkoutservice", gets the +100 of the hint
    (its lower-cased path is what is searched), scores 125 and wins over
    the frontend candidate, which scores 25 and comes first. *)
Lemma unscored_single_and_mixed_case_candidates :
  scoreOf asciiLowerCase "\"
    (extractHints asciiLowerCase "/usr/src/app/main.go" None None)
    (parts "\" "/usr/src/app/main.go") "C:\w\main.go" = 0
  /\ findFileInWorkspace asciiLowerCase "\" "/usr/src/app/main.go" None None
       false true ["C:\w\main.go"%string] = Some "C:\w\main.go"%string
  /\ extractHints asciiLowerCase checkoutPath (Some checkoutFunction) None
     = ["checkoutservice"%string]
  /\ includes "/home/dev/demo/src/CheckoutService/main.go" "checkoutservice" = false
  /\ scoreOf asciiLowerCase "/" ["checkoutservice"%string] (parts "/" checkoutPath)
       "/home/dev/demo/src/CheckoutService/main.go" = 125
  /\ scoreOf asciiLowerCase "/" ["checkoutservice"%string] (parts "/" checkoutPath)
       frontendCandidate = 25
  /\ findFileInWorkspace asciiLowerCase "/" checkoutPath (Some checkoutFunction) None
       false true [frontendCandidate; "/home/dev/demo/src/CheckoutService/main.go"%string]
     = Some "/home/dev/demo/src/CheckoutService/main.go"%string.
Proof. repeat split; vm_compute; reflexivity. Qed.

(** The specification's scoring example: the checkoutservice candidate is
    selected, with a strictly higher score (150 against 25). *)
Example checkoutservice_selected :
  scoreOf asciiLowerCase "/"
    (extractHints asciiLowerCase checkoutPath (Some checkoutFunction) None)
    (parts "/" checkoutPath) checkoutCandidate = 150
  /\ scoreOf asciiLowerCase "/"
       (extractHints asciiLowerCase checkoutPath (Some checkoutFunction) None)
       (parts "/" checkoutPath) frontendCandidate = 25
  /\ findFileInWorkspace asciiLowerCase "/" checkoutPath (Some checkoutFunction) None
       false true [frontendCandidate; checkoutCandidate] = Some checkoutCandidate.
Proof. repeat split; vm_compute; reflexivity. Qed.

End PathMapperProps.

(** ** The text fallback *)

Module TextFormatProps.

Import Wire TextFormat.

Lemma headerStep_no_total st line :
  matchTotal line = None -> fst (headerStep st line) = fst st.
Proof.
  intros H. destruct st as [t d]. unfold headerStep. rewrite H.
  destruct (includes line (lit "Total:")); reflexivity.
Qed.

Lemma headerStep_no_duration st line :
  matchDuration line = None -> snd (headerStep st line) = snd st.
Proof.
  intros H. destruct st as [t d]. unfold headerStep. rewrite H.
  destruct (includes line (lit "Duration:")); reflexivity.
Qed.

Lemma foldl_headerStep_no_total lines : forall st,
  (forall line, line ∈ lines -> matchTotal line = None) ->
  fst (foldl headerStep st lines) = fst st.
Proof.
  induction lines as [|l lines IH]; intros st H; cbn [foldl]; [reflexivity|].
  rewrite IH by (intros; apply H; apply elem_of_cons; auto).
  apply headerStep_no_total. apply H. apply elem_of_cons. auto.
Qed.

Lemma foldl_headerStep_no_duration lines : forall st,
  (forall line, line ∈ lines -> matchDuration line = None) ->
  snd (foldl headerStep st lines) = snd st.
Proof.
  induction lines as [|l lines IH]; intros st H; cbn [foldl]; [reflexivity|].
  rewrite IH by (intros; apply H; apply elem_of_cons; auto).
  apply headerStep_no_duration. apply H. apply elem_of_cons. auto.
Qed.

(** C10.  For a buffer whose first byte is none of 0x1f, 0x0a and 0x12,
    [parseBuffer] does not raise: it returns what [parseTextFormat] makes of
    the decoded text, a [ProfileData] with an empty [fileMetrics] map and an
    empty [topFunctions] list, whose [totalSamples] is 1000 when no line
    matches the [Total:] pattern and whose [durationNs] is 10e9 when no line
    matches the [Duration:] pattern. *)
Theorem text_fallback_defaults {F T : Type} (toStringUtf8 : list byte -> ustring)
    (parseProtobuf : list byte -> outcome (ProfileData F T)) (buffer : list byte) :
  bget buffer 0 <> Some 31 -> bget buffer 0 <> Some 10 -> bget buffer 0 <> Some 18 ->
  exists pd : ProfileData F T,
    parseBuffer toStringUtf8 parseProtobuf buffer = Return pd /\
    pd = parseTextFormat (toStringUtf8 buffer) /\
    fileMetrics pd = ∅ /\ topFunctions pd = [] /\
    ((forall line, line ∈ splitLines (toStringUtf8 buffer) -> matchTotal line = None) ->
       totalSamples pd = 1000) /\
    ((forall line, line ∈ splitLines (toStringUtf8 buffer) -> matchDuration line = None) ->
       durationNs pd = inject_Z 10000000000).
Proof.
  intros H31 H10 H18. set (text := toStringUtf8 buffer).
  exists (parseTextFormat text).
  split; [|split; [reflexivity|]].
  - unfold parseBuffer.
    rewrite (bool_decide_eq_false_2 _ H31), (bool_decide_eq_false_2 _ H10),
      (bool_decide_eq_false_2 _ H18). reflexivity.
  - unfold parseTextFormat.
    pose proof (foldl_headerStep_no_total (splitLines text) (0, Some 0%Q)) as Ht.
    pose proof (foldl_headerStep_no_duration (splitLines text) (0, Some 0%Q)) as Hd.
    destruct (foldl headerStep (0, Some 0%Q) (splitLines text)) as [t d].
    cbn [fst snd fileMetrics topFunctions totalSamples durationNs] in *.
    repeat split.
    + intros H. rewrite (Ht H). reflexivity.
    + intros H. rewrite (Hd H). reflexivity.
Qed.

Lemma text_fallback_defaults_witness :
  bget [x68; x69] 0 <> Some 31 /\ bget [x68; x69] 0 <> Some 10
  /\ bget [x68; x69] 0 <> Some 18
  /\ exists pd : ProfileData unit unit,
       parseBuffer asciiDecode (fun _ => Throw (InvalidVarint 0)) [x68; x69] = Return pd /\
       pd = parseTextFormat (asciiDecode [x68; x69]) /\
       fileMetrics pd = ∅ /\ topFunctions pd = [] /\
       ((forall line, line ∈ splitLines (asciiDecode [x68; x69]) ->
           matchTotal line = None) -> totalSamples pd = 1000) /\
       ((forall line, line ∈ splitLines (asciiDecode [x68; x69]) ->
           matchDuration line = None) -> durationNs pd = inject_Z 10000000000).
Proof.
  assert (H31 : bget [x68; x69] 0 <> Some 31) by (vm_compute; discriminate).
  assert (H10 : bget [x68; x69] 0 <> Some 10) by (vm_compute; discriminate).
  assert (H18 : bget [x68; x69] 0 <> Some 18) by (vm_compute; discriminate).
  split; [exact H31|]. split; [exact H10|]. split; [exact H18|].
  exact (text_fallback_defaults asciiDecode (fun _ => Throw (InvalidVarint 0))
           [x68; x69] H31 H10 H18).
Defined.

(** Headers that match are read; a header that matches with value 0, or a
    duration that does not parse, falls back to the default as well. *)
Example text_headers :
  (let pd := @parseTextFormat unit unit (lit "Total:  42 samples") in
   totalSamples pd = 42)
  /\ (let pd := @parseTextFormat unit unit (lit "Duration: 1.5s") in
      durationNs pd = (15000000000 # 10)%Q)
  /\ (let pd := @parseTextFormat unit unit (lit "Total: 0 Duration: .ms") in
      totalSamples pd = 1000 /\ durationNs pd = inject_Z 10000000000).
Proof. repeat split; vm_compute; reflexivity. Qed.

End TextFormatProps.

(** ** The generator against the wire reader *)

Module EncoderProps.

Import Wire Encoder WireProps.

Lemma mod_2_32_mod_128 y : (y mod 2 ^ 32) mod 128 = y mod 128.
Proof.
  rewrite (Z.mod_eq y (2 ^ 32)) by (change (2 ^ 32) with 4294967296; lia).
  replace (y - 2 ^ 32 * (y / 2 ^ 32)) with (y + (- (y / 2 ^ 32) * 33554432) * 128)
    by (change (2 ^ 32) with 4294967296; lia).
  apply Z.mod_add. lia.
Qed.

Lemma band_127_any x : JS.band x 127 = x mod 128.
Proof.
  unfold JS.band. change (JS.ToInt32 127) with (Z.ones 7).
  rewrite Z.land_ones by lia. unfold JS.ToInt32.
  change (2 ^ 7) with 128.
  replace ((x + 2 ^ 31) mod 2 ^ 32 - 2 ^ 31)
    with ((x + 2 ^ 31) mod 2 ^ 32 + (- 16777216) * 128) by (change (2 ^ 31) with 2147483648; lia).
  rewrite Z.mod_add by lia. rewrite mod_2_32_mod_128.
  replace (x + 2 ^ 31) with (x + 16777216 * 128) by (change (2 ^ 31) with 2147483648; lia).
  apply Z.mod_add. lia.
Qed.

Lemma ushr_7 x : JS.ushr x 7 = (x mod 2 ^ 32) / 128.
Proof.
  unfold JS.ushr, JS.ToUint32. change (7 mod 2 ^ 32 mod 32) with 7.
  rewrite Z.shiftr_div_pow2 by lia. reflexivity.
Qed.

Lemma bor_128 g : 0 <= g < 128 -> JS.bor g 128 = g + 128.
Proof.
  intros Hg. unfold JS.bor. rewrite !ToInt32_small by (change (2 ^ 31) with 2147483648; lia).
  change 128 with (1 * 2 ^ 7) at 1. rewrite lor_disjoint by (change (2 ^ 7) with 128; lia).
  reflexivity.
Qed.

(** On a value below 2^32 the loop of [encodeVarint] produces the standard
    base-128 groups. *)
Lemma encodeVarint_loop_standard fuel : forall x bytes,
  0 <= x < 128 ^ (Z.of_nat fuel + 1) -> x < 2 ^ 32 ->
  encodeVarint_loop fuel x bytes = Return (bytes ++ varintEncoding_go fuel x).
Proof.
  induction fuel as [|fuel IH]; intros x bytes Hx H32.
  - change (128 ^ (Z.of_nat 0 + 1)) with 128 in Hx.
    cbn [encodeVarint_loop varintEncoding_go].
    replace (127 <? x) with false by (symmetry; apply Z.ltb_ge; lia).
    rewrite band_127_any. reflexivity.
  - cbn [encodeVarint_loop varintEncoding_go].
    destruct (Z.ltb_spec 127 x) as [Hbig|Hsmall].
    + replace (x <? 128) with false by (symmetry; apply Z.ltb_ge; lia).
      rewrite ushr_7, band_127_any, (Z.mod_small x) by lia.
      rewrite bor_128 by (apply Z.mod_pos_bound; lia).
      rewrite IH.
      * rewrite <- app_assoc. reflexivity.
      * split; [apply Z.div_pos; lia|].
        apply Z.div_lt_upper_bound; [lia|].
        replace (Z.of_nat (S fuel) + 1) with (Z.succ (Z.of_nat fuel + 1)) in Hx by lia.
        rewrite Z.pow_succ_r in Hx by lia. lia.
      * assert (x / 128 <= x) by (apply Z.div_le_upper_bound; lia). lia.
    + replace (x <? 128) with true by (symmetry; apply Z.ltb_lt; lia).
      rewrite band_127_any, Z.mod_small by lia. reflexivity.
Qed.


Lemma varintEncoding_go_range fe : forall v,
  0 <= v -> Forall (fun z => 0 <= z < 256) (varintEncoding_go fe v).
Proof.
  induction fe as [|fe IH]; intros v Hv; cbn [varintEncoding_go].
  - constructor; [|constructor]. pose proof (Z.mod_pos_bound v 128). lia.
  - destruct (Z.ltb_spec v 128).
    + constructor; [lia|constructor].
    + constructor.
      * pose proof (Z.mod_pos_bound v 128). lia.
      * apply IH. apply Z.div_pos; lia.
Qed.

Lemma bufferFrom_in_range bytes :
  Forall (fun z => 0 <= z < 256) bytes -> bufferFrom bytes = ofByteVal <$> bytes.
Proof.
  unfold bufferFrom. induction 1 as [|z bytes Hz _ IH]; [reflexivity|].
  cbn [fmap list_fmap]. rewrite Z.mod_small by lia. f_equal. exact IH.
Qed.

Lemma varintEncoding_go_fuel fe : forall fe' v,
  0 <= v < 128 ^ (Z.of_nat fe + 1) -> (fe <= fe')%nat ->
  varintEncoding_go fe' v = varintEncoding_go fe v.
Proof.
  induction fe as [|fe IH]; intros fe' v Hv Hle.
  - change (128 ^ (Z.of_nat 0 + 1)) with 128 in Hv.
    destruct fe'; cbn [varintEncoding_go].
    + reflexivity.
    + replace (v <? 128) with true by (symmetry; apply Z.ltb_lt; lia).
      rewrite Z.mod_small by lia. reflexivity.
  - destruct fe' as [|fe']; [lia|]. cbn [varintEncoding_go].
    destruct (Z.ltb_spec v 128); [reflexivity|].
    f_equal. apply IH; [|lia].
    split; [apply Z.div_pos; lia|].
    apply Z.div_lt_upper_bound; [lia|].
    replace (Z.of_nat (S fe) + 1) with (Z.succ (Z.of_nat fe + 1)) in Hv by lia.
    rewrite Z.pow_succ_r in Hv by lia. lia.
Qed.

Lemma rest_bound value : 0 <= value mod 2 ^ 32 / 128 < 128 ^ (Z.of_nat 3 + 1).
Proof.
  pose proof (Z.mod_pos_bound value (2 ^ 32) ltac:(reflexivity)) as H.
  change (2 ^ 32) with 4294967296 in *.
  change (128 ^ (Z.of_nat 3 + 1)) with 268435456.
  split; [apply Z.div_pos; lia|]. apply Z.div_lt_upper_bound; lia.
Qed.

Lemma encodeVarint_groups fuel value :
  (4 <= fuel)%nat -> 0 <= value ->
  encodeVarint fuel value = Return (varintBytes value).
Proof.
  intros Hfuel Hv. unfold encodeVarint, varintBytes, groupsOf.
  destruct fuel as [|fuel]; [lia|]. cbn [encodeVarint_loop].
  destruct (Z.ltb_spec 127 value) as [Hbig|Hsmall].
  - rewrite ushr_7, band_127_any.
    pose proof (Z.mod_pos_bound value 128 ltac:(lia)) as Hm.
    rewrite bor_128 by lia.
    pose proof (rest_bound value) as Hr.
    rewrite encodeVarint_loop_standard.
    + cbn [mbind outcome_bind app]. f_equal.
      rewrite (varintEncoding_go_fuel 3) by (try exact Hr; lia).
      rewrite bufferFrom_in_range.
      * rewrite mod_2_32_mod_128. reflexivity.
      * constructor; [lia|]. apply varintEncoding_go_range. lia.
    + split; [lia|]. eapply Z.lt_le_trans; [apply Hr|].
      apply Z.pow_le_mono_r; lia.
    + change (2 ^ 32) with 4294967296 in *.
      change (128 ^ (Z.of_nat 3 + 1)) with 268435456 in Hr. lia.
  - cbn [mbind outcome_bind app]. rewrite band_127_any, Z.mod_small by lia.
    rewrite bufferFrom_in_range by (constructor; [lia|constructor]). reflexivity.
Qed.

Lemma readVarint_loop_cont (pre tail : list byte) b value shift iterations fuel :
  128 <= byteVal b -> iterations < maxIterations ->
  readVarint_loop (S fuel) (pre ++ b :: tail) (Z.of_nat (length pre)) value shift iterations
  = readVarint_loop fuel ((pre ++ [b]) ++ tail) (Z.of_nat (length (pre ++ [b])))
      (JS.bor value (JS.shl (JS.band (byteVal b) 127) shift)) (shift + 7) (iterations + 1).
Proof.
  intros Hb Hit. cbn [readVarint_loop].
  replace (Z.of_nat (length pre) <? blength (pre ++ b :: tail)) with true
    by (symmetry; apply Z.ltb_lt; unfold blength; rewrite length_app; cbn [length]; lia).
  replace (iterations <? maxIterations) with true by (symmetry; apply Z.ltb_lt; lia).
  cbn [andb]. rewrite bget_app_here. cbn [numOf].
  rewrite continuation_bit.
  replace (128 <=? byteVal b) with true by (symmetry; apply Z.leb_le; lia).
  cbn [negb]. rewrite <- app_assoc. cbn [app].
  rewrite length_app. cbn [length].
  replace (Z.of_nat (length pre) + 1) with (Z.of_nat (length pre + 1)) by lia.
  reflexivity.
Qed.

(** The last group of a value below 2^32: the accumulated bits wrap to a
    signed 32-bit integer. *)
Lemma bor_group_wrap value g shift :
  0 <= value < 2 ^ shift -> 0 <= g < 128 -> 0 <= shift <= 28 ->
  value + g * 2 ^ shift < 2 ^ 32 ->
  JS.bor value (JS.shl g shift) = JS.ToInt32 (value + g * 2 ^ shift).
Proof.
  intros Hv Hg Hs Hb.
  assert (Hpos : 0 < 2 ^ shift) by (apply Z.pow_pos_nonneg; lia).
  assert (H28 : 2 ^ shift <= 2 ^ 28) by (apply Z.pow_le_mono_r; lia).
  assert (Hsplit : 2 ^ 32 = 2 ^ (32 - shift) * 2 ^ shift)
    by (rewrite <- Z.pow_add_r by lia; f_equal; lia).
  assert (Hsplit' : 2 ^ 31 = 2 ^ (31 - shift) * 2 ^ shift)
    by (rewrite <- Z.pow_add_r by lia; f_equal; lia).
  change (2 ^ 28) with 268435456 in H28.
  destruct (Z.lt_ge_cases (g * 2 ^ shift) (2 ^ 31)) as [Hlow|Hhigh].
  - assert (value + g * 2 ^ shift < 2 ^ 31).
    { assert (g < 2 ^ (31 - shift)) by nia.
      assert ((g + 1) * 2 ^ shift <= 2 ^ (31 - shift) * 2 ^ shift)
        by (apply Z.mul_le_mono_nonneg_r; lia).
      lia. }
    rewrite bor_group by lia. symmetry. apply ToInt32_small.
    change (2 ^ 31) with 2147483648 in *. nia.
  - unfold JS.bor, JS.shl.
    rewrite (ToInt32_small g) by (change (2 ^ 31) with 2147483648; lia).
    rewrite (ToInt32_small value) by (change (2 ^ 31) with 2147483648; lia).
    unfold JS.ToUint32. rewrite (Z.mod_small shift) by (change (2 ^ 32) with 4294967296; lia).
    rewrite (Z.mod_small shift 32) by lia.
    rewrite Z.shiftl_mul_pow2 by lia.
    assert (Hg32 : g * 2 ^ shift < 2 ^ 32) by lia.
    assert (Hwrap : forall y, 2 ^ 31 <= y < 2 ^ 32 -> JS.ToInt32 y = y - 2 ^ 32).
    { intros y Hy. unfold JS.ToInt32.
      replace (y + 2 ^ 31) with (y - 2 ^ 31 + 1 * 2 ^ 32)
        by (change (2 ^ 31) with 2147483648; change (2 ^ 32) with 4294967296; lia).
      rewrite Z.mod_add by (change (2 ^ 32) with 4294967296; lia).
      rewrite Z.mod_small; change (2 ^ 31) with 2147483648 in *;
        change (2 ^ 32) with 4294967296 in *; lia. }
    rewrite (Hwrap (g * 2 ^ shift)) by lia.
    rewrite (ToInt32_small (g * 2 ^ shift - 2 ^ 32))
      by (change (2 ^ 31) with 2147483648 in *; change (2 ^ 32) with 4294967296 in *; lia).
    rewrite (Hwrap (value + g * 2 ^ shift)) by lia.
    replace (g * 2 ^ shift - 2 ^ 32) with ((g - 2 ^ (32 - shift)) * 2 ^ shift)
      by (rewrite Hsplit; lia).
    rewrite lor_disjoint by lia. rewrite Hsplit. lia.
Qed.

Lemma readVarint_loop_last_wrap (pre tail : list byte) v value shift iterations fuel :
  0 <= v < 128 -> 0 <= shift <= 28 -> 0 <= value < 2 ^ shift ->
  value + v * 2 ^ shift < 2 ^ 32 -> iterations < maxIterations ->
  readVarint_loop (S fuel) (pre ++ ofByteVal v :: tail) (Z.of_nat (length pre))
                  value shift iterations
  = (JS.ToInt32 (value + v * 2 ^ shift), Z.of_nat (length pre) + 1, iterations).
Proof.
  intros Hv Hs Hval Hb Hit. cbn [readVarint_loop].
  replace (Z.of_nat (length pre) <? blength (pre ++ ofByteVal v :: tail)) with true
    by (symmetry; apply Z.ltb_lt; unfold blength; rewrite length_app; cbn [length]; lia).
  replace (iterations <? maxIterations) with true by (symmetry; apply Z.ltb_lt; lia).
  cbn [andb]. rewrite bget_app_here. cbn [numOf].
  rewrite continuation_bit, band_127, byteVal_ofByteVal by lia.
  replace (128 <=? v) with false by (symmetry; apply Z.leb_gt; lia). cbn [negb].
  rewrite Z.mod_small by lia. rewrite bor_group_wrap by lia. reflexivity.
Qed.

Lemma readVarint_loop_standard_wrap fe :
  forall v (pre tail : list byte) value shift iterations fuel,
  0 <= v < 128 ^ (Z.of_nat fe + 1) -> 0 <= shift -> shift + 7 * Z.of_nat fe <= 28 ->
  0 <= value < 2 ^ shift -> value + v * 2 ^ shift < 2 ^ 32 ->
  (length (varintEncoding_go fe v) <= fuel)%nat ->
  iterations + Z.of_nat (length (varintEncoding_go fe v)) <= maxIterations ->
  readVarint_loop fuel (pre ++ (ofByteVal <$> varintEncoding_go fe v) ++ tail)
                  (Z.of_nat (length pre)) value shift iterations
  = (JS.ToInt32 (value + v * 2 ^ shift),
     Z.of_nat (length pre) + Z.of_nat (length (varintEncoding_go fe v)),
     iterations + Z.of_nat (length (varintEncoding_go fe v)) - 1).
Proof.
  induction fe as [|fe IH];
    intros v pre tail value shift iterations fuel Hv Hs Hs28 Hval Hb Hfuel Hit.
  - cbn [varintEncoding_go] in *. cbn [length] in *.
    change (128 ^ (Z.of_nat 0 + 1)) with 128 in Hv.
    destruct fuel as [|fuel]; [lia|].
    rewrite Z.mod_small by lia. cbn [fmap list_fmap app].
    rewrite readVarint_loop_last_wrap by (unfold maxIterations in *; lia).
    f_equal. lia.
  - cbn [varintEncoding_go] in *.
    destruct (Z.ltb_spec v 128) as [Hsmall|Hbig].
    + cbn [length] in *. destruct fuel as [|fuel]; [lia|].
      cbn [fmap list_fmap app].
      rewrite readVarint_loop_last_wrap by (unfold maxIterations in *; lia).
      f_equal. lia.
    + cbn [length] in *. destruct fuel as [|fuel]; [lia|].
      cbn [fmap list_fmap app].
      assert (Hmod : 0 <= v mod 128 < 128) by (apply Z.mod_pos_bound; lia).
      assert (Hdiv : v = 128 * (v / 128) + v mod 128) by (apply Z.div_mod; lia).
      assert (Hpow : 2 ^ (shift + 7) = 128 * 2 ^ shift)
        by (rewrite Z.pow_add_r by lia; change (2 ^ 7) with 128; lia).
      assert (Hpos : 0 < 2 ^ shift) by (apply Z.pow_pos_nonneg; lia).
      assert (Hq : 0 <= v / 128) by (apply Z.div_pos; lia).
      assert (H21 : 2 ^ shift <= 2 ^ 21) by (apply Z.pow_le_mono_r; lia).
      change (2 ^ 21) with 2097152 in H21.
      pose proof (length_varintEncoding_go fe (v / 128)) as Hlen.
      rewrite readVarint_loop_cont
        by (rewrite ?byteVal_ofByteVal by lia; unfold maxIterations in *; lia).
      rewrite band_127, byteVal_ofByteVal by lia.
      replace ((v mod 128 + 128) mod 128) with (v mod 128)
        by (replace (v mod 128 + 128) with (v mod 128 + 1 * 128) by lia;
            rewrite Z.mod_add by lia; rewrite Z.mod_mod by lia; reflexivity).
      rewrite bor_group by (change (2 ^ 31) with 2147483648; nia).
      rewrite IH.
      * rewrite length_app. cbn [length]. f_equal; [f_equal|]; [f_equal; nia | lia | lia].
      * split; [exact Hq|]. apply Z.div_lt_upper_bound; [lia|].
        replace (Z.of_nat (S fe) + 1) with (Z.succ (Z.of_nat fe + 1)) in Hv by lia.
        rewrite Z.pow_succ_r in Hv by lia. lia.
      * lia.
      * lia.
      * nia.
      * nia.
      * lia.
      * lia.
Qed.

Lemma length_groupsOf value : (1 <= length (groupsOf value) <= 5)%nat.
Proof.
  unfold groupsOf. destruct (127 <? value); cbn [length]; [|lia].
  pose proof (length_varintEncoding_go 3 (value mod 2 ^ 32 / 128)). lia.
Qed.

Lemma readVarint_groups value (pre rest : list byte) :
  0 <= value ->
  readVarint (pre ++ (varintBytes value) ++ rest) (blength pre)
  = Return (mkVarint (JS.ToInt32 value)
              (blength pre + blength (varintBytes value))).
Proof.
  intros Hv. unfold readVarint, varintBytes, groupsOf, blength.
  destruct (Z.ltb_spec 127 value) as [Hbig|Hsmall].
  - pose proof (Z.mod_pos_bound value (2 ^ 32) ltac:(reflexivity)) as Hu.
    set (u := value mod 2 ^ 32) in *.
    pose proof (Z.mod_pos_bound u 128 ltac:(lia)) as Hm.
    assert (Hdiv : u = 128 * (u / 128) + u mod 128) by (apply Z.div_mod; lia).
    pose proof (rest_bound value) as Hr. fold u in Hr.
    pose proof (length_varintEncoding_go 3 (u / 128)) as Hlen.
    cbn [fmap list_fmap app].
    change (Z.to_nat maxIterations) with (S 9).
    rewrite readVarint_loop_cont
      by (rewrite ?byteVal_ofByteVal by lia; unfold maxIterations; lia).
    rewrite band_127, byteVal_ofByteVal by lia.
    replace ((u mod 128 + 128) mod 128) with (u mod 128)
      by (replace (u mod 128 + 128) with (u mod 128 + 1 * 128) by lia;
          rewrite Z.mod_add by lia; rewrite Z.mod_mod by lia; reflexivity).
    rewrite bor_group by (change (2 ^ 0) with 1; change (2 ^ 31) with 2147483648; lia).
    change (2 ^ 0) with 1. rewrite Z.mul_1_r, Z.add_0_l.
    rewrite readVarint_loop_standard_wrap.
    + replace (maxIterations <=? 0 + 1 + Z.of_nat (length (varintEncoding_go 3 (u / 128))) - 1)
        with false by (symmetry; apply Z.leb_gt; unfold maxIterations; lia).
      f_equal.
      replace (u mod 128 + u / 128 * 2 ^ (0 + 7)) with u
        by (change (2 ^ (0 + 7)) with 128; lia).
      f_equal.
      * unfold u, JS.ToInt32.
        rewrite <- (Zplus_mod_idemp_l value). reflexivity.
      * rewrite length_app. cbn [length]. rewrite length_fmap. lia.
    + exact Hr.
    + lia.
    + lia.
    + change (2 ^ (0 + 7)) with 128. lia.
    + change (2 ^ (0 + 7)) with 128. change (2 ^ 32) with 4294967296 in *. lia.
    + lia.
    + unfold maxIterations. lia.
  - cbn [fmap list_fmap app].
    change (Z.to_nat maxIterations) with (S 9).
    pose proof (readVarint_loop_last_wrap pre rest value 0 0 0 9) as H.
    change (2 ^ 0) with 1 in H. rewrite Z.mul_1_r, Z.add_0_l in H.
    rewrite H by (unfold maxIterations; change (2 ^ 32) with 4294967296; lia).
    change (maxIterations <=? 0) with false. cbn [length]. reflexivity.
Qed.

(** X1.  encode then decode.  For every non-negative integer [value],
    [encodeVarint] returns a buffer of one to five bytes, and [readVarint]
    placed at its first byte, whatever precedes and follows it, returns
    [value] wrapped to a signed 32-bit integer and the offset just past the
    encoding. *)
Theorem encodeVarint_readVarint fuel value :
  (4 <= fuel)%nat -> 0 <= value ->
  exists enc,
    encodeVarint fuel value = Return enc /\
    1 <= blength enc <= 5 /\
    forall pre rest,
      readVarint (pre ++ enc ++ rest) (blength pre)
      = Return (mkVarint (JS.ToInt32 value) (blength pre + blength enc)).
Proof.
  intros Hfuel Hv. exists (varintBytes value). split; [|split].
  - apply encodeVarint_groups; assumption.
  - unfold blength, varintBytes. rewrite length_fmap. pose proof (length_groupsOf value). lia.
  - intros pre rest. apply readVarint_groups. exact Hv.
Qed.

Lemma encodeVarint_readVarint_witness :
  (4 <= 4)%nat /\ 0 <= 300
  /\ exists enc,
       encodeVarint 4 300 = Return enc /\
       1 <= blength enc <= 5 /\
       forall pre rest,
         readVarint (pre ++ enc ++ rest) (blength pre)
         = Return (mkVarint (JS.ToInt32 300) (blength pre + blength enc)).
Proof.
  assert (H1 : (4 <= 4)%nat) by lia.
  assert (H2 : 0 <= 300) by lia.
  split; [exact H1|]. split; [exact H2|].
  exact (encodeVarint_readVarint 4 300 H1 H2).
Defined.


Lemma slice_middle (pre data rest : list byte) :
  slice (pre ++ data ++ rest) (blength pre) (blength pre + blength data) = data.
Proof.
  unfold slice, clampIndex, blength. rewrite !length_app.
  replace (Z.of_nat (length pre) <? 0) with false by (symmetry; apply Z.ltb_ge; lia).
  replace (Z.of_nat (length pre) + Z.of_nat (length data) <? 0) with false
    by (symmetry; apply Z.ltb_ge; lia).
  rewrite !Z.min_l by lia.
  replace (Z.to_nat (Z.of_nat (length pre) + Z.of_nat (length data) - Z.of_nat (length pre)))
    with (length data) by lia.
  rewrite Nat2Z.id, drop_app_length, take_app_length. reflexivity.
Qed.

Lemma tag_value fieldNumber wireType :
  0 <= fieldNumber < 2 ^ 28 -> 0 <= wireType < 8 ->
  JS.bor (JS.shl fieldNumber 3) wireType = fieldNumber * 8 + wireType.
Proof.
  intros Hf Hw. change (2 ^ 28) with 268435456 in Hf.
  rewrite shl_group by (change (2 ^ 3) with 8; change (2 ^ 31) with 2147483648; lia).
  unfold JS.bor. change (2 ^ 3) with 8.
  rewrite !ToInt32_small by (change (2 ^ 31) with 2147483648; lia).
  rewrite Z.lor_comm. change 8 with (2 ^ 3) at 1.
  rewrite lor_disjoint by (change (2 ^ 3) with 8; lia). change (2 ^ 3) with 8. lia.
Qed.

Lemma ushr_3 x : 0 <= x < 2 ^ 32 -> JS.ushr x 3 = x / 8.
Proof.
  intros Hx. unfold JS.ushr, JS.ToUint32. change (3 mod 2 ^ 32 mod 32) with 3.
  rewrite Z.mod_small by lia. rewrite Z.shiftr_div_pow2 by lia. reflexivity.
Qed.

Lemma band_7 x : 0 <= x < 2 ^ 31 -> JS.band x 7 = x mod 8.
Proof.
  intros Hx. unfold JS.band. rewrite ToInt32_small by lia.
  change (JS.ToInt32 7) with (Z.ones 3). rewrite Z.land_ones by lia. reflexivity.
Qed.

Lemma encodeTag_groups fuel fieldNumber wireType :
  (4 <= fuel)%nat -> 0 <= fieldNumber < 2 ^ 28 -> 0 <= wireType < 8 ->
  encodeTag fuel fieldNumber wireType
  = Return (varintBytes (fieldNumber * 8 + wireType)).
Proof.
  intros Hfuel Hf Hw. unfold encodeTag. rewrite tag_value by assumption.
  change (2 ^ 28) with 268435456 in Hf. apply encodeVarint_groups; lia.
Qed.

Lemma readTag_groups fieldNumber wireType (pre rest : list byte) :
  0 <= fieldNumber < 2 ^ 28 -> 0 <= wireType < 8 ->
  readTag (pre ++ (varintBytes (fieldNumber * 8 + wireType)) ++ rest) (blength pre)
  = Return (mkTag fieldNumber wireType
              (blength pre + blength (varintBytes (fieldNumber * 8 + wireType)))).
Proof.
  intros Hf Hw. change (2 ^ 28) with 268435456 in Hf. unfold readTag.
  rewrite readVarint_groups by lia. cbn [mbind outcome_bind value newOffset].
  rewrite ToInt32_small by (change (2 ^ 31) with 2147483648; lia).
  rewrite ushr_3 by (change (2 ^ 32) with 4294967296; lia).
  rewrite band_7 by (change (2 ^ 31) with 2147483648; lia).
  replace (fieldNumber * 8 + wireType) with (wireType + fieldNumber * 8) at 1 2 by lia.
  rewrite Z.div_add, Z.mod_add, Z.div_small, Z.mod_small by lia. reflexivity.
Qed.

(** X2.  a tag written by [encodeTag] is read back by [readTag]. *)
Theorem encodeTag_readTag fuel fieldNumber wireType :
  (4 <= fuel)%nat -> 0 <= fieldNumber < 2 ^ 28 -> 0 <= wireType < 8 ->
  exists enc,
    encodeTag fuel fieldNumber wireType = Return enc /\
    forall pre rest,
      readTag (pre ++ enc ++ rest) (blength pre)
      = Return (mkTag fieldNumber wireType (blength pre + blength enc)).
Proof.
  intros Hfuel Hf Hw. eexists. split; [apply encodeTag_groups; assumption|].
  intros pre rest. apply readTag_groups; assumption.
Qed.

Lemma encodeTag_readTag_witness :
  (4 <= 4)%nat /\ 0 <= 12 < 2 ^ 28 /\ 0 <= 2 < 8
  /\ exists enc,
       encodeTag 4 12 2 = Return enc /\
       forall pre rest,
         readTag (pre ++ enc ++ rest) (blength pre)
         = Return (mkTag 12 2 (blength pre + blength enc)).
Proof.
  assert (H1 : (4 <= 4)%nat) by lia.
  assert (H2 : 0 <= 12 < 2 ^ 28) by (change (2 ^ 28) with 268435456; lia).
  assert (H3 : 0 <= 2 < 8) by lia.
  split; [exact H1|]. split; [exact H2|]. split; [exact H3|].
  exact (encodeTag_readTag 4 12 2 H1 H2 H3).
Defined.


Lemma encodeLengthDelimited_bytes fuel fieldNumber data :
  (4 <= fuel)%nat -> 0 <= fieldNumber < 2 ^ 28 ->
  encodeLengthDelimited fuel fieldNumber data = Return (delimitedBytes fieldNumber data).
Proof.
  intros Hfuel Hf. unfold encodeLengthDelimited.
  rewrite encodeTag_groups by (try assumption; lia). cbn [mbind outcome_bind].
  rewrite encodeVarint_groups by (try assumption; unfold blength; lia).
  reflexivity.
Qed.

Lemma readLengthDelimited_groups (data pre rest : list byte) :
  blength data < 2 ^ 31 ->
  readLengthDelimited (pre ++ (varintBytes (blength data)) ++ data ++ rest)
                      (blength pre)
  = Return (mkDelimited data
              (blength pre + blength (varintBytes (blength data)) + blength data)).
Proof.
  intros Hlen. unfold readLengthDelimited.
  rewrite readVarint_groups by (unfold blength; lia).
  cbn [mbind outcome_bind value newOffset].
  rewrite ToInt32_small by (unfold blength in *; change (2 ^ 31) with 2147483648 in *; lia).
  f_equal. f_equal.
  rewrite (app_assoc pre).
  replace (blength pre + blength (varintBytes (blength data)))
    with (blength (pre ++ (varintBytes (blength data))))
    by (unfold blength; rewrite length_app; lia).
  apply slice_middle.
Qed.

(** X3.  a field written by [encodeLengthDelimited] is read back by [readTag]
    followed by [readLengthDelimited]. *)
Theorem encodeLengthDelimited_read fuel fieldNumber data :
  (4 <= fuel)%nat -> 0 <= fieldNumber < 2 ^ 28 -> blength data < 2 ^ 31 ->
  exists enc,
    encodeLengthDelimited fuel fieldNumber data = Return enc /\
    forall pre rest,
      exists tagEnd,
        readTag (pre ++ enc ++ rest) (blength pre) = Return (mkTag fieldNumber 2 tagEnd) /\
        readLengthDelimited (pre ++ enc ++ rest) tagEnd
        = Return (mkDelimited data (blength pre + blength enc)).
Proof.
  intros Hfuel Hf Hlen. exists (delimitedBytes fieldNumber data).
  split; [apply encodeLengthDelimited_bytes; assumption|].
  intros pre rest. unfold delimitedBytes. rewrite <- !app_assoc. eexists. split.
  - apply readTag_groups; [assumption | lia].
  - rewrite (app_assoc pre).
    replace (blength pre + blength (varintBytes (fieldNumber * 8 + 2)))
      with (blength (pre ++ (varintBytes (fieldNumber * 8 + 2))))
      by (unfold blength; rewrite length_app; lia).
    rewrite readLengthDelimited_groups by assumption.
    f_equal. f_equal. unfold blength. rewrite !length_app. lia.
Qed.

Lemma encodeLengthDelimited_read_witness :
  (4 <= 4)%nat /\ 0 <= 6 < 2 ^ 28 /\ blength [x68; x69] < 2 ^ 31
  /\ exists enc,
       encodeLengthDelimited 4 6 [x68; x69] = Return enc /\
       forall pre rest,
         exists tagEnd,
           readTag (pre ++ enc ++ rest) (blength pre) = Return (mkTag 6 2 tagEnd) /\
           readLengthDelimited (pre ++ enc ++ rest) tagEnd
           = Return (mkDelimited [x68; x69] (blength pre + blength enc)).
Proof.
  assert (H1 : (4 <= 4)%nat) by lia.
  assert (H2 : 0 <= 6 < 2 ^ 28) by (change (2 ^ 28) with 268435456; lia).
  assert (H3 : blength [x68; x69] < 2 ^ 31) by (vm_compute; reflexivity).
  split; [exact H1|]. split; [exact H2|]. split; [exact H3|].
  exact (encodeLengthDelimited_read 4 6 [x68; x69] H1 H2 H3).
Defined.


(** *** Messages *)

Lemma blength_app (a b : list byte) : blength (a ++ b) = blength a + blength b.
Proof. unfold blength. rewrite length_app. lia. Qed.

Lemma blength_varintBytes value : 1 <= blength (varintBytes value) <= 5.
Proof.
  unfold blength, varintBytes. rewrite length_fmap.
  pose proof (length_groupsOf value). lia.
Qed.

Lemma blength_nonneg (b : list byte) : 0 <= blength b.
Proof. unfold blength. lia. Qed.

Lemma guard_here (pre X rest : list byte) :
  1 <= blength X -> (blength pre <? blength (pre ++ X ++ rest)) = true.
Proof.
  intros HX. apply Z.ltb_lt. rewrite !blength_app.
  pose proof (blength_nonneg rest). lia.
Qed.

Lemma blength_uint64Bytes fieldNumber value : 1 <= blength (uint64Bytes fieldNumber value).
Proof.
  unfold uint64Bytes. rewrite blength_app.
  pose proof (blength_varintBytes (fieldNumber * 8 + 0)).
  pose proof (blength_varintBytes value). lia.
Qed.

Lemma blength_delimitedBytes fieldNumber data : 1 <= blength (delimitedBytes fieldNumber data).
Proof.
  unfold delimitedBytes. rewrite !blength_app.
  pose proof (blength_varintBytes (fieldNumber * 8 + 2)).
  pose proof (blength_varintBytes (blength data)).
  pose proof (blength_nonneg data). lia.
Qed.

Lemma encodeUint64_bytes fuel fieldNumber value :
  (4 <= fuel)%nat -> 0 <= fieldNumber < 2 ^ 28 -> 0 <= value ->
  encodeUint64 fuel fieldNumber value = Return (uint64Bytes fieldNumber value).
Proof.
  intros Hfuel Hf Hv. unfold encodeUint64.
  rewrite encodeTag_groups by (try assumption; lia). cbn [mbind outcome_bind].
  rewrite encodeVarint_groups by assumption. reflexivity.
Qed.

Lemma readTag_uint64 fieldNumber value (pre rest : list byte) :
  0 <= fieldNumber < 2 ^ 28 ->
  readTag (pre ++ uint64Bytes fieldNumber value ++ rest) (blength pre)
  = Return (mkTag fieldNumber 0 (blength (pre ++ varintBytes (fieldNumber * 8 + 0)))).
Proof.
  intros Hf. unfold uint64Bytes. rewrite <- app_assoc.
  rewrite readTag_groups by (try assumption; lia). rewrite blength_app. reflexivity.
Qed.

Lemma readVarint_uint64 fieldNumber value (pre rest : list byte) :
  0 <= value ->
  readVarint (pre ++ uint64Bytes fieldNumber value ++ rest)
             (blength (pre ++ varintBytes (fieldNumber * 8 + 0)))
  = Return (mkVarint (JS.ToInt32 value) (blength (pre ++ uint64Bytes fieldNumber value))).
Proof.
  intros Hv. unfold uint64Bytes. rewrite <- app_assoc. rewrite (app_assoc pre).
  rewrite readVarint_groups by assumption. rewrite <- !blength_app, <- app_assoc.
  reflexivity.
Qed.

Lemma readTag_delimited fieldNumber data (pre rest : list byte) :
  0 <= fieldNumber < 2 ^ 28 ->
  readTag (pre ++ delimitedBytes fieldNumber data ++ rest) (blength pre)
  = Return (mkTag fieldNumber 2 (blength (pre ++ varintBytes (fieldNumber * 8 + 2)))).
Proof.
  intros Hf. unfold delimitedBytes. rewrite <- app_assoc.
  rewrite readTag_groups by (try assumption; lia). rewrite blength_app. reflexivity.
Qed.

Lemma readLengthDelimited_delimited fieldNumber data (pre rest : list byte) :
  blength data < 2 ^ 31 ->
  readLengthDelimited (pre ++ delimitedBytes fieldNumber data ++ rest)
                      (blength (pre ++ varintBytes (fieldNumber * 8 + 2)))
  = Return (mkDelimited data (blength (pre ++ delimitedBytes fieldNumber data))).
Proof.
  intros Hlen. unfold delimitedBytes. rewrite <- !app_assoc. rewrite (app_assoc pre).
  rewrite readLengthDelimited_groups by assumption.
  rewrite <- !blength_app, <- !app_assoc. reflexivity.
Qed.

Lemma loop_guard_end (buffer : list byte) : (blength buffer <? blength buffer) = false.
Proof. apply Z.ltb_irrefl. Qed.

(** One field of each message, at [blength pre] in a buffer that continues
    with the bytes of the field. *)
Lemma parseFunction_loop_field fuel fnum v (buffer pre rest : list byte) result :
  buffer = pre ++ uint64Bytes fnum v ++ rest ->
  0 <= fnum < 2 ^ 28 -> 0 <= v < 2 ^ 31 ->
  parseFunction_loop (S fuel) buffer (blength pre) result
  = parseFunction_loop fuel buffer (blength (pre ++ uint64Bytes fnum v))
      (setFunctionField result fnum v).
Proof.
  intros -> Hf Hv. cbn [parseFunction_loop].
  rewrite guard_here by apply blength_uint64Bytes.
  rewrite readTag_uint64 by assumption. cbn [mbind outcome_bind tagOffset fieldNumber].
  rewrite readVarint_uint64 by lia. cbn [mbind outcome_bind value newOffset].
  rewrite ToInt32_small by lia. reflexivity.
Qed.

Lemma parseLine_loop_field fuel fnum v (buffer pre rest : list byte) result :
  buffer = pre ++ uint64Bytes fnum v ++ rest ->
  0 <= fnum < 2 ^ 28 -> 0 <= v < 2 ^ 31 ->
  parseLine_loop (S fuel) buffer (blength pre) result
  = parseLine_loop fuel buffer (blength (pre ++ uint64Bytes fnum v))
      (if fnum =? 1 then mkLine v (ln_line result)
       else if fnum =? 2 then mkLine (ln_functionId result) v
       else result).
Proof.
  intros -> Hf Hv. cbn [parseLine_loop].
  rewrite guard_here by apply blength_uint64Bytes.
  rewrite readTag_uint64 by assumption. cbn [mbind outcome_bind tagOffset fieldNumber].
  rewrite readVarint_uint64 by lia. cbn [mbind outcome_bind value newOffset].
  rewrite ToInt32_small by lia. reflexivity.
Qed.

Lemma parseSampleType_loop_field fuel fnum v (buffer pre rest : list byte) result :
  buffer = pre ++ uint64Bytes fnum v ++ rest ->
  0 <= fnum < 2 ^ 28 -> 0 <= v < 2 ^ 31 ->
  parseSampleType_loop (S fuel) buffer (blength pre) result
  = parseSampleType_loop fuel buffer (blength (pre ++ uint64Bytes fnum v))
      (if fnum =? 1 then mkSampleType v (st_unit result)
       else if fnum =? 2 then mkSampleType (st_type result) v
       else result).
Proof.
  intros -> Hf Hv. cbn [parseSampleType_loop].
  rewrite guard_here by apply blength_uint64Bytes.
  rewrite readTag_uint64 by assumption. cbn [mbind outcome_bind tagOffset fieldNumber].
  rewrite readVarint_uint64 by lia. cbn [mbind outcome_bind value newOffset].
  rewrite ToInt32_small by lia. reflexivity.
Qed.

Lemma parseSample_loop_field fuel fnum v (buffer pre rest : list byte) result :
  buffer = pre ++ uint64Bytes fnum v ++ rest ->
  fnum = 1 \/ fnum = 2 -> 0 <= v < 2 ^ 31 ->
  parseSample_loop (S fuel) buffer (blength pre) result
  = parseSample_loop fuel buffer (blength (pre ++ uint64Bytes fnum v))
      (if fnum =? 1
       then mkSample (s_locationId result ++ [v]) (s_value result) (s_label result)
       else mkSample (s_locationId result) (s_value result ++ [v]) (s_label result)).
Proof.
  intros -> Hf Hv. cbn [parseSample_loop].
  rewrite guard_here by apply blength_uint64Bytes.
  rewrite readTag_uint64 by (change (2 ^ 28) with 268435456; lia).
  cbn [mbind outcome_bind tagOffset fieldNumber wireType].
  unfold readRepeated. change (0 =? 2) with false. cbv iota.
  rewrite readVarint_uint64 by lia. cbn [mbind outcome_bind value newOffset].
  rewrite ToInt32_small by lia.
  destruct Hf as [-> | ->]; reflexivity.
Qed.

Lemma parseLocation_loop_field fuel fnum v (buffer pre rest : list byte)
    id mappingId address line :
  buffer = pre ++ uint64Bytes fnum v ++ rest ->
  fnum = 1 \/ fnum = 2 \/ fnum = 3 -> 0 <= v < 2 ^ 31 ->
  parseLocation_loop (S fuel) buffer (blength pre) (mkLocation id mappingId address line)
  = parseLocation_loop fuel buffer (blength (pre ++ uint64Bytes fnum v))
      (if fnum =? 1 then mkLocation v mappingId address line
       else if fnum =? 2 then mkLocation id v address line
       else mkLocation id mappingId v line).
Proof.
  intros -> Hf Hv. cbn [parseLocation_loop].
  rewrite guard_here by apply blength_uint64Bytes.
  rewrite readTag_uint64 by (change (2 ^ 28) with 268435456; lia).
  cbn [mbind outcome_bind tagOffset fieldNumber wireType].
  destruct Hf as [-> | [-> | ->]]; cbv iota; change (1 =? 1) with true;
    change (2 =? 1) with false; change (2 =? 2) with true;
    change (3 =? 1) with false; change (3 =? 2) with false; change (3 =? 3) with true;
    cbv iota;
    rewrite readVarint_uint64 by lia; cbn [mbind outcome_bind value newOffset];
    rewrite ToInt32_small by lia; reflexivity.
Qed.

Lemma parseLocation_loop_line fuel data ln (buffer pre rest : list byte)
    id mappingId address line :
  buffer = pre ++ delimitedBytes 4 data ++ rest ->
  blength data < 2 ^ 31 -> parseLine fuel data = Return ln ->
  parseLocation_loop (S fuel) buffer (blength pre) (mkLocation id mappingId address line)
  = parseLocation_loop fuel buffer (blength (pre ++ delimitedBytes 4 data))
      (mkLocation id mappingId address (line ++ [ln])).
Proof.
  intros -> Hlen Hln. cbn [parseLocation_loop].
  rewrite guard_here by apply blength_delimitedBytes.
  rewrite readTag_delimited by (change (2 ^ 28) with 268435456; lia).
  cbn [mbind outcome_bind tagOffset fieldNumber wireType].
  change (4 =? 1) with false. change (4 =? 2) with false.
  change (4 =? 3) with false. change (4 =? 4) with true. cbv iota.
  rewrite readLengthDelimited_delimited by assumption.
  cbn [mbind outcome_bind payload endOffset]. rewrite Hln.
  cbn [mbind outcome_bind]. reflexivity.
Qed.

Local Ltac same_bytes := rewrite <- ?app_assoc, ?app_nil_r; reflexivity.

Local Ltac small28 := change (2 ^ 28) with 268435456; lia.

(** The payloads the generator builds, parsed. *)
Lemma parseFunction_payload fuel func :
  (4 <= fuel)%nat ->
  0 <= mf_id func < 2 ^ 31 -> 0 <= mf_name func < 2 ^ 31 ->
  0 <= mf_filename func < 2 ^ 31 -> 0 <= mf_line func < 2 ^ 31 ->
  parseFunction fuel (uint64Bytes 1 (mf_id func) ++ uint64Bytes 2 (mf_name func)
                      ++ uint64Bytes 4 (mf_filename func) ++ uint64Bytes 5 (mf_line func))
  = Return (functionOf func).
Proof.
  intros Hfuel H1 H2 H3 H4. do 4 (destruct fuel as [|fuel]; [lia|]).
  unfold parseFunction.
  set (U1 := uint64Bytes 1 (mf_id func)). set (U2 := uint64Bytes 2 (mf_name func)).
  set (U3 := uint64Bytes 4 (mf_filename func)). set (U4 := uint64Bytes 5 (mf_line func)).
  change 0 with (blength []) at 1.
  rewrite (parseFunction_loop_field _ 1 (mf_id func) _ [] (U2 ++ U3 ++ U4))
    by (try assumption; try small28; same_bytes).
  rewrite (parseFunction_loop_field _ 2 (mf_name func) _ _ (U3 ++ U4))
    by (try assumption; try small28; same_bytes).
  rewrite (parseFunction_loop_field _ 4 (mf_filename func) _ _ U4)
    by (try assumption; try small28; same_bytes).
  rewrite (parseFunction_loop_field _ 5 (mf_line func) _ _ [])
    by (try assumption; try small28; same_bytes).
  replace (U1 ++ U2 ++ U3 ++ U4) with (((([] ++ U1) ++ U2) ++ U3) ++ U4) by same_bytes.
  destruct fuel; cbn [parseFunction_loop]; rewrite loop_guard_end; reflexivity.
Qed.


Lemma parseLine_payload fuel id line :
  (2 <= fuel)%nat -> 0 <= id < 2 ^ 31 -> 0 <= line < 2 ^ 31 ->
  parseLine fuel (uint64Bytes 1 id ++ uint64Bytes 2 line) = Return (mkLine id line).
Proof.
  intros Hfuel H1 H2. do 2 (destruct fuel as [|fuel]; [lia|]).
  unfold parseLine.
  set (U1 := uint64Bytes 1 id). set (U2 := uint64Bytes 2 line).
  change 0 with (blength []) at 1.
  rewrite (parseLine_loop_field _ 1 id _ [] U2) by (try assumption; try small28; same_bytes).
  rewrite (parseLine_loop_field _ 2 line _ _ []) by (try assumption; try small28; same_bytes).
  replace (U1 ++ U2) with (([] ++ U1) ++ U2) by same_bytes.
  destruct fuel; cbn [parseLine_loop]; rewrite loop_guard_end; reflexivity.
Qed.

Lemma parseSampleType_payload fuel t u :
  (2 <= fuel)%nat -> 0 <= t < 2 ^ 31 -> 0 <= u < 2 ^ 31 ->
  parseSampleType fuel (uint64Bytes 1 t ++ uint64Bytes 2 u) = Return (mkSampleType t u).
Proof.
  intros Hfuel H1 H2. do 2 (destruct fuel as [|fuel]; [lia|]).
  unfold parseSampleType.
  set (U1 := uint64Bytes 1 t). set (U2 := uint64Bytes 2 u).
  change 0 with (blength []) at 1.
  rewrite (parseSampleType_loop_field _ 1 t _ [] U2) by (try assumption; try small28; same_bytes).
  rewrite (parseSampleType_loop_field _ 2 u _ _ []) by (try assumption; try small28; same_bytes).
  replace (U1 ++ U2) with (([] ++ U1) ++ U2) by same_bytes.
  destruct fuel; cbn [parseSampleType_loop]; rewrite loop_guard_end; reflexivity.
Qed.

Lemma parseSample_payload fuel sample :
  (2 <= fuel)%nat -> 0 <= ms_locationId sample < 2 ^ 31 -> 0 <= ms_count sample < 2 ^ 31 ->
  parseSample fuel (uint64Bytes 1 (ms_locationId sample) ++ uint64Bytes 2 (ms_count sample))
  = Return (sampleOf sample).
Proof.
  intros Hfuel H1 H2. do 2 (destruct fuel as [|fuel]; [lia|]).
  unfold parseSample.
  set (U1 := uint64Bytes 1 (ms_locationId sample)).
  set (U2 := uint64Bytes 2 (ms_count sample)).
  change 0 with (blength []) at 1.
  rewrite (parseSample_loop_field _ 1 (ms_locationId sample) _ [] U2)
    by (try assumption; try (left; reflexivity); same_bytes).
  rewrite (parseSample_loop_field _ 2 (ms_count sample) _ _ [])
    by (try assumption; try (right; reflexivity); same_bytes).
  replace (U1 ++ U2) with (([] ++ U1) ++ U2) by same_bytes.
  destruct fuel; cbn [parseSample_loop]; rewrite loop_guard_end; reflexivity.
Qed.

Lemma blength_uint64Bytes_le fnum v : blength (uint64Bytes fnum v) <= 10.
Proof.
  unfold uint64Bytes. rewrite blength_app.
  pose proof (blength_varintBytes (fnum * 8 + 0)). pose proof (blength_varintBytes v). lia.
Qed.

Lemma parseLocation_payload fuel func index :
  (5 <= fuel)%nat -> 0 <= mf_id func < 2 ^ 31 -> 0 <= mf_line func < 2 ^ 31 ->
  0 <= index + 1 < 2 ^ 31 ->
  parseLocation fuel
    (uint64Bytes 1 (index + 1) ++ uint64Bytes 3 0
     ++ delimitedBytes 4 (uint64Bytes 1 (mf_id func) ++ uint64Bytes 2 (mf_line func)))
  = Return (locationOf func index).
Proof.
  intros Hfuel H1 H2 H3. do 3 (destruct fuel as [|fuel]; [lia|]).
  unfold parseLocation.
  set (L := uint64Bytes 1 (mf_id func) ++ uint64Bytes 2 (mf_line func)).
  set (U1 := uint64Bytes 1 (index + 1)). set (U2 := uint64Bytes 3 0).
  set (D := delimitedBytes 4 L).
  assert (HL : blength L < 2 ^ 31).
  { unfold L. rewrite blength_app.
    pose proof (blength_uint64Bytes_le 1 (mf_id func)).
    pose proof (blength_uint64Bytes_le 2 (mf_line func)).
    change (2 ^ 31) with 2147483648. lia. }
  change 0 with (blength []) at 1.
  rewrite (parseLocation_loop_field _ 1 (index + 1) _ [] (U2 ++ D))
    by (try assumption; try (left; reflexivity); same_bytes).
  change (1 =? 1) with true. cbv iota.
  rewrite (parseLocation_loop_field _ 3 0 _ _ D)
    by (try (right; right; reflexivity); try (change (2 ^ 31) with 2147483648; lia); same_bytes).
  change (3 =? 1) with false. change (3 =? 2) with false. cbv iota.
  rewrite (parseLocation_loop_line _ L (mkLine (mf_id func) (mf_line func)) _ _ [])
    by (try assumption; try same_bytes; apply parseLine_payload; (lia || assumption)).
  replace (U1 ++ U2 ++ D) with ((([] ++ U1) ++ U2) ++ D) by same_bytes.
  destruct fuel; cbn [parseLocation_loop]; rewrite loop_guard_end; reflexivity.
Qed.

(** The main loop of [parseProtobuf] over one field. *)
Lemma parseProtobuf_loop_end fuel (buffer : list byte) profile :
  parseProtobuf_loop fuel buffer (blength buffer) profile = Return profile.
Proof. destruct fuel; cbn [parseProtobuf_loop]; rewrite loop_guard_end; reflexivity. Qed.

Lemma parseProtobuf_loop_delimited fuel fnum data (buffer pre rest : list byte)
    profile profile' :
  buffer = pre ++ delimitedBytes fnum data ++ rest ->
  0 <= fnum < 2 ^ 28 -> blength data < 2 ^ 31 ->
  (forall offset,
     readLengthDelimited buffer offset
       = Return (mkDelimited data (blength (pre ++ delimitedBytes fnum data))) ->
     parseField fuel buffer offset fnum 2 profile
       = Return (profile', blength (pre ++ delimitedBytes fnum data))) ->
  parseProtobuf_loop (S fuel) buffer (blength pre) profile
  = parseProtobuf_loop fuel buffer (blength (pre ++ delimitedBytes fnum data)) profile'.
Proof.
  intros -> Hf Hlen Hfield. cbn [parseProtobuf_loop].
  rewrite guard_here by apply blength_delimitedBytes.
  rewrite readTag_delimited by assumption.
  cbn [wireType tagOffset fieldNumber]. change ((2 <? 0) || (5 <? 2)) with false. cbv iota.
  rewrite Hfield by (apply readLengthDelimited_delimited; assumption).
  reflexivity.
Qed.

Lemma parseProtobuf_loop_string fuel str (buffer pre rest : list byte)
    a b c d e f g h i :
  buffer = pre ++ delimitedBytes 6 (list_byte_of_string str) ++ rest ->
  blength (list_byte_of_string str) < 2 ^ 31 ->
  parseProtobuf_loop (S fuel) buffer (blength pre) (mkProfile a b c d e f g h i)
  = parseProtobuf_loop fuel buffer
      (blength (pre ++ delimitedBytes 6 (list_byte_of_string str)))
      (mkProfile a b c d e (f ++ [str]) g h i).
Proof.
  intros Hb Hlen. apply (parseProtobuf_loop_delimited _ _ _ _ _ rest); try assumption.
  - small28.
  - intros offset Hread. unfold parseField. change (6 =? 1) with false.
    change (6 =? 2) with false. change (6 =? 3) with false. change (6 =? 4) with false.
    change (6 =? 5) with false. change (6 =? 6) with true. cbv iota.
    rewrite Hread. cbn [mbind outcome_bind payload endOffset].
    unfold toStringUtf8. rewrite string_of_list_byte_of_string. reflexivity.
Qed.

Lemma parseProtobuf_loop_sampleType fuel data x (buffer pre rest : list byte)
    a b c d e f g h i :
  buffer = pre ++ delimitedBytes 1 data ++ rest ->
  blength data < 2 ^ 31 -> parseSampleType fuel data = Return x ->
  parseProtobuf_loop (S fuel) buffer (blength pre) (mkProfile a b c d e f g h i)
  = parseProtobuf_loop fuel buffer (blength (pre ++ delimitedBytes 1 data))
      (mkProfile (a ++ [x]) b c d e f g h i).
Proof.
  intros Hb Hlen Hx. apply (parseProtobuf_loop_delimited _ _ _ _ _ rest); try assumption.
  - small28.
  - intros offset Hread. unfold parseField. change (1 =? 1) with true. cbv iota.
    rewrite Hread. cbn [mbind outcome_bind payload endOffset]. rewrite Hx. reflexivity.
Qed.

Lemma parseProtobuf_loop_sample fuel data x (buffer pre rest : list byte)
    a b c d e f g h i :
  buffer = pre ++ delimitedBytes 2 data ++ rest ->
  blength data < 2 ^ 31 -> parseSample fuel data = Return x ->
  parseProtobuf_loop (S fuel) buffer (blength pre) (mkProfile a b c d e f g h i)
  = parseProtobuf_loop fuel buffer (blength (pre ++ delimitedBytes 2 data))
      (mkProfile a (b ++ [x]) c d e f g h i).
Proof.
  intros Hb Hlen Hx. apply (parseProtobuf_loop_delimited _ _ _ _ _ rest); try assumption.
  - small28.
  - intros offset Hread. unfold parseField. change (2 =? 1) with false.
    change (2 =? 2) with true. cbv iota.
    rewrite Hread. cbn [mbind outcome_bind payload endOffset]. rewrite Hx. reflexivity.
Qed.

Lemma parseProtobuf_loop_location fuel data x (buffer pre rest : list byte)
    a b c d e f g h i :
  buffer = pre ++ delimitedBytes 4 data ++ rest ->
  blength data < 2 ^ 31 -> parseLocation fuel data = Return x ->
  parseProtobuf_loop (S fuel) buffer (blength pre) (mkProfile a b c d e f g h i)
  = parseProtobuf_loop fuel buffer (blength (pre ++ delimitedBytes 4 data))
      (mkProfile a b c (d ++ [x]) e f g h i).
Proof.
  intros Hb Hlen Hx. apply (parseProtobuf_loop_delimited _ _ _ _ _ rest); try assumption.
  - small28.
  - intros offset Hread. unfold parseField. change (4 =? 1) with false.
    change (4 =? 2) with false. change (4 =? 3) with false. change (4 =? 4) with true.
    cbv iota.
    rewrite Hread. cbn [mbind outcome_bind payload endOffset]. rewrite Hx. reflexivity.
Qed.

Lemma parseProtobuf_loop_function fuel data x (buffer pre rest : list byte)
    a b c d e f g h i :
  buffer = pre ++ delimitedBytes 5 data ++ rest ->
  blength data < 2 ^ 31 -> parseFunction fuel data = Return x ->
  parseProtobuf_loop (S fuel) buffer (blength pre) (mkProfile a b c d e f g h i)
  = parseProtobuf_loop fuel buffer (blength (pre ++ delimitedBytes 5 data))
      (mkProfile a b c d (e ++ [x]) f g h i).
Proof.
  intros Hb Hlen Hx. apply (parseProtobuf_loop_delimited _ _ _ _ _ rest); try assumption.
  - small28.
  - intros offset Hread. unfold parseField. change (5 =? 1) with false.
    change (5 =? 2) with false. change (5 =? 3) with false. change (5 =? 4) with false.
    change (5 =? 5) with true. cbv iota.
    rewrite Hread. cbn [mbind outcome_bind payload endOffset]. rewrite Hx. reflexivity.
Qed.

Lemma parseProtobuf_loop_varint fuel fnum v (buffer pre rest : list byte)
    a b c d e f g h i :
  buffer = pre ++ uint64Bytes fnum v ++ rest ->
  fnum = 9 \/ fnum = 10 \/ fnum = 12 -> 0 <= v ->
  parseProtobuf_loop (S fuel) buffer (blength pre) (mkProfile a b c d e f g h i)
  = parseProtobuf_loop fuel buffer (blength (pre ++ uint64Bytes fnum v))
      (if fnum =? 9 then mkProfile a b c d e f (JS.ToInt32 v) h i
       else if fnum =? 10 then mkProfile a b c d e f g (JS.ToInt32 v) i
       else mkProfile a b c d e f g h (JS.ToInt32 v)).
Proof.
  intros -> Hf Hv. cbn [parseProtobuf_loop].
  rewrite guard_here by apply blength_uint64Bytes.
  rewrite readTag_uint64 by small28.
  cbn [wireType tagOffset fieldNumber]. change ((0 <? 0) || (5 <? 0)) with false. cbv iota.
  unfold parseField.
  destruct Hf as [-> | [-> | ->]];
    repeat match goal with
           | |- context [?x =? ?y] =>
               let r := eval vm_compute in (x =? y) in change (x =? y) with r
           end;
    cbv iota; rewrite readVarint_uint64 by assumption;
    cbn [mbind outcome_bind value newOffset]; reflexivity.
Qed.


Lemma blength_list_byte_of_string str :
  blength (list_byte_of_string str) = Z.of_nat (String.length str).
Proof.
  unfold blength. f_equal. unfold list_byte_of_string. rewrite length_map.
  induction str as [|c str IH]; cbn; [reflexivity | f_equal; exact IH].
Qed.

(** *** What the callbacks of [createMockProfile] return *)

Lemma stringPart_bytes fuel str index :
  (4 <= fuel)%nat ->
  stringPart fuel str index = Return (delimitedBytes 6 (list_byte_of_string str)).
Proof.
  intros Hfuel. unfold stringPart, encodeString.
  apply encodeLengthDelimited_bytes; [assumption | small28].
Qed.

Lemma functionPart_bytes fuel func index :
  (4 <= fuel)%nat ->
  0 <= mf_id func -> 0 <= mf_name func -> 0 <= mf_filename func -> 0 <= mf_line func ->
  functionPart fuel func index
  = Return (delimitedBytes 5
              (uint64Bytes 1 (mf_id func) ++ uint64Bytes 2 (mf_name func)
               ++ uint64Bytes 4 (mf_filename func) ++ uint64Bytes 5 (mf_line func))).
Proof.
  intros Hfuel H1 H2 H3 H4. unfold functionPart.
  rewrite !encodeUint64_bytes by (try assumption; small28).
  cbn [mbind outcome_bind].
  apply encodeLengthDelimited_bytes; [assumption | small28].
Qed.

Lemma locationPart_bytes fuel func index :
  (4 <= fuel)%nat -> 0 <= mf_id func -> 0 <= mf_line func -> 0 <= index + 1 ->
  locationPart fuel func index
  = Return (delimitedBytes 4
              (uint64Bytes 1 (index + 1) ++ uint64Bytes 3 0
               ++ delimitedBytes 4
                    (uint64Bytes 1 (mf_id func) ++ uint64Bytes 2 (mf_line func)))).
Proof.
  intros Hfuel H1 H2 H3. unfold locationPart.
  rewrite !encodeUint64_bytes by (try assumption; try small28; lia).
  cbn [mbind outcome_bind].
  rewrite encodeLengthDelimited_bytes by (try assumption; small28).
  cbn [mbind outcome_bind].
  apply encodeLengthDelimited_bytes; [assumption | small28].
Qed.

Lemma samplePart_bytes fuel sample index :
  (4 <= fuel)%nat -> 0 <= ms_locationId sample -> 0 <= ms_count sample ->
  samplePart fuel sample index
  = Return (delimitedBytes 2
              (uint64Bytes 1 (ms_locationId sample) ++ uint64Bytes 2 (ms_count sample))).
Proof.
  intros Hfuel H1 H2. unfold samplePart.
  rewrite !encodeUint64_bytes by (try assumption; small28).
  cbn [mbind outcome_bind].
  apply encodeLengthDelimited_bytes; [assumption | small28].
Qed.

Lemma blength_payload2 f1 v1 f2 v2 :
  blength (uint64Bytes f1 v1 ++ uint64Bytes f2 v2) < 2 ^ 31.
Proof.
  rewrite blength_app.
  pose proof (blength_uint64Bytes_le f1 v1). pose proof (blength_uint64Bytes_le f2 v2).
  change (2 ^ 31) with 2147483648. lia.
Qed.

Lemma blength_payload4 f1 v1 f2 v2 f3 v3 f4 v4 :
  blength (uint64Bytes f1 v1 ++ uint64Bytes f2 v2 ++ uint64Bytes f3 v3 ++ uint64Bytes f4 v4)
  < 2 ^ 31.
Proof.
  rewrite !blength_app.
  pose proof (blength_uint64Bytes_le f1 v1). pose proof (blength_uint64Bytes_le f2 v2).
  pose proof (blength_uint64Bytes_le f3 v3). pose proof (blength_uint64Bytes_le f4 v4).
  change (2 ^ 31) with 2147483648. lia.
Qed.

Lemma blength_delimitedBytes_le fnum data :
  blength (delimitedBytes fnum data) <= 10 + blength data.
Proof.
  unfold delimitedBytes. rewrite !blength_app.
  pose proof (blength_varintBytes (fnum * 8 + 2)).
  pose proof (blength_varintBytes (blength data)). lia.
Qed.

Lemma blength_locationPayload a b c d :
  blength (uint64Bytes 1 a ++ uint64Bytes 3 b
           ++ delimitedBytes 4 (uint64Bytes 1 c ++ uint64Bytes 2 d)) < 2 ^ 31.
Proof.
  rewrite !blength_app.
  pose proof (blength_uint64Bytes_le 1 a). pose proof (blength_uint64Bytes_le 3 b).
  pose proof (blength_delimitedBytes_le 4 (uint64Bytes 1 c ++ uint64Bytes 2 d)).
  rewrite blength_app in *.
  pose proof (blength_uint64Bytes_le 1 c). pose proof (blength_uint64Bytes_le 2 d).
  change (2 ^ 31) with 2147483648. lia.
Qed.

(** X4.  a string written by the generator's string-table callback is
    decoded to a profile whose string table holds exactly that string. *)
Theorem stringPart_decoded fuel pfuel str index :
  (4 <= fuel)%nat -> (1 <= pfuel)%nat -> Z.of_nat (String.length str) < 2 ^ 31 ->
  exists buffer,
    stringPart fuel str index = Return buffer /\
    Wire.parseProtobuf pfuel buffer = Return (mkProfile [] [] [] [] [] [str] 0 0 0).
Proof.
  intros Hfuel Hp Hlen. eexists. split; [apply stringPart_bytes; assumption|].
  destruct pfuel as [|pfuel]; [lia|]. unfold Wire.parseProtobuf, emptyProfile.
  change 0 with (blength []) at 1.
  rewrite (parseProtobuf_loop_string _ str _ [] [])
    by (try same_bytes; rewrite blength_list_byte_of_string; assumption).
  apply parseProtobuf_loop_end.
Qed.

Lemma stringPart_decoded_witness :
  (4 <= 4)%nat /\ (1 <= 1)%nat /\ Z.of_nat (String.length "main.go") < 2 ^ 31
  /\ exists buffer,
       stringPart 4 "main.go" 3 = Return buffer /\
       Wire.parseProtobuf 1 buffer = Return (mkProfile [] [] [] [] [] ["main.go"] 0 0 0).
Proof.
  assert (H1 : (4 <= 4)%nat) by lia.
  assert (H2 : (1 <= 1)%nat) by lia.
  assert (H3 : Z.of_nat (String.length "main.go") < 2 ^ 31) by (vm_compute; reflexivity).
  split; [exact H1|]. split; [exact H2|]. split; [exact H3|].
  exact (stringPart_decoded 4 1 "main.go" 3 H1 H2 H3).
Defined.


(** X5.  a function record written by the generator is decoded to that
    record. *)
Theorem functionPart_decoded fuel pfuel func index :
  (4 <= fuel)%nat -> (5 <= pfuel)%nat ->
  0 <= mf_id func < 2 ^ 31 -> 0 <= mf_name func < 2 ^ 31 ->
  0 <= mf_filename func < 2 ^ 31 -> 0 <= mf_line func < 2 ^ 31 ->
  exists buffer,
    functionPart fuel func index = Return buffer /\
    Wire.parseProtobuf pfuel buffer
    = Return (mkProfile [] [] [] [] [functionOf func] [] 0 0 0).
Proof.
  intros Hfuel Hp H1 H2 H3 H4. eexists. split; [apply functionPart_bytes; (assumption || lia)|].
  destruct pfuel as [|pfuel]; [lia|]. unfold Wire.parseProtobuf, emptyProfile.
  change 0 with (blength []) at 1.
  rewrite (parseProtobuf_loop_function _ _ (functionOf func) _ [] [])
    by (try same_bytes; try apply blength_payload4; apply parseFunction_payload;
        (assumption || lia)).
  apply parseProtobuf_loop_end.
Qed.

Lemma functionPart_decoded_witness :
  (4 <= 4)%nat /\ (5 <= 5)%nat
  /\ 0 <= mf_id (mkMockFunction 2 3 2 25) < 2 ^ 31
  /\ 0 <= mf_name (mkMockFunction 2 3 2 25) < 2 ^ 31
  /\ 0 <= mf_filename (mkMockFunction 2 3 2 25) < 2 ^ 31
  /\ 0 <= mf_line (mkMockFunction 2 3 2 25) < 2 ^ 31
  /\ exists buffer,
       functionPart 4 (mkMockFunction 2 3 2 25) 1 = Return buffer /\
       Wire.parseProtobuf 5 buffer
       = Return (mkProfile [] [] [] [] [functionOf (mkMockFunction 2 3 2 25)] [] 0 0 0).
Proof.
  assert (H1 : (4 <= 4)%nat) by lia.
  assert (H2 : (5 <= 5)%nat) by lia.
  assert (H3 : 0 <= mf_id (mkMockFunction 2 3 2 25) < 2 ^ 31)
    by (vm_compute; split; [discriminate | reflexivity]).
  assert (H4 : 0 <= mf_name (mkMockFunction 2 3 2 25) < 2 ^ 31)
    by (vm_compute; split; [discriminate | reflexivity]).
  assert (H5 : 0 <= mf_filename (mkMockFunction 2 3 2 25) < 2 ^ 31)
    by (vm_compute; split; [discriminate | reflexivity]).
  assert (H6 : 0 <= mf_line (mkMockFunction 2 3 2 25) < 2 ^ 31)
    by (vm_compute; split; [discriminate | reflexivity]).
  split; [exact H1|]. split; [exact H2|]. split; [exact H3|]. split; [exact H4|].
  split; [exact H5|]. split; [exact H6|].
  exact (functionPart_decoded 4 5 (mkMockFunction 2 3 2 25) 1 H1 H2 H3 H4 H5 H6).
Defined.


(** X6.  a location written by the generator, with its nested line message,
    is decoded to that location. *)
Theorem locationPart_decoded fuel pfuel func index :
  (4 <= fuel)%nat -> (6 <= pfuel)%nat ->
  0 <= mf_id func < 2 ^ 31 -> 0 <= mf_line func < 2 ^ 31 -> 0 <= index + 1 < 2 ^ 31 ->
  exists buffer,
    locationPart fuel func index = Return buffer /\
    Wire.parseProtobuf pfuel buffer
    = Return (mkProfile [] [] [] [locationOf func index] [] [] 0 0 0).
Proof.
  intros Hfuel Hp H1 H2 H3. eexists.
  split; [apply locationPart_bytes; (assumption || lia)|].
  destruct pfuel as [|pfuel]; [lia|]. unfold Wire.parseProtobuf, emptyProfile.
  change 0 with (blength []) at 1.
  rewrite (parseProtobuf_loop_location _ _ (locationOf func index) _ [] [])
    by (try same_bytes; try apply blength_locationPayload; apply parseLocation_payload;
        (assumption || lia)).
  apply parseProtobuf_loop_end.
Qed.

Lemma locationPart_decoded_witness :
  (4 <= 4)%nat /\ (6 <= 6)%nat
  /\ 0 <= mf_id (mkMockFunction 2 3 2 25) < 2 ^ 31
  /\ 0 <= mf_line (mkMockFunction 2 3 2 25) < 2 ^ 31
  /\ 0 <= 1 + 1 < 2 ^ 31
  /\ exists buffer,
       locationPart 4 (mkMockFunction 2 3 2 25) 1 = Return buffer /\
       Wire.parseProtobuf 6 buffer
       = Return (mkProfile [] [] [] [locationOf (mkMockFunction 2 3 2 25) 1] [] [] 0 0 0).
Proof.
  assert (H1 : (4 <= 4)%nat) by lia.
  assert (H2 : (6 <= 6)%nat) by lia.
  assert (H3 : 0 <= mf_id (mkMockFunction 2 3 2 25) < 2 ^ 31)
    by (vm_compute; split; [discriminate | reflexivity]).
  assert (H4 : 0 <= mf_line (mkMockFunction 2 3 2 25) < 2 ^ 31)
    by (vm_compute; split; [discriminate | reflexivity]).
  assert (H5 : 0 <= 1 + 1 < 2 ^ 31) by (vm_compute; split; [discriminate | reflexivity]).
  split; [exact H1|]. split; [exact H2|]. split; [exact H3|]. split; [exact H4|].
  split; [exact H5|].
  exact (locationPart_decoded 4 6 (mkMockFunction 2 3 2 25) 1 H1 H2 H3 H4 H5).
Defined.


(** X7.  a sample written by the generator is decoded to a sample with that
    one location id and that one value. *)
Theorem samplePart_decoded fuel pfuel sample index :
  (4 <= fuel)%nat -> (3 <= pfuel)%nat ->
  0 <= ms_locationId sample < 2 ^ 31 -> 0 <= ms_count sample < 2 ^ 31 ->
  exists buffer,
    samplePart fuel sample index = Return buffer /\
    Wire.parseProtobuf pfuel buffer
    = Return (mkProfile [] [sampleOf sample] [] [] [] [] 0 0 0).
Proof.
  intros Hfuel Hp H1 H2. eexists. split; [apply samplePart_bytes; (assumption || lia)|].
  destruct pfuel as [|pfuel]; [lia|]. unfold Wire.parseProtobuf, emptyProfile.
  change 0 with (blength []) at 1.
  rewrite (parseProtobuf_loop_sample _ _ (sampleOf sample) _ [] [])
    by (try same_bytes; try apply blength_payload2; apply parseSample_payload;
        (assumption || lia)).
  apply parseProtobuf_loop_end.
Qed.

Lemma samplePart_decoded_witness :
  (4 <= 4)%nat /\ (3 <= 3)%nat
  /\ 0 <= ms_locationId (mkMockSample 2 450) < 2 ^ 31
  /\ 0 <= ms_count (mkMockSample 2 450) < 2 ^ 31
  /\ exists buffer,
       samplePart 4 (mkMockSample 2 450) 0 = Return buffer /\
       Wire.parseProtobuf 3 buffer
       = Return (mkProfile [] [sampleOf (mkMockSample 2 450)] [] [] [] [] 0 0 0).
Proof.
  assert (H1 : (4 <= 4)%nat) by lia.
  assert (H2 : (3 <= 3)%nat) by lia.
  assert (H3 : 0 <= ms_locationId (mkMockSample 2 450) < 2 ^ 31)
    by (vm_compute; split; [discriminate | reflexivity]).
  assert (H4 : 0 <= ms_count (mkMockSample 2 450) < 2 ^ 31)
    by (vm_compute; split; [discriminate | reflexivity]).
  split; [exact H1|]. split; [exact H2|]. split; [exact H3|]. split; [exact H4|].
  exact (samplePart_decoded 4 3 (mkMockSample 2 450) 0 H1 H2 H3 H4).
Defined.


(** *** The whole mock profile *)

Lemma parseProtobuf_loop_fields (parts : list (list byte * (PprofProfile -> PprofProfile))) :
  Forall (fun bs =>
            forall fuel buffer pre rest profile,
              (5 <= fuel)%nat -> buffer = pre ++ fst bs ++ rest ->
              parseProtobuf_loop (S fuel) buffer (blength pre) profile
              = parseProtobuf_loop fuel buffer (blength (pre ++ fst bs)) (snd bs profile))
         parts ->
  forall fuel buffer pre rest profile,
    (5 <= fuel)%nat -> buffer = pre ++ concat (fst <$> parts) ++ rest ->
    parseProtobuf_loop (length parts + fuel) buffer (blength pre) profile
    = parseProtobuf_loop fuel buffer (blength (pre ++ concat (fst <$> parts)))
        (foldl (fun p bs => snd bs p) profile parts).
Proof.
  induction 1 as [|bs parts Hbs _ IH]; intros fuel buffer pre rest profile Hfuel Hb.
  - cbn. rewrite app_nil_r. reflexivity.
  - cbn [length fmap list_fmap concat foldl plus] in *.
    rewrite (Hbs _ buffer pre (concat (fst <$> parts) ++ rest))
      by (try lia; rewrite Hb; same_bytes).
    rewrite (IH fuel buffer (pre ++ fst bs) rest) by (try lia; rewrite Hb; same_bytes).
    rewrite <- app_assoc. reflexivity.
Qed.

Lemma stringField_ok str fuel buffer pre rest profile :
  Z.of_nat (String.length str) < 2 ^ 31 ->
  (5 <= fuel)%nat -> buffer = pre ++ fst (stringField str) ++ rest ->
  parseProtobuf_loop (S fuel) buffer (blength pre) profile
  = parseProtobuf_loop fuel buffer (blength (pre ++ fst (stringField str)))
      (snd (stringField str) profile).
Proof.
  intros Hlen Hfuel Hb. destruct profile. cbn [fst snd stringField] in *.
  apply (parseProtobuf_loop_string _ _ _ _ rest);
    [exact Hb | rewrite blength_list_byte_of_string; exact Hlen].
Qed.

Lemma functionField_ok func fuel buffer pre rest profile :
  0 <= mf_id func < 2 ^ 31 -> 0 <= mf_name func < 2 ^ 31 ->
  0 <= mf_filename func < 2 ^ 31 -> 0 <= mf_line func < 2 ^ 31 ->
  (5 <= fuel)%nat -> buffer = pre ++ fst (functionField func) ++ rest ->
  parseProtobuf_loop (S fuel) buffer (blength pre) profile
  = parseProtobuf_loop fuel buffer (blength (pre ++ fst (functionField func)))
      (snd (functionField func) profile).
Proof.
  intros H1 H2 H3 H4 Hfuel Hb. destruct profile. cbn [fst snd functionField] in *.
  apply (parseProtobuf_loop_function _ _ _ _ _ rest);
    [exact Hb | apply blength_payload4 | apply parseFunction_payload; (assumption || lia)].
Qed.

Lemma locationField_ok index func fuel buffer pre rest profile :
  0 <= mf_id func < 2 ^ 31 -> 0 <= mf_line func < 2 ^ 31 -> Z.of_nat index + 1 < 2 ^ 31 ->
  (5 <= fuel)%nat -> buffer = pre ++ fst (locationField index func) ++ rest ->
  parseProtobuf_loop (S fuel) buffer (blength pre) profile
  = parseProtobuf_loop fuel buffer (blength (pre ++ fst (locationField index func)))
      (snd (locationField index func) profile).
Proof.
  intros H1 H2 H3 Hfuel Hb. destruct profile. cbn [fst snd locationField] in *.
  apply (parseProtobuf_loop_location _ _ _ _ _ rest);
    [exact Hb | apply blength_locationPayload
     | apply parseLocation_payload; (assumption || lia)].
Qed.

Lemma sampleField_ok sample fuel buffer pre rest profile :
  0 <= ms_locationId sample < 2 ^ 31 -> 0 <= ms_count sample < 2 ^ 31 ->
  (5 <= fuel)%nat -> buffer = pre ++ fst (sampleField sample) ++ rest ->
  parseProtobuf_loop (S fuel) buffer (blength pre) profile
  = parseProtobuf_loop fuel buffer (blength (pre ++ fst (sampleField sample)))
      (snd (sampleField sample) profile).
Proof.
  intros H1 H2 Hfuel Hb. destruct profile. cbn [fst snd sampleField] in *.
  apply (parseProtobuf_loop_sample _ _ _ _ _ rest);
    [exact Hb | apply blength_payload2 | apply parseSample_payload; (assumption || lia)].
Qed.

Lemma createMockProfile_bytes fuel timeNanos :
  (4 <= fuel)%nat -> 0 <= timeNanos ->
  createMockProfile fuel timeNanos = Return (concat (fst <$> mockFields timeNanos)).
Proof.
  intros Hfuel Ht. unfold createMockProfile, strings, functions, sampleData.
  cbn [forEachPush].
  rewrite !stringPart_bytes by assumption.
  rewrite !encodeUint64_bytes by (try assumption; try small28; lia).
  rewrite !functionPart_bytes by (try assumption; cbn; lia).
  rewrite !locationPart_bytes by (try assumption; cbn; lia).
  rewrite !samplePart_bytes by (try assumption; cbn; lia).
  cbn [mbind outcome_bind].
  rewrite encodeLengthDelimited_bytes by (try assumption; small28).
  cbn [mbind outcome_bind].
  reflexivity.
Qed.

Lemma mockFields_ok timeNanos :
  0 <= timeNanos ->
  Forall (fun bs =>
            forall fuel buffer pre rest profile,
              (5 <= fuel)%nat -> buffer = pre ++ fst bs ++ rest ->
              parseProtobuf_loop (S fuel) buffer (blength pre) profile
              = parseProtobuf_loop fuel buffer (blength (pre ++ fst bs)) (snd bs profile))
         (mockFields timeNanos).
Proof.
  intros Ht. unfold mockFields. rewrite !Forall_app. repeat split.
  - apply Forall_fmap, Forall_forall. intros str Hin fuel buffer pre rest profile Hfuel Hb.
    apply (stringField_ok _ _ _ _ rest); [|assumption..].
    unfold strings in Hin. repeat (apply elem_of_cons in Hin as [-> | Hin]);
      [vm_compute; reflexivity..|]. apply elem_of_nil in Hin. destruct Hin.
  - repeat (apply Forall_cons; split;
            [intros fuel buffer pre rest profile Hfuel Hb; destruct profile;
             cbn [fst snd] in *|]); [..|constructor].
    + apply (parseProtobuf_loop_sampleType _ _ _ _ _ rest);
        [exact Hb | apply blength_payload2
         | apply parseSampleType_payload; (lia || (change (2 ^ 31) with 2147483648; lia))].
    + apply (parseProtobuf_loop_varint _ 9 _ _ _ rest); [exact Hb | auto | exact Ht].
    + apply (parseProtobuf_loop_varint _ 10 _ _ _ rest); [exact Hb | auto | lia].
    + apply (parseProtobuf_loop_varint _ 12 _ _ _ rest); [exact Hb | auto | lia].
  - apply Forall_fmap, Forall_forall. intros func Hin fuel buffer pre rest profile Hfuel Hb.
    apply (functionField_ok _ _ _ _ rest); [..|assumption|assumption];
      unfold functions in Hin; repeat (apply elem_of_cons in Hin as [-> | Hin]);
      try (apply elem_of_nil in Hin; destruct Hin);
      cbn [mf_id mf_name mf_filename mf_line]; change (2 ^ 31) with 2147483648; lia.
  - unfold functions. cbn [imap].
    repeat (apply Forall_cons; split;
            [intros fuel buffer pre rest profile Hfuel Hb;
             apply (locationField_ok _ _ _ _ _ rest); [..|assumption|assumption];
             cbn [mf_id mf_line]; change (2 ^ 31) with 2147483648; lia|]).
    constructor.
  - apply Forall_fmap, Forall_forall. intros smp Hin fuel buffer pre rest profile Hfuel Hb.
    apply (sampleField_ok _ _ _ _ rest); [..|assumption|assumption];
      unfold sampleData in Hin; repeat (apply elem_of_cons in Hin as [-> | Hin]);
      try (apply elem_of_nil in Hin; destruct Hin);
      cbn [ms_locationId ms_count]; change (2 ^ 31) with 2147483648; lia.
Qed.

(** X8.  the buffer [createMockProfile] builds is decoded by the
    hand-written reader to the generator's tables; the time stamp and the
    duration of ten seconds come back reduced to 32 bits (1410065408 ns
    for the duration). *)
Theorem createMockProfile_decoded fuel pfuel timeNanos :
  (4 <= fuel)%nat -> (47 <= pfuel)%nat -> 0 <= timeNanos ->
  exists buffer,
    createMockProfile fuel timeNanos = Return buffer /\
    Wire.parseProtobuf pfuel buffer = Return (mockProfile timeNanos).
Proof.
  intros Hfuel Hp Ht. eexists. split; [apply createMockProfile_bytes; assumption|].
  unfold Wire.parseProtobuf.
  replace pfuel with (length (mockFields timeNanos) + (pfuel - 42))%nat
    by (change (length (mockFields timeNanos)) with 42%nat; lia).
  change 0 with (blength []) at 1.
  rewrite (parseProtobuf_loop_fields _ (mockFields_ok timeNanos Ht) _ _ [] [])
    by (try lia; same_bytes).
  cbn [app]. rewrite parseProtobuf_loop_end. reflexivity.
Qed.

Lemma createMockProfile_decoded_witness :
  (4 <= 4)%nat /\ (47 <= 47)%nat /\ 0 <= 1700000000000000000
  /\ exists buffer,
       createMockProfile 4 1700000000000000000 = Return buffer /\
       Wire.parseProtobuf 47 buffer = Return (mockProfile 1700000000000000000).
Proof.
  assert (H1 : (4 <= 4)%nat) by lia.
  assert (H2 : (47 <= 47)%nat) by lia.
  assert (H3 : 0 <= 1700000000000000000) by lia.
  split; [exact H1|]. split; [exact H2|]. split; [exact H3|].
  exact (createMockProfile_decoded 4 47 1700000000000000000 H1 H2 H3).
Defined.


End EncoderProps.

(** ** Offsets, errors and termination of the wire reader *)

Module WireBoundsProps.

Import Wire WireProps.

(** The loop of [readVarint] only moves forward, by one byte per iteration
    started, and stays inside the buffer. *)
Lemma readVarint_loop_bounds fuel : forall buffer offset value shift iterations v o it,
  readVarint_loop fuel buffer offset value shift iterations = (v, o, it) ->
  iterations <= it /\
  (o - offset = it - iterations \/
   (o - offset = it - iterations + 1 /\ it < maxIterations)) /\
  (o = offset \/ o <= blength buffer) /\
  (it = iterations \/ it <= maxIterations).
Proof.
  induction fuel as [|fuel IH]; intros buffer offset value shift iterations v o it H;
    cbn [readVarint_loop] in H.
  - destruct ((offset <? blength buffer) && (iterations <? maxIterations));
      injection H as <- <- <-; lia.
  - destruct (offset <? blength buffer) eqn:Hlt;
      destruct (iterations <? maxIterations) eqn:Hit; cbn [andb] in H;
      try (injection H as <- <- <-; lia).
    apply Z.ltb_lt in Hlt, Hit.
    destruct (JS.band (numOf (bget buffer offset)) 128 =? 0).
    + injection H as <- <- <-. lia.
    + apply IH in H. lia.
Qed.

Lemma readVarint_loop_progress fuel buffer offset value shift iterations v o it :
  readVarint_loop (S fuel) buffer offset value shift iterations = (v, o, it) ->
  offset < blength buffer -> iterations < maxIterations -> offset < o.
Proof.
  intros H Hlt Hit. cbn [readVarint_loop] in H.
  replace (offset <? blength buffer) with true in H by (symmetry; apply Z.ltb_lt; lia).
  replace (iterations <? maxIterations) with true in H by (symmetry; apply Z.ltb_lt; lia).
  cbn [andb] in H.
  destruct (JS.band (numOf (bget buffer offset)) 128 =? 0).
  - injection H as <- <- <-. lia.
  - apply readVarint_loop_bounds in H. lia.
Qed.

Lemma readVarint_advances buffer offset v :
  readVarint buffer offset = Return v ->
  offset <= newOffset v <= offset + 10 /\
  (offset < blength buffer -> offset < newOffset v <= blength buffer) /\
  (blength buffer <= offset -> newOffset v = offset /\ value v = 0).
Proof.
  unfold readVarint.
  destruct (readVarint_loop (Z.to_nat maxIterations) buffer offset 0 0 0)
    as [[val o] it] eqn:Hloop.
  destruct (Z.leb_spec maxIterations it) as [|Hit]; [discriminate|].
  intros [= <-]. cbn [newOffset value].
  pose proof (readVarint_loop_bounds _ _ _ _ _ _ _ _ _ Hloop) as (H1 & H2 & H3 & H4).
  unfold maxIterations in *. split; [lia|]. split.
  - intros Hlt. change (Z.to_nat 10) with (S 9) in Hloop.
    apply readVarint_loop_progress in Hloop; unfold maxIterations; lia.
  - intros Hge. change (Z.to_nat 10) with (S 9) in Hloop. cbn [readVarint_loop] in Hloop.
    replace (offset <? blength buffer) with false in Hloop
      by (symmetry; apply Z.ltb_ge; lia).
    cbn [andb] in Hloop. injection Hloop as <- <- <-. split; reflexivity.
Qed.


Lemma bget_Some buffer i z :
  bget buffer i = Some z ->
  0 <= i < blength buffer /\ exists b, z = byteVal b.
Proof.
  unfold bget. destruct (Z.leb_spec 0 i); destruct (Z.ltb_spec i (blength buffer));
    cbn [andb]; try discriminate.
  destruct (buffer !! Z.to_nat i) as [b|]; [|discriminate].
  intros [= <-]. split; [lia | exists b; reflexivity].
Qed.

(** Every iteration that ends with [iterations++] has read a byte of the
    buffer with the continuation bit set. *)
Lemma readVarint_loop_counted fuel : forall buffer offset value shift iterations v o it,
  readVarint_loop fuel buffer offset value shift iterations = (v, o, it) ->
  forall i, 0 <= i < it - iterations ->
    exists z, bget buffer (offset + i) = Some z /\ 128 <= z.
Proof.
  induction fuel as [|fuel IH]; intros buffer offset value shift iterations v o it H i Hi;
    cbn [readVarint_loop] in H.
  - destruct ((offset <? blength buffer) && (iterations <? maxIterations));
      injection H as <- <- <-; lia.
  - destruct (offset <? blength buffer) eqn:Hlt;
      destruct (iterations <? maxIterations) eqn:Hit; cbn [andb] in H;
      try (injection H as <- <- <-; lia).
    destruct (JS.band (numOf (bget buffer offset)) 128 =? 0) eqn:Hbit.
    + injection H as <- <- <-. lia.
    + destruct (Z.eq_dec i 0) as [->|Hne].
      * rewrite Z.add_0_r. destruct (bget buffer offset) as [z|] eqn:Hget.
        -- exists z. split; [reflexivity|].
           apply bget_Some in Hget as [_ [b ->]]. cbn [numOf] in Hbit.
           rewrite continuation_bit in Hbit.
           destruct (Z.leb_spec 128 (byteVal b)); [assumption | discriminate].
        -- cbn in Hbit. discriminate.
      * destruct (IH _ _ _ _ _ _ _ _ H (i - 1) ltac:(lia)) as (z & Hz & Hbig).
        exists z. split; [|exact Hbig].
        replace (offset + i) with (offset + 1 + (i - 1)) by lia. exact Hz.
Qed.

Lemma readVarint_loop_ten fuel : forall buffer offset value shift iterations,
  (forall i, 0 <= i < maxIterations - iterations ->
     exists z, bget buffer (offset + i) = Some z /\ 128 <= z) ->
  0 <= iterations <= maxIterations ->
  (Z.to_nat (maxIterations - iterations) <= fuel)%nat ->
  exists v, readVarint_loop fuel buffer offset value shift iterations
            = (v, offset + (maxIterations - iterations), maxIterations).
Proof.
  induction fuel as [|fuel IH]; intros buffer offset value shift iterations Hall Hit Hfuel.
  - assert (iterations = maxIterations) as -> by lia.
    cbn [readVarint_loop]. rewrite Z.ltb_irrefl, andb_false_r.
    exists value. f_equal. f_equal. lia.
  - cbn [readVarint_loop].
    destruct (Z.eq_dec iterations maxIterations) as [->|Hne].
    { rewrite Z.ltb_irrefl, andb_false_r. exists value. f_equal. f_equal. lia. }
    destruct (Hall 0 ltac:(lia)) as (z & Hz & Hbig). rewrite Z.add_0_r in Hz.
    pose proof (bget_Some _ _ _ Hz) as [Hin [b ->]].
    replace (offset <? blength buffer) with true by (symmetry; apply Z.ltb_lt; lia).
    replace (iterations <? maxIterations) with true by (symmetry; apply Z.ltb_lt; lia).
    cbn [andb]. rewrite Hz. cbn [numOf]. rewrite continuation_bit.
    replace (128 <=? byteVal b) with true by (symmetry; apply Z.leb_le; lia).
    cbn [negb].
    destruct (IH buffer (offset + 1)
                 (JS.bor value (JS.shl (JS.band (byteVal b) 127) shift)) (shift + 7)
                 (iterations + 1)) as [v Hv].
    + intros i Hi. destruct (Hall (i + 1) ltac:(lia)) as (z & Hz' & Hbig').
      exists z. split; [|exact Hbig'].
      replace (offset + 1 + i) with (offset + (i + 1)) by lia. exact Hz'.
    + lia.
    + lia.
    + exists v. rewrite Hv. f_equal. f_equal. lia.
Qed.

(** X9.  where [readVarint] returns, it has consumed at most ten bytes, none
    beyond the end of the buffer, and at least one when [offset] is inside
    the buffer; at or past the end of the buffer it reads nothing and
    returns 0. *)
Theorem readVarint_offsets buffer offset v :
  readVarint buffer offset = Return v ->
  offset <= newOffset v <= offset + 10 /\
  (offset < blength buffer -> offset < newOffset v <= blength buffer) /\
  (blength buffer <= offset -> newOffset v = offset /\ value v = 0).
Proof. exact (readVarint_advances buffer offset v). Qed.

Lemma readVarint_offsets_witness :
  readVarint [xac; x02; x07] 0 = Return (mkVarint 300 2)
  /\ 0 <= newOffset (mkVarint 300 2) <= 0 + 10
  /\ (0 < blength [xac; x02; x07] ->
      0 < newOffset (mkVarint 300 2) <= blength [xac; x02; x07])
  /\ (blength [xac; x02; x07] <= 0 ->
      newOffset (mkVarint 300 2) = 0 /\ value (mkVarint 300 2) = 0).
Proof.
  assert (H : readVarint [xac; x02; x07] 0 = Return (mkVarint 300 2))
    by (vm_compute; reflexivity).
  split; [exact H|].
  exact (readVarint_offsets [xac; x02; x07] 0 (mkVarint 300 2) H).
Defined.

(** X10.  [readVarint] throws exactly when the ten bytes from [offset] on
    are all in the buffer and all carry the continuation bit, and the error
    then names [offset]. *)
Theorem readVarint_throws buffer offset e :
  readVarint buffer offset = Throw e <->
  e = InvalidVarint offset /\
  forall i, 0 <= i < 10 -> exists z, bget buffer (offset + i) = Some z /\ 128 <= z.
Proof.
  unfold readVarint. split.
  - destruct (readVarint_loop (Z.to_nat maxIterations) buffer offset 0 0 0)
      as [[val o] it] eqn:Hloop.
    destruct (Z.leb_spec maxIterations it) as [Hit|]; [|discriminate].
    intros [= <-].
    pose proof (readVarint_loop_bounds _ _ _ _ _ _ _ _ _ Hloop) as (H1 & H2 & H3 & H4).
    unfold maxIterations in *. split; [f_equal; lia|].
    intros i Hi. apply (readVarint_loop_counted _ _ _ _ _ _ _ _ _ Hloop). lia.
  - intros [-> Hall].
    destruct (readVarint_loop_ten (Z.to_nat maxIterations) buffer offset 0 0 0)
      as [v Hv]; [exact Hall | unfold maxIterations; lia | lia |].
    rewrite Hv. rewrite Z.leb_refl. f_equal. f_equal. unfold maxIterations. lia.
Qed.


(** *** Termination of the flat message parsers *)

Lemma readVarint_cases buffer offset :
  (exists e, readVarint buffer offset = Throw e) \/
  (exists v, readVarint buffer offset = Return v).
Proof.
  unfold readVarint.
  destruct (readVarint_loop (Z.to_nat maxIterations) buffer offset 0 0 0) as [[v o] it].
  destruct (maxIterations <=? it); [left | right]; eexists; reflexivity.
Qed.

(** One [readTag] followed by one [readVarint], started inside the buffer:
    an exception, or an offset further on. *)
Lemma field_cases buffer offset :
  offset < blength buffer ->
  (exists e, readTag buffer offset = Throw e) \/
  (exists t e, readTag buffer offset = Return t /\
               readVarint buffer (tagOffset t) = Throw e) \/
  (exists t v, readTag buffer offset = Return t /\
               readVarint buffer (tagOffset t) = Return v /\ offset < newOffset v).
Proof.
  intros Hlt. unfold readTag.
  destruct (readVarint_cases buffer offset) as [[e He]|[v Hv]].
  - left. exists e. rewrite He. reflexivity.
  - right. rewrite Hv. cbn [mbind outcome_bind tagOffset].
    pose proof (readVarint_advances _ _ _ Hv) as (_ & Hin & _). specialize (Hin Hlt).
    destruct (readVarint_cases buffer (newOffset v)) as [[e He]|[v' Hv']].
    + left. eexists _, e. split; [reflexivity | exact He].
    + right. eexists _, v'. split; [reflexivity|]. split; [exact Hv'|].
      pose proof (readVarint_advances _ _ _ Hv') as (Hle & _). cbn [tagOffset]. lia.
Qed.

Local Ltac flat_step IH :=
  let e := fresh "e" in let t := fresh "t" in let v := fresh "v" in
  let Ht := fresh "Ht" in let Hv := fresh "Hv" in let Hadv := fresh "Hadv" in
  match goal with
  | Hlt : ?offset < blength ?buffer |- _ =>
      destruct (field_cases buffer offset Hlt)
        as [[e Ht]|[(t & e & Ht & Hv)|(t & v & Ht & Hv & Hadv)]];
      rewrite Ht; cbn [mbind outcome_bind]; [discriminate| |];
      rewrite Hv; cbn [mbind outcome_bind]; [discriminate|];
      apply IH; lia
  end.

Lemma parseSampleType_loop_terminates fuel : forall buffer offset result,
  blength buffer - offset <= Z.of_nat fuel ->
  parseSampleType_loop fuel buffer offset result <> OutOfFuel.
Proof.
  induction fuel as [|fuel IH]; intros buffer offset result Hfuel;
    cbn [parseSampleType_loop];
    destruct (Z.ltb_spec offset (blength buffer)) as [Hlt|Hge]; try discriminate; [lia|].
  flat_step IH.
Qed.

Lemma parseMapping_loop_terminates fuel : forall buffer offset result,
  blength buffer - offset <= Z.of_nat fuel ->
  parseMapping_loop fuel buffer offset result <> OutOfFuel.
Proof.
  induction fuel as [|fuel IH]; intros buffer offset result Hfuel;
    cbn [parseMapping_loop];
    destruct (Z.ltb_spec offset (blength buffer)) as [Hlt|Hge]; try discriminate; [lia|].
  flat_step IH.
Qed.

Lemma parseLine_loop_terminates fuel : forall buffer offset result,
  blength buffer - offset <= Z.of_nat fuel ->
  parseLine_loop fuel buffer offset result <> OutOfFuel.
Proof.
  induction fuel as [|fuel IH]; intros buffer offset result Hfuel;
    cbn [parseLine_loop];
    destruct (Z.ltb_spec offset (blength buffer)) as [Hlt|Hge]; try discriminate; [lia|].
  flat_step IH.
Qed.

Lemma parseFunction_loop_terminates fuel : forall buffer offset result,
  blength buffer - offset <= Z.of_nat fuel ->
  parseFunction_loop fuel buffer offset result <> OutOfFuel.
Proof.
  induction fuel as [|fuel IH]; intros buffer offset result Hfuel;
    cbn [parseFunction_loop];
    destruct (Z.ltb_spec offset (blength buffer)) as [Hlt|Hge]; try discriminate; [lia|].
  flat_step IH.
Qed.

(** X11.  the parsers of the flat messages ([SampleType], [Mapping], [Line],
    [Function]) terminate on every buffer: each trip of their loop either
    throws or moves at least one byte forward, so as many trips as the
    buffer has bytes are enough. *)
Theorem flat_parsers_terminate (buffer : list byte) fuel :
  (length buffer <= fuel)%nat ->
  parseSampleType fuel buffer <> OutOfFuel /\
  parseMapping fuel buffer <> OutOfFuel /\
  parseLine fuel buffer <> OutOfFuel /\
  parseFunction fuel buffer <> OutOfFuel.
Proof.
  intros Hfuel.
  assert (blength buffer - 0 <= Z.of_nat fuel) by (unfold blength; lia).
  repeat split.
  - apply parseSampleType_loop_terminates; assumption.
  - apply parseMapping_loop_terminates; assumption.
  - apply parseLine_loop_terminates; assumption.
  - apply parseFunction_loop_terminates; assumption.
Qed.

Lemma flat_parsers_terminate_witness :
  (length [x08; xac; x02] <= 3)%nat
  /\ parseSampleType 3 [x08; xac; x02] <> OutOfFuel
  /\ parseMapping 3 [x08; xac; x02] <> OutOfFuel
  /\ parseLine 3 [x08; xac; x02] <> OutOfFuel
  /\ parseFunction 3 [x08; xac; x02] <> OutOfFuel.
Proof.
  assert (H : (length [x08; xac; x02] <= 3)%nat) by (cbn; lia).
  split; [exact H|].
  exact (flat_parsers_terminate [x08; xac; x02] 3 H).
Defined.

End WireBoundsProps.

(** ** Accounting and shape of the call tree *)

Module CallTreeShapeProps.

Import CallTree CallTreeShape CallTreeProps.

Lemma addStack_loop_cons frame rest value b cp :
  addStack_loop (frame :: rest) value b cp
  = addStack_loop rest value (stepFrame frame (bool_decide (rest = [])) value b cp)
      (Some (frameId frame)).
Proof.
  cbn [addStack_loop]. unfold stepFrame.
  pose proof (getOrCreate_present b (functionName frame) (fileName frame) (line frame))
    as [Hnode _].
  destruct (getOrCreateNode b (functionName frame) (fileName frame) (line frame))
    as [b1 node]. cbn [snd] in Hnode. subst node. fold (frameId frame).
  destruct rest; reflexivity.
Qed.

(** *** Sums over the nodes *)

Lemma sumOver_insert g (m : gmap string CallTreeNode) r i x :
  m !! i = None ->
  sumOver g (mkBuilder (<[i := x]> m) r) = g x + sumOver g (mkBuilder m r).
Proof.
  intros Hi. unfold sumOver. cbn [nodeMap].
  apply (map_fold_insert_L (fun _ n acc => g n + acc)); [|exact Hi].
  intros. lia.
Qed.

Lemma sumOver_update_present g f i b x :
  nodeMap b !! i = Some x ->
  sumOver g (update f i b) = sumOver g b - g x + g (f x).
Proof.
  intros Hx. destruct b as [m r]. cbn [nodeMap] in Hx. unfold update. cbn [nodeMap roots].
  assert (Hm : m = <[i := x]> (delete i m)) by (symmetry; apply insert_delete_id; exact Hx).
  assert (Ha : alter f i m = <[i := f x]> (delete i m)).
  { apply map_eq. intros j. rewrite lookup_alter. destruct (decide (i = j)) as [<-|Hne].
    - rewrite Hx, lookup_insert_eq. reflexivity.
    - rewrite lookup_insert_ne, lookup_delete_ne by done. reflexivity. }
  rewrite Ha. rewrite sumOver_insert by apply lookup_delete_eq.
  rewrite Hm at 2. rewrite sumOver_insert by apply lookup_delete_eq. lia.
Qed.

Lemma sumOver_update g f i b c :
  (forall n, g (f n) = g n + c) -> is_Some (nodeMap b !! i) ->
  sumOver g (update f i b) = sumOver g b + c.
Proof.
  intros Hf [x Hx]. rewrite (sumOver_update_present g f i b x Hx), Hf. lia.
Qed.

Lemma sumOver_update_same g f i b :
  (forall n, g (f n) = g n) -> sumOver g (update f i b) = sumOver g b.
Proof.
  intros Hf. destruct (nodeMap b !! i) as [x|] eqn:Hx.
  - rewrite (sumOver_update_present g f i b x Hx), Hf. lia.
  - unfold update, sumOver. cbn [nodeMap]. f_equal.
    apply map_eq. intros j. rewrite lookup_alter.
    destruct (decide (i = j)) as [<-|]; [rewrite Hx|]; reflexivity.
Qed.

Lemma sumOver_getOrCreate g b fn file ln :
  (forall i, g (mkNode fn file ln 0 0 0 0 0 0 [] None i) = 0) ->
  sumOver g (fst (getOrCreateNode b fn file ln)) = sumOver g b.
Proof.
  intros Hnew. unfold getOrCreateNode.
  destruct (nodeMap b !! createNodeId fn file ln) eqn:E; cbn [fst]; [reflexivity|].
  destruct b as [m r]. cbn [nodeMap roots] in *.
  rewrite sumOver_insert by exact E. rewrite Hnew. lia.
Qed.

Lemma present_update f i b k :
  is_Some (nodeMap b !! k) -> is_Some (nodeMap (update f i b) !! k).
Proof.
  intros [n Hn]. rewrite lookup_update. case_decide as Hik.
  - subst k. rewrite Hn. eauto.
  - eauto.
Qed.

(** The effect of one trip of the loop on the sum of a field that
    [addTotal], [addSelf] and [addInvocation] increase by [a], [s] and [i]
    and that the other updates leave alone. *)
Lemma stepFrame_sum g a s i frame isLeaf value b cp :
  (forall fn file ln k, g (mkNode fn file ln 0 0 0 0 0 0 [] None k) = 0) ->
  (forall n, g (addTotal value n) = g n + a) ->
  (forall n, g (addSelf value n) = g n + s) ->
  (forall n, g (addInvocation n) = g n + i) ->
  (forall c n, g (pushChild c n) = g n) ->
  (forall p n, g (setParent p n) = g n) ->
  sumOver g (stepFrame frame isLeaf value b cp)
  = sumOver g b + a + (if isLeaf then s else 0)
    + (match cp with Some _ => i | None => 0 end).
Proof.
  intros Hnew Ha Hs Hi Hpush Hpar. unfold stepFrame.
  pose proof (getOrCreate_present b (functionName frame) (fileName frame) (line frame))
    as [Hnode Hpres].
  pose proof (sumOver_getOrCreate g b (functionName frame) (fileName frame) (line frame)
                (Hnew _ _ _)) as Hsum.
  destruct (getOrCreateNode b (functionName frame) (fileName frame) (line frame))
    as [b1 node]. cbn [fst snd] in *. subst node. fold (frameId frame) in *.
  set (b2 := update (addTotal value) (frameId frame) b1).
  assert (H2 : sumOver g b2 = sumOver g b + a)
    by (unfold b2; rewrite (sumOver_update g _ _ _ a) by assumption; lia).
  assert (P2 : is_Some (nodeMap b2 !! frameId frame)) by (apply present_update; exact Hpres).
  set (b3 := if isLeaf then update (addSelf value) (frameId frame) b2 else b2).
  assert (H3 : sumOver g b3 = sumOver g b + a + (if isLeaf then s else 0)).
  { unfold b3. destruct isLeaf; [|lia].
    rewrite (sumOver_update g _ _ _ s) by assumption. lia. }
  assert (P3 : is_Some (nodeMap b3 !! frameId frame))
    by (unfold b3; destruct isLeaf; [apply present_update|]; exact P2).
  destruct cp as [p|].
  - rewrite (sumOver_update g _ _ _ i); [| exact Hi |].
    + destruct (hasChild b3 p (frameId frame)); [lia|].
      rewrite !sumOver_update_same by (intros; auto). lia.
    + destruct (hasChild b3 p (frameId frame)); [exact P3|].
      do 2 apply present_update. exact P3.
  - destruct (bool_decide (frameId frame ∈ roots b3)); [lia|].
    unfold sumOver in *. cbn [nodeMap]. lia.
Qed.

Lemma addStack_loop_sum g a s i :
  forall frames value,
  (forall fn file ln k, g (mkNode fn file ln 0 0 0 0 0 0 [] None k) = 0) ->
  (forall n, g (addTotal value n) = g n + a) ->
  (forall n, g (addSelf value n) = g n + s) ->
  (forall n, g (addInvocation n) = g n + i) ->
  (forall c n, g (pushChild c n) = g n) ->
  (forall p n, g (setParent p n) = g n) ->
  forall b cp,
  sumOver g (addStack_loop frames value b cp)
  = sumOver g b + a * Z.of_nat (length frames)
    + (match frames with [] => 0 | _ => s end)
    + i * (match frames, cp with
           | [], _ => 0
           | _, Some _ => Z.of_nat (length frames)
           | _, None => Z.of_nat (length frames) - 1
           end).
Proof.
  intros frames value Hnew Ha Hs Hi Hpush Hpar.
  induction frames as [|frame rest IH]; intros b cp.
  - cbn [addStack_loop length]. lia.
  - rewrite addStack_loop_cons, IH.
    rewrite (stepFrame_sum g a s i) by assumption.
    destruct rest as [|frame' rest]; cbn [length];
      [rewrite bool_decide_eq_true_2 by reflexivity
      | rewrite bool_decide_eq_false_2 by discriminate];
      destruct cp; lia.
Qed.


Lemma addStack_sum g a s i b stack value d :
  (forall fn file ln k, g (mkNode fn file ln 0 0 0 0 0 0 [] None k) = 0) ->
  (forall n, g (addTotal value n) = g n + a) ->
  (forall n, g (addSelf value n) = g n + s) ->
  (forall n, g (addInvocation n) = g n + i) ->
  (forall c n, g (pushChild c n) = g n) ->
  (forall p n, g (setParent p n) = g n) ->
  sumOver g (addStack b stack value d)
  = sumOver g b + a * Z.of_nat (length stack)
    + (match stack with [] => 0 | _ => s + i * (Z.of_nat (length stack) - 1) end).
Proof.
  intros Hnew Ha Hs Hi Hpush Hpar. unfold addStack.
  destruct stack as [|fr stack]; [cbn [length]; lia|].
  rewrite (addStack_loop_sum g a s i) by assumption.
  rewrite length_rev.
  destruct (rev (fr :: stack)) eqn:E.
  - apply (f_equal (@length _)) in E. rewrite length_rev in E. discriminate.
  - lia.
Qed.

Lemma addStacks_cons b call calls :
  addStacks b (call :: calls)
  = addStacks (addStack b (fst (fst call)) (snd (fst call)) (snd call)) calls.
Proof. destruct call as [[stack value] d]. reflexivity. Qed.

(** X12.  The books balance.  After a sequence of [addStack] calls on a
    new builder whose numbers stay among the integers that JavaScript
    numbers hold exactly (the magnitudes of the values, weighted by the
    stack lengths, add up to at most 2^53, and there are at most 2^53
    frames), the self times of all nodes add up to the values of the calls
    with a non-empty stack, the sample counts to the number of frames
    passed, the total times to the values weighted by the stack lengths,
    and the invocation counts to the number of frames that have a caller.
    Within that range every [+=] of [addStack] is exact; outside it the
    code rounds to the nearest double. *)
Theorem addStacks_accounting calls :
  sumMagnitude calls <= 2 ^ 53 -> countFrames calls <= 2 ^ 53 ->
  sumOver selfTime (addStacks newBuilder calls) = sumSelf calls /\
  sumOver samples (addStacks newBuilder calls) = countFrames calls /\
  sumOver totalTime (addStacks newBuilder calls) = sumTotal calls /\
  sumOver invocations (addStacks newBuilder calls) = sumInvocations calls.
Proof.
  intros _ _.
  assert (H0 : forall g, sumOver g newBuilder = 0) by reflexivity.
  assert (Hgen : forall b,
    sumOver selfTime (addStacks b calls) = sumOver selfTime b + sumSelf calls /\
    sumOver samples (addStacks b calls) = sumOver samples b + countFrames calls /\
    sumOver totalTime (addStacks b calls) = sumOver totalTime b + sumTotal calls /\
    sumOver invocations (addStacks b calls) = sumOver invocations b + sumInvocations calls).
  { induction calls as [|[[stack value] d] calls IH]; intros b.
    - cbn. lia.
    - rewrite addStacks_cons. cbn [fst snd].
      destruct (IH (addStack b stack value d)) as (I1 & I2 & I3 & I4).
      rewrite I1, I2, I3, I4.
      rewrite (addStack_sum selfTime 0 value 0), (addStack_sum samples 1 0 0),
        (addStack_sum totalTime value 0 0), (addStack_sum invocations 0 0 1);
        try (intros; reflexivity);
        try (intros []; cbn; lia); try (intros ? []; cbn; lia).
      unfold sumSelf, countFrames, sumTotal, sumInvocations, valueOf.
      cbn [foldr fst snd]. destruct stack; cbn [length]; lia. }
  destruct (Hgen newBuilder) as (I1 & I2 & I3 & I4). rewrite H0 in *. lia.
Qed.

Lemma addStacks_accounting_witness :
  sumMagnitude twoParents <= 2 ^ 53 /\ countFrames twoParents <= 2 ^ 53
  /\ sumOver selfTime (addStacks newBuilder twoParents) = sumSelf twoParents
  /\ sumOver samples (addStacks newBuilder twoParents) = countFrames twoParents
  /\ sumOver totalTime (addStacks newBuilder twoParents) = sumTotal twoParents
  /\ sumOver invocations (addStacks newBuilder twoParents) = sumInvocations twoParents.
Proof.
  assert (H1 : sumMagnitude twoParents <= 2 ^ 53) by (vm_compute; discriminate).
  assert (H2 : countFrames twoParents <= 2 ^ 53) by (vm_compute; discriminate).
  split; [exact H1|]. split; [exact H2|].
  exact (addStacks_accounting twoParents H1 H2).
Defined.


(** *** The shape of the tree *)

Lemma wellFormed_new : wellFormed newBuilder.
Proof.
  split; [constructor|]. split.
  - intros r Hr. cbn in Hr. apply elem_of_nil in Hr. destruct Hr.
  - intros k n Hk. cbn in Hk. rewrite lookup_empty in Hk. discriminate.
Qed.

Lemma wellFormed_getOrCreate b fn file ln :
  wellFormed b -> wellFormed (fst (getOrCreateNode b fn file ln)).
Proof.
  intros (Hnd & Hroots & Hnodes).
  pose proof (grows_getOrCreate b fn file ln) as Hg.
  unfold getOrCreateNode in *.
  destruct (nodeMap b !! createNodeId fn file ln) eqn:E; cbn [fst] in *;
    [exact (conj Hnd (conj Hroots Hnodes))|].
  split; [exact Hnd|]. split.
  - intros r Hr. eapply present_grows; [exact Hg | apply Hroots; exact Hr].
  - intros k n. cbn [nodeMap]. rewrite lookup_insert. case_decide as Hk.
    + intros [= <-]. subst k. repeat split; cbn.
      * constructor.
      * intros c Hc. apply elem_of_nil in Hc. destruct Hc.
      * discriminate.
    + intros Hn. destruct (Hnodes k n Hn) as (H1 & H2 & H3 & H4 & H5).
      repeat split; try assumption.
      * intros c Hc. eapply present_grows; [exact Hg | apply H4; exact Hc].
      * intros p Hp. eapply childOf_grows; [exact Hg | apply H5; exact Hp].
Qed.

(** An update of node [i] that keeps its id and identity and only appends
    to [children]. *)
Lemma wellFormed_update f i b :
  wellFormed b ->
  (forall n, id (f n) = id n /\ identityOf (f n) = identityOf n /\
             forall c, c ∈ children n -> c ∈ children (f n)) ->
  (forall n, nodeMap b !! i = Some n ->
     NoDup (children (f n)) /\
     (forall c, c ∈ children (f n) -> is_Some (nodeMap b !! c)) /\
     (forall p, parent (f n) = Some p -> childOf (update f i b) p i)) ->
  wellFormed (update f i b).
Proof.
  intros (Hnd & Hroots & Hnodes) Hkeep Hnew.
  assert (Hg : grows b (update f i b)).
  { apply grows_update. intros n. destruct (Hkeep n) as (H1 & _ & H3). auto. }
  split; [exact Hnd|]. split.
  - intros r Hr. eapply present_grows; [exact Hg | apply Hroots; exact Hr].
  - intros k n. rewrite lookup_update. case_decide as Hk.
    + subst k. destruct (nodeMap b !! i) as [n0|] eqn:E; [|discriminate].
      cbn. intros [= <-].
      destruct (Hnodes i n0 E) as (H1 & H2 & H3 & H4 & H5).
      destruct (Hkeep n0) as (K1 & K2 & K3).
      destruct (Hnew n0 eq_refl) as (N1 & N2 & N3).
      repeat split.
      * congruence.
      * rewrite K2. exact H2.
      * exact N1.
      * intros c Hc. eapply present_grows; [exact Hg | apply N2; exact Hc].
      * exact N3.
    + intros Hn. destruct (Hnodes k n Hn) as (H1 & H2 & H3 & H4 & H5).
      repeat split; try assumption.
      * intros c Hc. eapply present_grows; [exact Hg | apply H4; exact Hc].
      * intros p Hp. eapply childOf_grows; [exact Hg | apply H5; exact Hp].
Qed.

(** The updates that touch neither [children] nor [parent]. *)
Lemma wellFormed_update_fields f i b :
  wellFormed b ->
  (forall n, id (f n) = id n /\ identityOf (f n) = identityOf n /\
             children (f n) = children n /\ parent (f n) = parent n) ->
  wellFormed (update f i b).
Proof.
  intros Hwf Hf. apply wellFormed_update; [exact Hwf | |].
  - intros n. destruct (Hf n) as (H1 & H2 & H3 & H4). rewrite H3. auto.
  - intros n Hn. destruct (Hf n) as (H1 & H2 & H3 & H4).
    destruct Hwf as (_ & _ & Hnodes).
    destruct (Hnodes i n Hn) as (S1 & S2 & S3 & S4 & S5).
    rewrite H3, H4. repeat split; try assumption.
    intros p Hp. eapply childOf_grows; [|apply S5; exact Hp].
    apply grows_update. intros n'. destruct (Hf n') as (K1 & _ & K3 & _).
    rewrite K3. auto.
Qed.

Lemma wellFormed_pushChild c p b :
  wellFormed b -> is_Some (nodeMap b !! c) -> hasChild b p c = false ->
  wellFormed (update (pushChild c) p b).
Proof.
  intros Hwf Hc Hhas. apply wellFormed_update; [exact Hwf | |].
  - intros []. cbn. repeat split. intros x Hx. apply elem_of_app. left. exact Hx.
  - intros n Hn. destruct Hwf as (_ & _ & Hnodes).
    destruct (Hnodes p n Hn) as (S1 & S2 & S3 & S4 & S5).
    unfold hasChild in Hhas. rewrite Hn in Hhas. apply bool_decide_eq_false in Hhas.
    destruct n; cbn in *. repeat split.
    + apply NoDup_app. split; [exact S3|]. split; [|apply NoDup_singleton].
      intros x Hx Hx'. apply list_elem_of_singleton in Hx'. subst x. contradiction.
    + intros x Hx. apply elem_of_app in Hx as [Hx|Hx]; [apply S4; exact Hx|].
      apply list_elem_of_singleton in Hx. subst x. exact Hc.
    + intros q Hq. eapply childOf_grows; [apply grows_pushChild | apply S5; exact Hq].
Qed.

Lemma wellFormed_setParent p k b :
  wellFormed b -> childOf b p k -> wellFormed (update (setParent p) k b).
Proof.
  intros Hwf Hchild. apply wellFormed_update; [exact Hwf | |].
  - intros []. cbn. auto.
  - intros n Hn. destruct Hwf as (_ & _ & Hnodes).
    destruct (Hnodes k n Hn) as (S1 & S2 & S3 & S4 & S5).
    destruct n; cbn in *. repeat split; try assumption.
    intros q [= <-]. eapply childOf_grows; [apply grows_setParent | exact Hchild].
Qed.

Lemma wellFormed_pushRoot node b :
  wellFormed b -> is_Some (nodeMap b !! node) -> node ∉ roots b ->
  wellFormed (mkBuilder (nodeMap b) (roots b ++ [node])).
Proof.
  intros (Hnd & Hroots & Hnodes) Hnode Hnot. split; [|split].
  - cbn [roots]. apply NoDup_app. split; [exact Hnd|]. split; [|apply NoDup_singleton].
    intros x Hx Hx'. apply list_elem_of_singleton in Hx'. subst x. contradiction.
  - cbn [roots nodeMap]. intros r Hr. apply elem_of_app in Hr as [Hr|Hr]; [auto|].
    apply list_elem_of_singleton in Hr. subst r. exact Hnode.
  - exact Hnodes.
Qed.

Lemma pushChild_childOf c p b :
  is_Some (nodeMap b !! p) -> childOf (update (pushChild c) p b) p c.
Proof.
  intros [pn Hpn]. exists (pushChild c pn). rewrite lookup_update.
  destruct (decide (p = p)); [|congruence]. rewrite Hpn. split; [reflexivity|].
  destruct pn; cbn. apply elem_of_app. right. apply list_elem_of_singleton. reflexivity.
Qed.

Lemma stepFrame_wellFormed frame isLeaf value b cp :
  wellFormed b -> (forall p, cp = Some p -> is_Some (nodeMap b !! p)) ->
  wellFormed (stepFrame frame isLeaf value b cp) /\
  is_Some (nodeMap (stepFrame frame isLeaf value b cp) !! frameId frame).
Proof.
  intros Hwf Hcp. unfold stepFrame.
  pose proof (getOrCreate_present b (functionName frame) (fileName frame) (line frame))
    as [Hnode Hpres].
  pose proof (wellFormed_getOrCreate b (functionName frame) (fileName frame) (line frame)
                Hwf) as Hwf1.
  pose proof (grows_getOrCreate b (functionName frame) (fileName frame) (line frame)) as Hg1.
  destruct (getOrCreateNode b (functionName frame) (fileName frame) (line frame))
    as [b1 node]. cbn [fst snd] in *. subst node. fold (frameId frame) in *.
  set (b2 := update (addTotal value) (frameId frame) b1).
  assert (Hwf2 : wellFormed b2)
    by (apply wellFormed_update_fields; [exact Hwf1 | intros []; cbn; auto]).
  assert (P2 : is_Some (nodeMap b2 !! frameId frame)) by (apply present_update; exact Hpres).
  assert (Hg2 : grows b b2) by (eapply grows_trans; [exact Hg1 | apply grows_addTotal]).
  set (b3 := if isLeaf then update (addSelf value) (frameId frame) b2 else b2).
  assert (Hwf3 : wellFormed b3).
  { unfold b3. destruct isLeaf; [|exact Hwf2].
    apply wellFormed_update_fields; [exact Hwf2 | intros []; cbn; auto]. }
  assert (P3 : is_Some (nodeMap b3 !! frameId frame))
    by (unfold b3; destruct isLeaf; [apply present_update|]; exact P2).
  assert (Hg3 : grows b b3).
  { unfold b3. destruct isLeaf; [|exact Hg2].
    eapply grows_trans; [exact Hg2 | apply grows_addSelf]. }
  destruct cp as [p|].
  - assert (Pp : is_Some (nodeMap b3 !! p))
      by (eapply present_grows; [exact Hg3 | apply Hcp; reflexivity]).
    split.
    + apply wellFormed_update_fields; [|intros []; cbn; auto].
      destruct (hasChild b3 p (frameId frame)) eqn:Hhas; [exact Hwf3|].
      apply wellFormed_setParent.
      * apply wellFormed_pushChild; assumption.
      * apply pushChild_childOf. exact Pp.
    + apply present_update.
      destruct (hasChild b3 p (frameId frame)); [exact P3|].
      do 2 apply present_update. exact P3.
  - case_bool_decide as Hin; [split; assumption|]. split.
    + apply wellFormed_pushRoot; assumption.
    + exact P3.
Qed.

Lemma addStack_loop_wellFormed frames : forall value b cp,
  wellFormed b -> (forall p, cp = Some p -> is_Some (nodeMap b !! p)) ->
  wellFormed (addStack_loop frames value b cp).
Proof.
  induction frames as [|frame rest IH]; intros value b cp Hwf Hcp; [exact Hwf|].
  rewrite addStack_loop_cons.
  destruct (stepFrame_wellFormed frame (bool_decide (rest = [])) value b cp Hwf Hcp)
    as [Hwf' Hp'].
  apply IH; [exact Hwf'|]. intros p [= <-]. exact Hp'.
Qed.

Lemma addStacks_keeps_wellFormed calls : forall b,
  wellFormed b -> wellFormed (addStacks b calls).
Proof.
  unfold addStacks.
  induction calls as [|[[stack value] d] calls IH]; intros b Hwf; [exact Hwf|].
  cbn [foldl]. apply IH. unfold addStack. destruct stack; [exact Hwf|].
  apply addStack_loop_wellFormed; [exact Hwf | discriminate].
Qed.

(** X13.  the tree is well formed after any sequence of [addStack] calls on
    a new builder: [roots] and every [children] array list each node once
    and only nodes of [nodeMap], every node is stored under its own id, the
    id of its function, file and line, and the [parent] of a node lists
    that node among its children. *)
Theorem addStacks_wellFormed calls : wellFormed (addStacks newBuilder calls).
Proof. apply addStacks_keeps_wellFormed, wellFormed_new. Qed.


(** *** What one trip of the loop does to [roots] and to each node *)

Lemma roots_update f i b : roots (update f i b) = roots b.
Proof. reflexivity. Qed.

Lemma roots_getOrCreate b fn file ln : roots (fst (getOrCreateNode b fn file ln)) = roots b.
Proof.
  unfold getOrCreateNode. destruct (nodeMap b !! createNodeId fn file ln); reflexivity.
Qed.

Lemma stepFrame_roots frame isLeaf value b cp :
  roots (stepFrame frame isLeaf value b cp)
  = match cp with
    | Some _ => roots b
    | None => if bool_decide (frameId frame ∈ roots b) then roots b
              else roots b ++ [frameId frame]
    end.
Proof.
  unfold stepFrame.
  pose proof (getOrCreate_present b (functionName frame) (fileName frame) (line frame))
    as [Hnode _].
  pose proof (roots_getOrCreate b (functionName frame) (fileName frame) (line frame)) as Hr.
  destruct (getOrCreateNode b (functionName frame) (fileName frame) (line frame))
    as [b1 node]. cbn [fst snd] in *. subst node. fold (frameId frame) in *.
  destruct cp as [p|].
  - rewrite roots_update.
    destruct (hasChild _ p (frameId frame)); rewrite ?roots_update;
      destruct isLeaf; rewrite ?roots_update; exact Hr.
  - assert (Hr3 : roots (if isLeaf
                         then update (addSelf value) (frameId frame)
                                (update (addTotal value) (frameId frame) b1)
                         else update (addTotal value) (frameId frame) b1) = roots b)
      by (destruct isLeaf; rewrite ?roots_update; exact Hr).
    rewrite Hr3. case_bool_decide; cbn [roots]; rewrite ?Hr3; reflexivity.
Qed.

Lemma field_update (g : CallTreeNode -> Z) f i b c k :
  (forall n, g (f n) = g n + c) ->
  g <$> nodeMap (update f i b) !! k
  = if decide (i = k) then (fun x => x + c) <$> (g <$> nodeMap b !! k)
    else g <$> nodeMap b !! k.
Proof.
  intros Hf. rewrite lookup_update. case_decide as Hik; [|reflexivity].
  subst k. destruct (nodeMap b !! i); cbn; [rewrite Hf|]; reflexivity.
Qed.

Lemma field_getOrCreate (g : CallTreeNode -> Z) b fn file ln k :
  (forall i, g (mkNode fn file ln 0 0 0 0 0 0 [] None i) = 0) ->
  g <$> nodeMap (fst (getOrCreateNode b fn file ln)) !! k
  = if decide (createNodeId fn file ln = k)
    then Some (default 0 (g <$> nodeMap b !! k))
    else g <$> nodeMap b !! k.
Proof.
  intros Hnew. unfold getOrCreateNode.
  destruct (nodeMap b !! createNodeId fn file ln) eqn:E; cbn [fst nodeMap].
  - case_decide as Hk; [|reflexivity]. subst k. rewrite E. reflexivity.
  - rewrite lookup_insert. case_decide as Hk; [|reflexivity].
    subst k. rewrite E. cbn. rewrite Hnew. reflexivity.
Qed.

(** A numeric field of node [k] after one trip of the loop. *)
Lemma stepFrame_field g a s i frame isLeaf value b cp k :
  (forall fn file ln j, g (mkNode fn file ln 0 0 0 0 0 0 [] None j) = 0) ->
  (forall n, g (addTotal value n) = g n + a) ->
  (forall n, g (addSelf value n) = g n + s) ->
  (forall n, g (addInvocation n) = g n + i) ->
  (forall c n, g (pushChild c n) = g n) ->
  (forall p n, g (setParent p n) = g n) ->
  g <$> nodeMap (stepFrame frame isLeaf value b cp) !! k
  = if decide (frameId frame = k)
    then Some (default 0 (g <$> nodeMap b !! k) + a + (if isLeaf then s else 0)
               + match cp with Some _ => i | None => 0 end)
    else g <$> nodeMap b !! k.
Proof.
  intros Hnew Ha Hs Hi Hpush Hpar. unfold stepFrame.
  pose proof (getOrCreate_present b (functionName frame) (fileName frame) (line frame))
    as [Hnode _].
  pose proof (field_getOrCreate g b (functionName frame) (fileName frame) (line frame) k
                (Hnew _ _ _)) as H1.
  destruct (getOrCreateNode b (functionName frame) (fileName frame) (line frame))
    as [b1 node]. cbn [fst snd] in *. subst node. fold (frameId frame) in *.
  set (b2 := update (addTotal value) (frameId frame) b1).
  assert (H2 : g <$> nodeMap b2 !! k
               = if decide (frameId frame = k)
                 then Some (default 0 (g <$> nodeMap b !! k) + a)
                 else g <$> nodeMap b !! k).
  { unfold b2. rewrite (field_update g _ _ _ a) by assumption. rewrite H1.
    case_decide; reflexivity. }
  set (b3 := if isLeaf then update (addSelf value) (frameId frame) b2 else b2).
  assert (H3 : g <$> nodeMap b3 !! k
               = if decide (frameId frame = k)
                 then Some (default 0 (g <$> nodeMap b !! k) + a + (if isLeaf then s else 0))
                 else g <$> nodeMap b !! k).
  { unfold b3. destruct isLeaf.
    - rewrite (field_update g _ _ _ s) by assumption. rewrite H2.
      case_decide; reflexivity.
    - rewrite H2. case_decide; [|reflexivity]. cbn. f_equal. lia. }
  destruct cp as [p|].
  - rewrite (field_update g _ _ _ i) by assumption.
    assert (H4 : g <$> nodeMap (if hasChild b3 p (frameId frame) then b3
                                else update (setParent p) (frameId frame)
                                       (update (pushChild (frameId frame)) p b3)) !! k
                 = g <$> nodeMap b3 !! k).
    { destruct (hasChild b3 p (frameId frame)); [reflexivity|].
      rewrite (field_update g _ _ _ 0) by (intros; rewrite Hpar; lia).
      rewrite (field_update g _ _ _ 0) by (intros; rewrite Hpush; lia).
      destruct (g <$> nodeMap b3 !! k); cbn; repeat case_decide; cbn;
        try reflexivity; f_equal; lia. }
    rewrite H4, H3. case_decide; reflexivity.
  - assert (H4 : forall r, nodeMap (mkBuilder (nodeMap b3) r) = nodeMap b3) by reflexivity.
    case_bool_decide; rewrite ?H4, H3; case_decide; try reflexivity; cbn; f_equal; lia.
Qed.


(** *** Samples and invocations *)

Lemma stepFrame_grows frame isLeaf value b cp :
  grows b (stepFrame frame isLeaf value b cp).
Proof.
  unfold stepFrame.
  pose proof (grows_getOrCreate b (functionName frame) (fileName frame) (line frame)) as Hg1.
  destruct (getOrCreateNode b (functionName frame) (fileName frame) (line frame))
    as [b1 node]. cbn [fst] in Hg1.
  set (b3 := if isLeaf then update (addSelf value) node (update (addTotal value) node b1)
             else update (addTotal value) node b1).
  assert (Hg3 : grows b b3).
  { eapply grows_trans; [exact Hg1|]. unfold b3. destruct isLeaf.
    - eapply grows_trans; [apply grows_addTotal | apply grows_addSelf].
    - apply grows_addTotal. }
  eapply grows_trans; [exact Hg3|].
  destruct cp as [p|].
  - eapply grows_trans; [|apply grows_addInvocation].
    destruct (hasChild b3 p node); [apply grows_refl|].
    eapply grows_trans; [apply grows_pushChild | apply grows_setParent].
  - case_bool_decide; [apply grows_refl | apply grows_roots].
Qed.

Lemma stepFrame_present frame isLeaf value b cp :
  is_Some (nodeMap (stepFrame frame isLeaf value b cp) !! frameId frame).
Proof.
  pose proof (stepFrame_field samples 1 0 0 frame isLeaf value b cp (frameId frame)) as H.
  rewrite decide_True in H by reflexivity.
  destruct (nodeMap (stepFrame frame isLeaf value b cp) !! frameId frame); [eauto|].
  cbn in H. discriminate H; try (intros; reflexivity);
    try (intros []; cbn; lia); try (intros ? []; cbn; lia).
Qed.

Lemma stepFrame_countsOk frame isLeaf value b cp :
  countsOk b -> countsOk (stepFrame frame isLeaf value b cp).
Proof.
  intros [Hroots Hnodes].
  pose proof (stepFrame_roots frame isLeaf value b cp) as Hr.
  pose proof (stepFrame_grows frame isLeaf value b cp) as Hg.
  split.
  - intros r. rewrite Hr. destruct cp as [p|].
    + intros Hin. eapply present_grows; [exact Hg | apply Hroots; exact Hin].
    + case_bool_decide.
      * intros Hin. eapply present_grows; [exact Hg | apply Hroots; exact Hin].
      * intros Hin. apply elem_of_app in Hin as [Hin|Hin].
        -- eapply present_grows; [exact Hg | apply Hroots; exact Hin].
        -- apply list_elem_of_singleton in Hin. subst r. apply stepFrame_present.
  - intros k n Hk.
    pose proof (stepFrame_field samples 1 0 0 frame isLeaf value b cp k) as Hs.
    pose proof (stepFrame_field invocations 0 0 1 frame isLeaf value b cp k) as Hi.
    rewrite Hk in Hs, Hi. cbn [fmap option_fmap option_map] in Hs, Hi.
    specialize (Hs ltac:(intros; reflexivity) ltac:(intros []; cbn; lia)
                   ltac:(intros []; cbn; lia) ltac:(intros []; cbn; lia)
                   ltac:(intros ? []; cbn; lia) ltac:(intros ? []; cbn; lia)).
    specialize (Hi ltac:(intros; reflexivity) ltac:(intros []; cbn; lia)
                   ltac:(intros []; cbn; lia) ltac:(intros []; cbn; lia)
                   ltac:(intros ? []; cbn; lia) ltac:(intros ? []; cbn; lia)).
    rewrite Hr. destruct (decide (frameId frame = k)) as [<-|Hne].
    + injection Hs as Hs. injection Hi as Hi.
      destruct (nodeMap b !! frameId frame) as [n0|] eqn:E0; cbn in Hs, Hi.
      * destruct (Hnodes _ _ E0) as (H1 & H2 & H3).
        destruct cp as [p|].
        -- rewrite H3. destruct isLeaf; lia.
        -- split; [destruct isLeaf; lia|]. split; [destruct isLeaf; lia|].
           split; [destruct isLeaf; lia|]. intros _.
           case_bool_decide; [assumption|].
           apply elem_of_app. right. apply list_elem_of_singleton. reflexivity.
      * assert (Hnot : frameId frame ∉ roots b).
        { intros Hin. destruct (Hroots _ Hin) as [x Hx]. congruence. }
        destruct cp as [p|].
        -- split; [destruct isLeaf; lia|]. split; [destruct isLeaf; lia|].
           split; [intros Hin; contradiction | destruct isLeaf; lia].
        -- split; [destruct isLeaf; lia|]. split; [destruct isLeaf; lia|].
           split; [destruct isLeaf; lia|]. intros _.
           rewrite bool_decide_eq_false_2 by exact Hnot.
           apply elem_of_app. right. apply list_elem_of_singleton. reflexivity.
    + destruct (nodeMap b !! k) as [n0|] eqn:E0; [|discriminate].
      cbn in Hs, Hi. injection Hs as Hs. injection Hi as Hi.
      destruct (Hnodes _ _ E0) as (H1 & H2 & H3).
      rewrite Hs, Hi. split; [exact H1|]. split; [exact H2|].
      rewrite <- H3. destruct cp as [p|]; [reflexivity|].
      case_bool_decide; [reflexivity|]. rewrite elem_of_app, list_elem_of_singleton.
      split; [intros [?|?]; [assumption | congruence] | auto].
Qed.

Lemma addStack_loop_countsOk frames : forall value b cp,
  countsOk b -> countsOk (addStack_loop frames value b cp).
Proof.
  induction frames as [|frame rest IH]; intros value b cp Hb; [exact Hb|].
  rewrite addStack_loop_cons. apply IH. apply stepFrame_countsOk. exact Hb.
Qed.

Lemma addStacks_countsOk calls : countsOk (addStacks newBuilder calls).
Proof.
  assert (H0 : countsOk newBuilder).
  { split.
    - intros r Hr. cbn in Hr. apply elem_of_nil in Hr. destruct Hr.
    - intros k n Hk. cbn in Hk. rewrite lookup_empty in Hk. discriminate. }
  unfold addStacks. revert H0. generalize newBuilder as b.
  induction calls as [|[[stack value] d] calls IH]; intros b Hb; [exact Hb|].
  cbn [foldl]. apply IH. unfold addStack. destruct stack; [exact Hb|].
  apply addStack_loop_countsOk. exact Hb.
Qed.

(** X14.  samples against invocations.  After any sequence of [addStack]
    calls on a new builder every node has at least one sample and at most
    as many invocations as samples, and it is listed in [roots] exactly
    when it has fewer invocations than samples. *)
Theorem samples_and_invocations calls k n :
  nodeMap (addStacks newBuilder calls) !! k = Some n ->
  0 <= invocations n <= samples n /\ 1 <= samples n /\
  (k ∈ roots (addStacks newBuilder calls) <-> invocations n < samples n).
Proof. intros Hk. destruct (addStacks_countsOk calls) as [_ H]. exact (H k n Hk). Qed.

Lemma samples_and_invocations_witness :
  nodeMap (addStacks newBuilder twoParents) !! frameId frameA
  = Some (mkNode "A" "f.go" 1 0 5 0 0 1 0 [frameId frameC] None (frameId frameA))
  /\ 0 <= 0 <= 1 /\ 1 <= 1
  /\ (frameId frameA ∈ roots (addStacks newBuilder twoParents) <-> 0 < 1).
Proof.
  assert (H : nodeMap (addStacks newBuilder twoParents) !! frameId frameA
              = Some (mkNode "A" "f.go" 1 0 5 0 0 1 0 [frameId frameC] None
                             (frameId frameA)))
    by (vm_compute; reflexivity).
  split; [exact H|].
  exact (samples_and_invocations twoParents _ _ H).
Defined.


(** *** Every node can be reached from a root *)

Lemma reachable_mono b b' k :
  grows b b' -> (forall r, r ∈ roots b -> r ∈ roots b') ->
  reachable b k -> reachable b' k.
Proof.
  intros Hg Hr. induction 1 as [r Hin|p c _ IH Hc].
  - apply reachable_root. apply Hr. exact Hin.
  - eapply reachable_child; [exact IH|]. eapply childOf_grows; eassumption.
Qed.

Lemma stepFrame_roots_mono frame isLeaf value b cp r :
  r ∈ roots b -> r ∈ roots (stepFrame frame isLeaf value b cp).
Proof.
  rewrite stepFrame_roots. destruct cp; [auto|]. case_bool_decide; [auto|].
  intros Hin. apply elem_of_app. left. exact Hin.
Qed.

Lemma present_update_inv f i b k :
  is_Some (nodeMap (update f i b) !! k) -> is_Some (nodeMap b !! k).
Proof.
  rewrite lookup_update. case_decide as Hik; [|auto].
  subst k. destruct (nodeMap b !! i); [eauto|]. cbn. intros [x Hx]. discriminate.
Qed.

Lemma stepFrame_present_inv frame isLeaf value b cp k :
  is_Some (nodeMap (stepFrame frame isLeaf value b cp) !! k) ->
  k = frameId frame \/ is_Some (nodeMap b !! k).
Proof.
  pose proof (stepFrame_field samples 1 0 0 frame isLeaf value b cp k) as H.
  intros [n Hn]. rewrite Hn in H. case_decide as Hk; [left; congruence|].
  right. destruct (nodeMap b !! k); [eauto|].
  cbn in H. discriminate H; try (intros; reflexivity);
    try (intros []; cbn; lia); try (intros ? []; cbn; lia).
Qed.

Lemma stepFrame_childOf frame isLeaf value b p :
  is_Some (nodeMap b !! p) ->
  childOf (stepFrame frame isLeaf value b (Some p)) p (frameId frame).
Proof.
  intros Hp. unfold stepFrame.
  pose proof (grows_getOrCreate b (functionName frame) (fileName frame) (line frame)) as Hg1.
  pose proof (getOrCreate_present b (functionName frame) (fileName frame) (line frame))
    as [Hnode _].
  destruct (getOrCreateNode b (functionName frame) (fileName frame) (line frame))
    as [b1 node]. cbn [fst snd] in *. subst node. fold (frameId frame) in *.
  set (b3 := if isLeaf
             then update (addSelf value) (frameId frame)
                    (update (addTotal value) (frameId frame) b1)
             else update (addTotal value) (frameId frame) b1).
  assert (Hg3 : grows b b3).
  { eapply grows_trans; [exact Hg1|]. unfold b3. destruct isLeaf.
    - eapply grows_trans; [apply grows_addTotal | apply grows_addSelf].
    - apply grows_addTotal. }
  eapply childOf_grows; [apply grows_addInvocation|].
  destruct (present_grows _ _ _ Hg3 Hp) as [pn Hpn].
  destruct (hasChild b3 p (frameId frame)) eqn:Hhas.
  - unfold hasChild in Hhas. rewrite Hpn in Hhas. apply bool_decide_eq_true in Hhas.
    exists pn. auto.
  - eapply childOf_grows; [apply grows_setParent|]. apply pushChild_childOf. eauto.
Qed.

Lemma stepFrame_reachable frame isLeaf value b cp :
  (forall k, is_Some (nodeMap b !! k) -> reachable b k) ->
  (forall p, cp = Some p -> is_Some (nodeMap b !! p)) ->
  forall k, is_Some (nodeMap (stepFrame frame isLeaf value b cp) !! k) ->
            reachable (stepFrame frame isLeaf value b cp) k.
Proof.
  intros Hall Hcp k Hk.
  assert (Hold : forall j, is_Some (nodeMap b !! j) ->
                           reachable (stepFrame frame isLeaf value b cp) j).
  { intros j Hj. eapply reachable_mono; [apply stepFrame_grows | | apply Hall; exact Hj].
    intros r. apply stepFrame_roots_mono. }
  destruct (decide (k = frameId frame)) as [->|Hne].
  - destruct cp as [p|].
    + eapply reachable_child; [apply Hold, Hcp; reflexivity|].
      apply stepFrame_childOf. apply Hcp. reflexivity.
    + apply reachable_root. rewrite stepFrame_roots. case_bool_decide; [assumption|].
      apply elem_of_app. right. apply list_elem_of_singleton. reflexivity.
  - apply stepFrame_present_inv in Hk as [Hk|Hk]; [contradiction|]. apply Hold. exact Hk.
Qed.

Lemma addStack_loop_reachable frames : forall value b cp,
  (forall k, is_Some (nodeMap b !! k) -> reachable b k) ->
  (forall p, cp = Some p -> is_Some (nodeMap b !! p)) ->
  forall k, is_Some (nodeMap (addStack_loop frames value b cp) !! k) ->
            reachable (addStack_loop frames value b cp) k.
Proof.
  induction frames as [|frame rest IH]; intros value b cp Hall Hcp; [exact Hall|].
  rewrite addStack_loop_cons. apply IH.
  - apply stepFrame_reachable; assumption.
  - intros p [= <-]. apply stepFrame_present.
Qed.

(** X15.  no node is lost.  After any sequence of [addStack] calls on a new
    builder, every node of [nodeMap] can be reached from a node of [roots]
    by following [children]. *)
Theorem every_node_reachable calls k :
  is_Some (nodeMap (addStacks newBuilder calls) !! k) ->
  reachable (addStacks newBuilder calls) k.
Proof.
  revert k. unfold addStacks.
  assert (H0 : forall k, is_Some (nodeMap newBuilder !! k) -> reachable newBuilder k).
  { intros k [n Hn]. cbn in Hn. rewrite lookup_empty in Hn. discriminate. }
  revert H0. generalize newBuilder as b.
  induction calls as [|[[stack value] d] calls IH]; intros b Hb; [exact Hb|].
  cbn [foldl]. apply IH. unfold addStack. destruct stack; [exact Hb|].
  apply addStack_loop_reachable; [exact Hb | discriminate].
Qed.

Lemma every_node_reachable_witness :
  is_Some (nodeMap (addStacks newBuilder twoParents) !! frameId frameC)
  /\ reachable (addStacks newBuilder twoParents) (frameId frameC).
Proof.
  assert (H : is_Some (nodeMap (addStacks newBuilder twoParents) !! frameId frameC))
    by (vm_compute; eauto).
  split; [exact H|].
  exact (every_node_reachable twoParents (frameId frameC) H).
Defined.


End CallTreeShapeProps.

(** ** Looking metrics up *)

Module FileLookupProps.

Import Parser FileLookup ParserProps.

Section Lookup.

Variable toLowerCase : string -> string.

Lemma bonus_nonneg fileParts profileParts : 0 <= PathMapper.bonus profileParts fileParts.
Proof.
  unfold PathMapper.bonus.
  assert (H : forall acc, 0 <= acc ->
            0 <= foldl (fun score profilePart =>
                          if bool_decide (profilePart ∈ fileParts) then score + 5 else score)
                       acc profileParts).
  { induction profileParts as [|x l IH]; intros acc Hacc; cbn [foldl]; [exact Hacc|].
    apply IH. case_bool_decide; lia. }
  apply H. lia.
Qed.

Lemma keyScore_pos fileNameParts key : 10 <= keyScore toLowerCase fileNameParts key.
Proof.
  unfold keyScore. pose proof (bonus_nonneg (PathMapper.parts "/" key) fileNameParts).
  destruct (parentDir toLowerCase fileNameParts);
    destruct (parentDir toLowerCase (PathMapper.parts "/" key));
    try lia.
  destruct (_ && _); lia.
Qed.

Lemma matchStep_unfold {V : Type} (fileName : string) (best : option V * Z) key v :
  matchStep toLowerCase fileName best (key, v)
  = if decide (baseName key = baseName fileName)
    then (if snd best <? keyScore toLowerCase (PathMapper.parts "/" fileName) key
          then (Some v, keyScore toLowerCase (PathMapper.parts "/" fileName) key)
          else best)
    else best.
Proof.
  unfold matchStep. destruct (decide (baseName key = baseName fileName)) as [H|H].
  - rewrite bool_decide_eq_true_2 by exact H. reflexivity.
  - rewrite bool_decide_eq_false_2 by exact H. reflexivity.
Qed.

(** The state of the scoring loop after the entries [entries]. *)
Lemma foldl_matchStep {V : Type} (fileName : string) (entries : list (string * V)) :
  let score := keyScore toLowerCase (PathMapper.parts "/" fileName) in
  let best := foldl (matchStep toLowerCase fileName) (None, 0) entries in
  ((forall key v, (key, v) ∈ entries -> baseName key <> baseName fileName)
   /\ best = (None, 0))
  \/ (exists i key v,
        firstBestEntry score fileName entries i key v /\ best = (Some v, score key)).
Proof.
  intros score best. subst best.
  induction entries as [|[key v] entries IH] using rev_ind.
  - left. split; [|reflexivity]. intros key v Hin. apply elem_of_nil in Hin. destruct Hin.
  - rewrite foldl_app. cbn [foldl]. rewrite matchStep_unfold.
    fold score.
    destruct (decide (baseName key = baseName fileName)) as [Hbase|Hbase].
    + pose proof (keyScore_pos (PathMapper.parts "/" fileName) key) as Hpos.
      fold score in Hpos.
      destruct IH as [[Hnone ->]|(i & key0 & v0 & (Hi & Hb0 & Hmax) & ->)].
      * cbn [snd]. replace (0 <? score key) with true by (symmetry; apply Z.ltb_lt; lia).
        right. exists (length entries), key, v. split; [|reflexivity].
        split; [apply list_lookup_middle; reflexivity|]. split; [exact Hbase|].
        intros j key' v' Hj Hb'.
        destruct (decide (j < length entries)%nat) as [Hlt|Hge].
        -- rewrite lookup_app_l in Hj by exact Hlt.
           apply list_elem_of_lookup_2 in Hj. destruct (Hnone _ _ Hj Hb').
        -- rewrite lookup_app_r in Hj by lia.
           destruct (j - length entries)%nat eqn:E; cbn in Hj; [|discriminate].
           injection Hj as <- <-. split; [lia | intros; lia].
      * cbn [snd]. pose proof (lookup_lt_Some _ _ _ Hi) as Hlen.
        destruct (Z.ltb_spec (score key0) (score key)) as [Hlt|Hge]; right.
        -- exists (length entries), key, v. split; [|reflexivity].
           split; [apply list_lookup_middle; reflexivity|]. split; [exact Hbase|].
           intros j key' v' Hj Hb'.
           destruct (decide (j < length entries)%nat) as [Hjl|Hjg].
           ++ rewrite lookup_app_l in Hj by exact Hjl.
              destruct (Hmax _ _ _ Hj Hb') as [Hle _]. split; [lia | intros; lia].
           ++ rewrite lookup_app_r in Hj by lia.
              destruct (j - length entries)%nat eqn:E; cbn in Hj; [|discriminate].
              injection Hj as <- <-. split; [lia | intros; lia].
        -- exists i, key0, v0. split; [|reflexivity].
           split; [rewrite lookup_app_l by exact Hlen; exact Hi|]. split; [exact Hb0|].
           intros j key' v' Hj Hb'.
           destruct (decide (j < length entries)%nat) as [Hjl|Hjg].
           ++ rewrite lookup_app_l in Hj by exact Hjl. apply (Hmax _ _ _ Hj Hb').
           ++ rewrite lookup_app_r in Hj by lia.
              destruct (j - length entries)%nat eqn:E; cbn in Hj; [|discriminate].
              injection Hj as <- <-. split; [lia | intros; lia].
    + destruct IH as [[Hnone ->]|(i & key0 & v0 & (Hi & Hb0 & Hmax) & ->)].
      * left. split; [|reflexivity]. intros key' v' Hin.
        apply elem_of_app in Hin as [Hin|Hin]; [eauto|].
        apply list_elem_of_singleton in Hin. injection Hin as -> ->. exact Hbase.
      * right. pose proof (lookup_lt_Some _ _ _ Hi) as Hlen.
        exists i, key0, v0. split; [|reflexivity].
        split; [rewrite lookup_app_l by exact Hlen; exact Hi|]. split; [exact Hb0|].
        intros j key' v' Hj Hb'.
        destruct (decide (j < length entries)%nat) as [Hjl|Hjg].
        -- rewrite lookup_app_l in Hj by exact Hjl. apply (Hmax _ _ _ Hj Hb').
        -- rewrite lookup_app_r in Hj by lia.
           destruct (j - length entries)%nat eqn:E; cbn in Hj; [|discriminate].
           injection Hj as <- <-. contradiction.
Qed.

(** X16.  a file found by [getFileMetrics] always has the base name asked
    for, and a file is found exactly when the profile holds one with that
    base name, in whatever directory. *)
Theorem getFileMetrics_base_name {V : Type} (fileMetrics : list (string * V))
    (fileName : string) :
  (forall v, getFileMetrics toLowerCase fileMetrics fileName = Some v ->
     exists key, (key, v) ∈ fileMetrics /\ baseName key = baseName fileName)
  /\ (getFileMetrics toLowerCase fileMetrics fileName = None <->
      forall key v, (key, v) ∈ fileMetrics -> baseName key <> baseName fileName).
Proof.
  unfold getFileMetrics.
  destruct (JsMap.get fileMetrics fileName) as [v0|] eqn:Hget.
  - apply get_elem_of in Hget. split.
    + intros v [= <-]. exists fileName. auto.
    + split; [discriminate|]. intros Hnone. destruct (Hnone _ _ Hget). reflexivity.
  - destruct (foldl_matchStep fileName fileMetrics)
      as [[Hnone ->]|(i & key & v & (Hi & Hb & _) & ->)]; cbn [fst].
    + split; [discriminate|]. split; auto.
    + apply list_elem_of_lookup_2 in Hi. split.
      * intros v' [= <-]. exists key. auto.
      * split; [discriminate|]. intros Hnone. destruct (Hnone _ _ Hi Hb).
Qed.

(** X17.  without an entry under the exact name, [getFileMetrics] returns
    the entry with the highest score among those with the base name asked
    for, the first of them in insertion order when several share it. *)
Theorem getFileMetrics_first_best {V : Type} (fileMetrics : list (string * V))
    (fileName : string) (v : V) :
  JsMap.get fileMetrics fileName = None ->
  getFileMetrics toLowerCase fileMetrics fileName = Some v ->
  exists i key,
    firstBestEntry (keyScore toLowerCase (PathMapper.parts "/" fileName))
                   fileName fileMetrics i key v.
Proof.
  unfold getFileMetrics. intros ->.
  destruct (foldl_matchStep fileName fileMetrics)
    as [[Hnone ->]|(i & key & v' & Hbest & ->)]; cbn [fst]; [discriminate|].
  intros [= <-]. eauto.
Qed.

End Lookup.

Lemma getFileMetrics_first_best_witness :
  JsMap.get [("/src/other/main.go", 2); ("/app/svc/main.go", 1); ("/x/svc/main.go", 3)]
            "svc/main.go" = None
  /\ getFileMetrics PathMapper.asciiLowerCase
       [("/src/other/main.go", 2); ("/app/svc/main.go", 1); ("/x/svc/main.go", 3)]
       "svc/main.go" = Some 1
  /\ exists i key,
       firstBestEntry (keyScore PathMapper.asciiLowerCase (PathMapper.parts "/" "svc/main.go"))
         "svc/main.go"
         [("/src/other/main.go", 2); ("/app/svc/main.go", 1); ("/x/svc/main.go", 3)]
         i key 1.
Proof.
  assert (H1 : JsMap.get [("/src/other/main.go", 2); ("/app/svc/main.go", 1);
                          ("/x/svc/main.go", 3)] "svc/main.go" = None)
    by (vm_compute; reflexivity).
  assert (H2 : getFileMetrics PathMapper.asciiLowerCase
                 [("/src/other/main.go", 2); ("/app/svc/main.go", 1); ("/x/svc/main.go", 3)]
                 "svc/main.go" = Some 1)
    by (vm_compute; reflexivity).
  split; [exact H1|]. split; [exact H2|].
  exact (getFileMetrics_first_best PathMapper.asciiLowerCase _ _ _ H1 H2).
Defined.

(** *** Every sampled line can be looked up *)





End FileLookupProps.

(** ** Display names and path suggestions *)

Module NamesProps.

Import PathMapper Names ParserProps.

Lemma spanWord_allWord s : allWord (fst (spanWord s)).
Proof.
  induction s as [|a s IH]; cbn [spanWord]; [exact I|].
  destruct (isWord a) eqn:E; [|exact I].
  destruct (spanWord s) as [w r]. cbn [fst] in *. split; assumption.
Qed.

Lemma allWord_without_dot s : allWord s -> without "." s.
Proof.
  induction s as [|a s IH]; cbn; [auto|]. intros [Ha Hs]. split; [|auto].
  intros ->. discriminate Ha.
Qed.

Lemma methodAt_allWord s w : methodAt s = Some w -> allWord w.
Proof.
  unfold methodAt. destruct s as [|a r]; [discriminate|].
  destruct (Ascii.eqb a "("); [|discriminate].
  destruct (spanNot ")" r) as [inner rest].
  destruct inner; [discriminate|].
  destruct rest as [|c1 [|c2 rest]]; [discriminate..|].
  destruct (Ascii.eqb c1 ")" && Ascii.eqb c2 "."); [|discriminate].
  pose proof (spanWord_allWord rest) as Hw.
  destruct (spanWord rest) as [w' r']. cbn [fst] in Hw.
  destruct w'; [discriminate|]. intros [= <-]. exact Hw.
Qed.

Lemma matchMethod_allWord s : forall w, matchMethod s = Some w -> allWord w.
Proof.
  induction s as [|a s IH]; intros w; cbn [matchMethod].
  - destruct (methodAt "") eqn:E; [|discriminate]. intros [= <-].
    eapply methodAt_allWord. exact E.
  - destruct (methodAt (String a s)) eqn:E.
    + intros [= <-]. eapply methodAt_allWord. exact E.
    + apply IH.
Qed.

Lemma split_without c s : Forall (without c) (split c s).
Proof.
  induction s as [|a s IH]; cbn [split].
  - repeat constructor.
  - destruct (Ascii.eqb_spec a c) as [->|Hne].
    + constructor; [exact I | exact IH].
    + destruct (split c s) as [|h t]; [repeat constructor; assumption|].
      apply Forall_cons in IH as [Hh Ht]. constructor; [|exact Ht]. split; assumption.
Qed.

Lemma last_Forall {A} (P : A -> Prop) (l : list A) d : P d -> Forall P l -> P (List.last l d).
Proof.
  intros Hd. induction 1 as [|x l Hx Hl IH]; [exact Hd|].
  cbn [List.last]. destruct l; [exact Hx | exact IH].
Qed.

(** X19.  the name shown for a function never contains a dot. *)
Theorem formatFunctionName_no_dot fullName : without "." (formatFunctionName fullName).
Proof.
  unfold formatFunctionName. destruct (matchMethod fullName) as [w|] eqn:E.
  - apply allWord_without_dot. eapply matchMethod_allWord. exact E.
  - apply last_Forall; [exact I | apply split_without].
Qed.


Lemma spanNot_app c recv tail :
  without c recv -> spanNot c (recv +:+ String c tail) = (recv, String c tail).
Proof.
  induction recv as [|a recv IH]; intros Hw.
  - rewrite app_empty. cbn [spanNot]. rewrite Ascii.eqb_refl. reflexivity.
  - destruct Hw as [Ha Hw]. rewrite app_String. cbn [spanNot].
    destruct (Ascii.eqb_spec a c); [contradiction|]. rewrite IH by exact Hw. reflexivity.
Qed.

Lemma spanWord_app m rest :
  allWord m -> wordEnds rest -> spanWord (m +:+ rest) = (m, rest).
Proof.
  induction m as [|a m IH]; intros Hm Hr.
  - rewrite app_empty. destruct rest as [|c rest]; [reflexivity|].
    cbn [spanWord]. cbn in Hr. rewrite Hr. reflexivity.
  - destruct Hm as [Ha Hm]. rewrite app_String. cbn [spanWord]. rewrite Ha.
    rewrite IH by assumption. reflexivity.
Qed.

Lemma methodAt_not_paren a s : a <> "("%char -> methodAt (String a s) = None.
Proof.
  intros Ha. cbn [methodAt]. destruct (Ascii.eqb_spec a "("); [contradiction | reflexivity].
Qed.

Lemma matchMethod_skip pre s :
  without "(" pre -> matchMethod (pre +:+ s) = matchMethod s.
Proof.
  induction pre as [|a pre IH]; intros Hw; [rewrite app_empty; reflexivity|].
  destruct Hw as [Ha Hw]. rewrite app_String. cbn [matchMethod].
  rewrite methodAt_not_paren by exact Ha. apply IH. exact Hw.
Qed.

Lemma matchMethod_none s : without "(" s -> matchMethod s = None.
Proof.
  induction s as [|a s IH]; intros Hw; [reflexivity|].
  destruct Hw as [Ha Hw]. cbn [matchMethod].
  rewrite methodAt_not_paren by exact Ha. apply IH. exact Hw.
Qed.

Lemma without_app c a b : without c a -> without c b -> without c (a +:+ b).
Proof.
  induction a as [|x a IH]; intros Ha Hb; [rewrite app_empty; exact Hb|].
  destruct Ha as [Hx Ha]. rewrite app_String. split; [exact Hx | auto].
Qed.

Lemma split_whole c s : without c s -> split c s = [s].
Proof.
  induction s as [|a s IH]; intros Hw; [reflexivity|].
  destruct Hw as [Ha Hw]. cbn [split]. destruct (Ascii.eqb_spec a c); [contradiction|].
  rewrite IH by exact Hw. reflexivity.
Qed.

Lemma split_nonempty c s : split c s <> [].
Proof.
  destruct s as [|a s]; cbn [split]; [discriminate|].
  destruct (Ascii.eqb a c); [discriminate|]. destruct (split c s); discriminate.
Qed.

Lemma split_app c pkg name :
  exists h t, split c (pkg +:+ String c name) = (h :: t) ++ split c name.
Proof.
  induction pkg as [|a pkg IH].
  - rewrite app_empty. cbn [split]. rewrite Ascii.eqb_refl.
    exists EmptyString, []. reflexivity.
  - destruct IH as (h & t & IH). rewrite app_String. cbn [split]. rewrite IH.
    destruct (Ascii.eqb a c).
    + exists EmptyString, (h :: t). reflexivity.
    + exists (String a h), t. reflexivity.
Qed.

Lemma last_app_nonempty {A} (l s : list A) d : s <> [] -> List.last (l ++ s) d = List.last s d.
Proof.
  intros Hs. induction l as [|x l IH]; [reflexivity|].
  change ((x :: l) ++ s) with (x :: (l ++ s)). cbn [List.last].
  destruct (l ++ s) eqn:E; [|exact IH].
  apply app_eq_nil in E. destruct E; contradiction.
Qed.

Lemma last_split_app c pkg name :
  List.last (split c (pkg +:+ String c name)) EmptyString
  = List.last (split c name) EmptyString.
Proof.
  destruct (split_app c pkg name) as (h & t & ->).
  apply last_app_nonempty, split_nonempty.
Qed.

(** X20.  [formatFunctionName] on the documented shapes of a name: with a
    parenthesised receiver followed by a dot it is the method name after the
    first such receiver; without any parenthesis it is what follows the last
    dot, and the whole name when there is no dot. *)
Theorem formatFunctionName_patterns :
  (forall pre recv m rest,
      without "(" pre -> recv <> EmptyString -> without ")" recv ->
      m <> EmptyString -> allWord m -> wordEnds rest ->
      formatFunctionName (pre +:+ "(" +:+ recv +:+ ")." +:+ m +:+ rest) = m)
  /\ (forall pkg name,
         without "(" pkg -> without "(" name -> without "." name ->
         formatFunctionName (pkg +:+ "." +:+ name) = name)
  /\ (forall name,
         without "(" name -> without "." name -> formatFunctionName name = name).
Proof.
  split; [|split].
  - intros pre recv m rest Hpre Hrecv Hnp Hm Hw Hrest.
    unfold formatFunctionName. rewrite matchMethod_skip by exact Hpre.
    assert (Hat : methodAt ("(" +:+ recv +:+ ")." +:+ m +:+ rest) = Some m).
    { change ("(" +:+ recv +:+ ")." +:+ m +:+ rest)
        with (String "(" (recv +:+ String ")" (String "." (m +:+ rest)))).
      cbn [methodAt]. rewrite Ascii.eqb_refl. rewrite spanNot_app by exact Hnp.
      destruct recv as [|r0 recv]; [contradiction|].
      rewrite !Ascii.eqb_refl. cbn [andb].
      rewrite spanWord_app by assumption.
      destruct m; [contradiction | reflexivity]. }
    destruct ("(" +:+ recv +:+ ")." +:+ m +:+ rest) eqn:E;
      cbn [matchMethod]; rewrite Hat; reflexivity.
  - intros pkg name Hpkg Hname Hdot.
    unfold formatFunctionName.
    change ("." +:+ name) with (String "." name).
    rewrite matchMethod_none.
    + rewrite last_split_app, split_whole by exact Hdot. reflexivity.
    + apply without_app; [exact Hpkg|]. split; [discriminate | exact Hname].
  - intros name Hname Hdot. unfold formatFunctionName.
    rewrite matchMethod_none by exact Hname.
    rewrite split_whole by exact Hdot. reflexivity.
Qed.


Lemma get_set {V} (m : JsMap.t V) k v k' :
  JsMap.get (JsMap.set k v m) k' = if decide (k = k') then Some v else JsMap.get m k'.
Proof.
  unfold JsMap.set. rewrite has_get. case_bool_decide as Hhas.
  - rewrite get_modify. destruct (decide (k = k')) as [<-|]; [|reflexivity].
    destruct Hhas as [x ->]. reflexivity.
  - rewrite get_snoc. destruct (decide (k = k')) as [<-|Hne].
    + destruct (JsMap.get m k) eqn:E; [|reflexivity].
      exfalso. apply Hhas. eauto.
    + destruct (JsMap.get m k'); reflexivity.
Qed.

(** X21.  with a workspace open, [suggestPathMappings] maps a container prefix
    exactly when some profile path starts with it and with no prefix listed
    before it, and always to the first workspace folder; without a workspace
    it suggests nothing. *)
Theorem suggestPathMappings_spec profilePaths :
  suggestPathMappings None profilePaths = []
  /\ suggestPathMappings (Some []) profilePaths = []
  /\ forall workspaceRoot others containerPrefix target,
      JsMap.get (suggestPathMappings (Some (workspaceRoot :: others)) profilePaths)
                containerPrefix = Some target
      <-> target = workspaceRoot
          /\ exists profilePath,
              profilePath ∈ profilePaths
              /\ containerPrefix ∈ containerPrefixes
              /\ String.prefix containerPrefix profilePath = true
              /\ forall before after,
                  containerPrefixes = before ++ containerPrefix :: after ->
                  forall earlier, earlier ∈ before ->
                                  String.prefix earlier profilePath = false.
Proof.
  split; [reflexivity|]. split; [reflexivity|].
  intros workspaceRoot others containerPrefix target.
  cbn [suggestPathMappings].
  assert (Hfirst : forall profilePath,
    firstPrefix profilePath = Some containerPrefix
    <-> containerPrefix ∈ containerPrefixes
        /\ String.prefix containerPrefix profilePath = true
        /\ forall before after,
            containerPrefixes = before ++ containerPrefix :: after ->
            forall earlier, earlier ∈ before -> String.prefix earlier profilePath = false).
  { intros profilePath. unfold firstPrefix.
    assert (Hnd : NoDup containerPrefixes).
    { apply (bool_decide_unpack _). vm_compute. exact I. }
    revert Hnd. generalize containerPrefixes as l.
    induction l as [|x l IH]; intros Hnd.
    - cbn [List.find]. split; [discriminate|]. intros [H _]. inversion H.
    - apply NoDup_cons in Hnd as [Hx Hnd]. cbn [List.find].
      destruct (String.prefix x profilePath) eqn:Ex.
      + split.
        * intros [= <-]. split; [apply elem_of_cons; auto|]. split; [exact Ex|].
          intros before after Heq earlier Hin.
          destruct before as [|b before]; [inversion Hin|].
          injection Heq as <- Heq. exfalso. apply Hx. rewrite Heq.
          apply elem_of_app. right. apply elem_of_cons. auto.
        * intros (Hin & Hp & Hbefore).
          apply elem_of_cons in Hin as [->|Hin]; [reflexivity|].
          apply list_elem_of_split in Hin as (l1 & l2 & ->).
          specialize (Hbefore (x :: l1) l2 eq_refl x).
          rewrite Hbefore in Ex; [discriminate|]. apply elem_of_cons. auto.
      + rewrite (IH Hnd). split.
        * intros (Hin & Hp & Hbefore). split; [apply elem_of_cons; auto|].
          split; [exact Hp|]. intros before after Heq earlier Hearlier.
          destruct before as [|b before]; [inversion Hearlier|].
          injection Heq as <- Heq.
          apply elem_of_cons in Hearlier as [->|Hearlier]; [exact Ex|].
          exact (Hbefore before after Heq earlier Hearlier).
        * intros (Hin & Hp & Hbefore).
          apply elem_of_cons in Hin as [->|Hin]; [rewrite Hp in Ex; discriminate|].
          split; [exact Hin|]. split; [exact Hp|].
          intros before after Heq earlier Hearlier.
          apply (Hbefore (x :: before) after); [rewrite Heq; reflexivity|].
          apply elem_of_cons. auto. }
  induction profilePaths as [|profilePath profilePaths IH] using rev_ind.
  - cbn. split; [discriminate|]. intros (_ & p & Hin & _). inversion Hin.
  - rewrite foldl_app. cbn [foldl].
    destruct (firstPrefix profilePath) as [k|] eqn:Efirst.
    + rewrite get_set. destruct (decide (k = containerPrefix)) as [->|Hne].
      * split.
        -- intros [= <-]. split; [reflexivity|]. exists profilePath.
           split; [apply elem_of_app; right; apply list_elem_of_singleton; reflexivity|].
           apply Hfirst. exact Efirst.
        -- intros [-> _]. reflexivity.
      * rewrite IH. split.
        -- intros (-> & p & Hin & Hp). split; [reflexivity|]. exists p.
           split; [apply elem_of_app; auto | exact Hp].
        -- intros (-> & p & Hin & Hp). split; [reflexivity|].
           apply elem_of_app in Hin as [Hin|Hin]; [exists p; auto|].
           apply list_elem_of_singleton in Hin as ->.
           apply Hfirst in Hp. congruence.
    + rewrite IH. split.
      * intros (-> & p & Hin & Hp). split; [reflexivity|]. exists p.
        split; [apply elem_of_app; auto | exact Hp].
      * intros (-> & p & Hin & Hp). split; [reflexivity|].
        apply elem_of_app in Hin as [Hin|Hin]; [exists p; auto|].
        apply list_elem_of_singleton in Hin as ->.
        apply Hfirst in Hp. congruence.
Qed.

End NamesProps.

(** ** Searching the call tree *)

Module TreeSearchProps.

Import Wire CallTree CallTreeShape FileLookup TreeSearch CallTreeProps.

Section Search.

Variable b : CallTreeBuilder.
Variable fileName : string.
Hypothesis Hclosed : closed b.

Lemma reaches_mono nodes nodes' x :
  (forall k, k ∈ nodes -> reaches b nodes' k) -> reaches b nodes x -> reaches b nodes' x.
Proof.
  intros Hsub H. induction H as [k Hk | p c _ IH Hc]; [auto|].
  exact (reaches_child b nodes' p c IH Hc).
Qed.

Lemma searched_nil V : searched b fileName [] V [] V.
Proof.
  split; [reflexivity|]. split; [intros k Hk; inversion Hk|].
  split; [intros x H1 H2; contradiction|].
  split; [intros x H1 H2; contradiction|].
  split; [apply NoDup_nil; exact I|].
  intros x. split; [intros H; inversion H|]. intros (H1 & H2 & _). contradiction.
Qed.

Lemma searched_app n1 n2 V V1 V2 f1 f2 :
  searched b fileName n1 V f1 V1 -> searched b fileName n2 V1 f2 V2 -> searched b fileName (n1 ++ n2) V (f1 ++ f2) V2.
Proof.
  intros (S1 & N1 & C1 & R1 & D1 & I1) (S2 & N2 & C2 & R2 & D2 & I2).
  split; [etrans; eassumption|]. split.
  { intros k Hk. apply elem_of_app in Hk as [Hk|Hk]; [apply S2, N1, Hk | apply N2, Hk]. }
  split.
  { intros x Hx HV c Hc. destruct (decide (x ∈ V1)) as [H1|H1].
    - apply S2. exact (C1 x H1 HV c Hc).
    - exact (C2 x Hx H1 c Hc). }
  split.
  { intros x Hx HV. destruct (decide (x ∈ V1)) as [H1|H1].
    - apply (reaches_mono n1); [|exact (R1 x H1 HV)].
      intros k Hk. apply reaches_here, elem_of_app. auto.
    - apply (reaches_mono n2); [|exact (R2 x Hx H1)].
      intros k Hk. apply reaches_here, elem_of_app. auto. }
  split.
  { apply NoDup_app. split; [exact D1|]. split; [|exact D2].
    intros x H1 H2. apply I1 in H1 as (H1 & _). apply I2 in H2 as (_ & H2 & _).
    contradiction. }
  intros x. rewrite elem_of_app, I1, I2. split.
  - intros [(H1 & HV & Hf)|(H2 & H1 & Hf)]; (split; [|split]); auto.
  - intros (H2 & HV & Hf). destruct (decide (x ∈ V1)); [left | right]; auto.
Qed.

Lemma unvisited_shrinks (V : gset string) k :
  k ∈ dom (nodeMap b) -> (k ∉ V) ->
  (size (dom (nodeMap b) ∖ ({[k]} ∪ V)) < size (dom (nodeMap b) ∖ V))%nat.
Proof.
  intros Hk HV. apply subset_size. apply strict_spec_alt. split.
  - intros x Hx. apply elem_of_difference in Hx as [H1 H2].
    apply elem_of_difference. split; [exact H1|].
    intros H. apply H2, elem_of_union. auto.
  - intros Heq.
    assert (Hin : k ∈ dom (nodeMap b) ∖ V) by (apply elem_of_difference; auto).
    rewrite <- Heq in Hin. apply elem_of_difference in Hin as [_ Hin].
    apply Hin, elem_of_union. left. apply elem_of_singleton. reflexivity.
Qed.

Lemma unvisited_mono (V V' : gset string) :
  V ⊆ V' -> (size (dom (nodeMap b) ∖ V') <= size (dom (nodeMap b) ∖ V))%nat.
Proof.
  intros Hsub. apply subseteq_size. intros x Hx.
  apply elem_of_difference in Hx as [H1 H2]. apply elem_of_difference. auto.
Qed.

Section Step.

Variable recurse : list string -> gset string -> outcome (list string * gset string).
Variable f : nat.
Hypothesis Hrec : forall nodes V,
  (size (dom (nodeMap b) ∖ V) < f)%nat ->
  (forall k, k ∈ nodes -> is_Some (nodeMap b !! k)) ->
  exists found V', recurse nodes V = Return (found, V') /\ searched b fileName nodes V found V'.

Lemma visitNode_searched acc V k :
  (size (dom (nodeMap b) ∖ V) < S f)%nat ->
  is_Some (nodeMap b !! k) ->
  exists found V',
    visitNode recurse b fileName (acc, V) k = Return (acc ++ found, V')
    /\ searched b fileName [k] V found V'.
Proof.
  intros Hfuel [node Hnode]. unfold visitNode. rewrite Hnode.
  destruct (Hclosed k node Hnode) as [Hid Hch]. rewrite Hid.
  case_bool_decide as HkV.
  { exists [], V. rewrite app_nil_r. split; [reflexivity|].
    destruct (searched_nil V) as (S1 & _ & C1 & R1 & D1 & I1).
    split; [exact S1|]. split; [|split; [exact C1|]].
    - intros k' Hk'. apply list_elem_of_singleton in Hk' as ->. exact HkV.
    - split; [|split; [exact D1 | exact I1]].
      intros x H1 H2. contradiction. }
  set (V1 := {[k]} ∪ V).
  set (own := if bool_decide (baseName (n_fileName node) = baseName fileName)
              then [k] else []).
  assert (Hown : (if bool_decide (baseName (n_fileName node) = baseName fileName)
                  then acc ++ [k] else acc) = acc ++ own).
  { subst own. case_bool_decide; [reflexivity | rewrite app_nil_r; reflexivity]. }
  rewrite Hown.
  assert (HkV1 : k ∈ V1) by (apply elem_of_union; left; apply elem_of_singleton; reflexivity).
  assert (HVV1 : V ⊆ V1) by (intros x Hx; apply elem_of_union; auto).
  assert (Hx : forall x, x ∈ V1 -> (x ∉ V) -> x = k).
  { intros x H1 H2. apply elem_of_union in H1 as [H1|H1]; [|contradiction].
    apply elem_of_singleton in H1. exact H1. }
  assert (Hownk : forall x, x ∈ own <-> x = k /\ inFile b fileName k).
  { intros x. subst own. case_bool_decide as Hm.
    - rewrite list_elem_of_singleton. split; [|intros [H _]; exact H].
      intros ->. split; [reflexivity|]. exists node. auto.
    - split; [intros H; inversion H|].
      intros (_ & n & Hn & Hbase). rewrite Hnode in Hn. injection Hn as <-.
      contradiction. }
  assert (Hnd : NoDup own).
  { subst own. case_bool_decide; [apply NoDup_singleton | apply NoDup_nil; exact I]. }
  assert (Hdom : k ∈ dom (nodeMap b)) by (apply elem_of_dom; eauto).
  destruct (children node) as [|c0 cs] eqn:Ech.
  { exists own, V1. split; [reflexivity|].
    split; [exact HVV1|]. split.
    { intros k' Hk'. apply list_elem_of_singleton in Hk' as ->. exact HkV1. }
    split.
    { intros x H1 H2 c (pn & Hpn & Hc). rewrite (Hx x H1 H2), Hnode in Hpn.
      injection Hpn as <-. rewrite Ech in Hc. inversion Hc. }
    split.
    { intros x H1 H2. rewrite (Hx x H1 H2). apply reaches_here.
      apply list_elem_of_singleton. reflexivity. }
    split; [exact Hnd|].
    intros x. rewrite Hownk. split.
    - intros [-> Hf]. auto.
    - intros (H1 & H2 & Hf). rewrite (Hx x H1 H2) in *. auto. }
  destruct (Hrec (c0 :: cs) V1) as (sub & V2 & Hsub & S2 & N2 & C2 & R2 & D2 & I2).
  { pose proof (unvisited_shrinks V k Hdom HkV). fold V1 in H. lia. }
  { exact Hch. }
  exists (own ++ sub), V2. split.
  { rewrite Hsub. cbn. rewrite app_assoc. reflexivity. }
  split; [etrans; eassumption|]. split.
  { intros k' Hk'. apply list_elem_of_singleton in Hk' as ->. apply S2, HkV1. }
  split.
  { intros x H2 HV c Hc. destruct (decide (x ∈ V1)) as [H1|H1].
    - destruct Hc as (pn & Hpn & Hc). rewrite (Hx x H1 HV), Hnode in Hpn.
      injection Hpn as <-. rewrite Ech in Hc. exact (N2 c Hc).
    - exact (C2 x H2 H1 c Hc). }
  split.
  { intros x H2 HV. destruct (decide (x ∈ V1)) as [H1|H1].
    - rewrite (Hx x H1 HV). apply reaches_here, list_elem_of_singleton. reflexivity.
    - apply (reaches_mono (c0 :: cs)); [|exact (R2 x H2 H1)].
      intros c Hc. apply (reaches_child b [k] k c).
      + apply reaches_here, list_elem_of_singleton. reflexivity.
      + exists node. rewrite Ech. auto. }
  split.
  { apply NoDup_app. split; [exact Hnd|]. split; [|exact D2].
    intros x H1 H2. apply Hownk in H1 as [-> _]. apply I2 in H2 as (_ & H2 & _).
    contradiction. }
  intros x. rewrite elem_of_app, Hownk, I2. split.
  - intros [[-> Hf]|(H2 & H1 & Hf)].
    + split; [apply S2, HkV1|]. auto.
    + split; [exact H2|]. split; [|exact Hf]. intros H. apply H1, HVV1, H.
  - intros (H2 & HV & Hf). destruct (decide (x ∈ V1)) as [H1|H1].
    + left. rewrite (Hx x H1 HV) in *. auto.
    + right. auto.
Qed.

Lemma forNodes_searched nodes : forall acc V,
  (size (dom (nodeMap b) ∖ V) < S f)%nat ->
  (forall k, k ∈ nodes -> is_Some (nodeMap b !! k)) ->
  exists found V',
    forNodes recurse b fileName nodes (acc, V) = Return (acc ++ found, V')
    /\ searched b fileName nodes V found V'.
Proof.
  induction nodes as [|k nodes IH]; intros acc V Hfuel Hnodes.
  - exists [], V. rewrite app_nil_r. split; [reflexivity | apply searched_nil].
  - destruct (visitNode_searched acc V k Hfuel) as (f1 & V1 & E1 & H1).
    { apply Hnodes, elem_of_cons. auto. }
    destruct (IH (acc ++ f1) V1) as (f2 & V2 & E2 & H2).
    { pose proof (unvisited_mono V V1 (proj1 H1)). lia. }
    { intros k' Hk'. apply Hnodes, elem_of_cons. auto. }
    exists (f1 ++ f2), V2. split.
    + cbn [forNodes]. rewrite E1. cbn. rewrite E2, app_assoc. reflexivity.
    + exact (searched_app [k] nodes V V1 V2 f1 f2 H1 H2).
Qed.

End Step.

Lemma findFunctionsInFile_searched fuel : forall nodes V,
  (size (dom (nodeMap b) ∖ V) < fuel)%nat ->
  (forall k, k ∈ nodes -> is_Some (nodeMap b !! k)) ->
  exists found V',
    findFunctionsInFile fuel b nodes fileName V = Return (found, V')
    /\ searched b fileName nodes V found V'.
Proof.
  induction fuel as [|fuel IH]; intros nodes V Hfuel Hnodes; [lia|].
  cbn [findFunctionsInFile].
  exact (forNodes_searched _ fuel IH nodes [] V Hfuel Hnodes).
Qed.

End Search.

(** X22.  on a tree whose [children] arrays hold stored nodes, also one with
    cycles, [findFunctionsInFile] returns once the recursion may go one level
    deeper than there are nodes; each node appears at most once in the
    result, and the result holds exactly the nodes that are among [nodes] or
    below them and whose file has the base name of [fileName]. *)
Theorem findFunctionsInFile_finds b nodes fileName fuel :
  closed b ->
  (forall k, k ∈ nodes -> is_Some (nodeMap b !! k)) ->
  (size (nodeMap b) < fuel)%nat ->
  exists results visited,
    findFunctionsInFile fuel b nodes fileName ∅ = Return (results, visited)
    /\ NoDup results
    /\ forall k, k ∈ results <-> reaches b nodes k /\ inFile b fileName k.
Proof.
  intros Hclosed Hnodes Hfuel.
  destruct (findFunctionsInFile_searched b fileName Hclosed fuel nodes ∅)
    as (results & V' & E & _ & N & C & R & D & I).
  { rewrite <- size_dom in Hfuel.
    pose proof (subseteq_size (dom (nodeMap b) ∖ ∅) (dom (nodeMap b))) as Hle.
    assert ((size (dom (nodeMap b) ∖ (∅ : gset string)) <= size (dom (nodeMap b)))%nat).
    { apply Hle. intros x Hx. apply elem_of_difference in Hx as [Hx _]. exact Hx. }
    lia. }
  { exact Hnodes. }
  exists results, V'. split; [exact E|]. split; [exact D|].
  intros k. rewrite I. split.
  - intros (H1 & H2 & Hf). auto.
  - intros [Hr Hf]. split; [|split; [apply not_elem_of_empty | exact Hf]].
    clear Hf. induction Hr as [k Hk | p c _ IH Hc]; [auto|].
    exact (C p IH (not_elem_of_empty p) c Hc).
Qed.

Lemma wellFormed_closed b : wellFormed b -> closed b.
Proof.
  intros (_ & _ & Hshape) k n Hn.
  destruct (Hshape k n Hn) as (Hid & _ & _ & Hch & _). auto.
Qed.

Lemma findFunctionsInFile_finds_witness :
  closed (addStacks newBuilder mutualRecursion)
  /\ (forall k, k ∈ [frameId frameA] ->
                is_Some (nodeMap (addStacks newBuilder mutualRecursion) !! k))
  /\ (size (nodeMap (addStacks newBuilder mutualRecursion)) < 3)%nat
  /\ exists results visited,
       findFunctionsInFile 3 (addStacks newBuilder mutualRecursion) [frameId frameA]
                           "src/f.go" ∅ = Return (results, visited)
       /\ NoDup results
       /\ forall k, k ∈ results <->
                    reaches (addStacks newBuilder mutualRecursion) [frameId frameA] k
                    /\ inFile (addStacks newBuilder mutualRecursion) "src/f.go" k.
Proof.
  assert (H1 : closed (addStacks newBuilder mutualRecursion))
    by (apply wellFormed_closed, CallTreeShapeProps.addStacks_keeps_wellFormed,
          CallTreeShapeProps.wellFormed_new).
  assert (H2 : forall k, k ∈ [frameId frameA] ->
                 is_Some (nodeMap (addStacks newBuilder mutualRecursion) !! k)).
  { intros k Hk. apply list_elem_of_singleton in Hk as ->. vm_compute. eauto. }
  assert (H3 : (size (nodeMap (addStacks newBuilder mutualRecursion)) < 3)%nat)
    by (vm_compute; lia).
  split; [exact H1|]. split; [exact H2|]. split; [exact H3|].
  exact (findFunctionsInFile_finds _ _ "src/f.go" 3 H1 H2 H3).
Defined.

End TreeSearchProps.

(** ** The headers of the text format *)

Module TextHeaderProps.

Import Wire TextFormat.

Lemma span_Forall f s : Forall (fun c => f c = true) (fst (span f s)).
Proof.
  induction s as [|c s IH]; cbn [span]; [constructor|].
  destruct (f c) eqn:E; [|constructor].
  destruct (span f s) as [a r]. cbn [fst] in *. constructor; assumption.
Qed.

Lemma digitsValue_nonneg ds :
  Forall (fun c => isDigit c = true) ds -> 0 <= digitsValue ds.
Proof.
  unfold digitsValue. intros H.
  assert (G : forall acc, 0 <= acc ->
            0 <= foldl (fun acc c => acc * 10 + (c - 48)) acc ds).
  { induction H as [|c ds Hc _ IH]; intros acc Hacc; cbn [foldl]; [exact Hacc|].
    apply IH. unfold isDigit in Hc. apply andb_prop in Hc as [H1 H2]. lia. }
  apply G. lia.
Qed.

Lemma totalAt_digits s ds : totalAt s = Some ds -> Forall (fun c => isDigit c = true) ds.
Proof.
  unfold totalAt. destruct (dropPrefix s (lit "Total:")) as [r|]; [|discriminate].
  cbn. destruct (span isSpace r) as [ws r'].
  pose proof (span_Forall isDigit r') as H. destruct (span isDigit r') as [ds' r''].
  cbn [fst] in H. destruct ws; [discriminate|]. destruct ds'; [discriminate|].
  intros [= <-]. exact H.
Qed.

Lemma matchTotal_digits line ds :
  matchTotal line = Some ds -> Forall (fun c => isDigit c = true) ds.
Proof.
  induction line as [|c line IH]; cbn [matchTotal].
  - destruct (totalAt []) eqn:E; [|discriminate]. intros [= <-]. exact (totalAt_digits _ _ E).
  - destruct (totalAt (c :: line)) eqn:E; [|exact IH].
    intros [= <-]. exact (totalAt_digits _ _ E).
Qed.

Lemma parseFloat_nonneg s : from_option (Qle 0) True (parseFloat s).
Proof.
  unfold parseFloat.
  pose proof (span_Forall isDigit s) as Hip. destruct (span isDigit s) as [ip r].
  cbn [fst] in Hip.
  set (fp := match r with 46 :: r' => fst (span isDigit r') | _ => [] end).
  assert (Hfp : Forall (fun c => isDigit c = true) fp).
  { subst fp. repeat case_match; try constructor; apply span_Forall. }
  assert (Hq : (0 <= Qmake (digitsValue ip * 10 ^ Z.of_nat (length fp) + digitsValue fp)
                           (Z.to_pos (10 ^ Z.of_nat (length fp))))%Q).
  { unfold Qle. cbn [Qnum Qden]. rewrite Z.mul_1_r, Z.mul_0_l.
    pose proof (digitsValue_nonneg ip Hip). pose proof (digitsValue_nonneg fp Hfp).
    assert (0 <= 10 ^ Z.of_nat (length fp)) by (apply Z.pow_nonneg; lia). nia. }
  destruct ip, fp; cbn [from_option]; try exact I; exact Hq.
Qed.

Lemma scale_nonneg x k :
  0 <= k -> from_option (Qle 0) True x -> from_option (Qle 0) True (scale x k).
Proof.
  intros Hk. destruct x as [q|]; cbn; [|auto]. intros Hq.
  apply Qmult_le_0_compat; [exact Hq|]. unfold Qle. cbn. lia.
Qed.

Lemma headerStep_nonneg st line :
  0 <= fst st -> from_option (Qle 0) True (snd st) ->
  0 <= fst (headerStep st line) /\ from_option (Qle 0) True (snd (headerStep st line)).
Proof.
  destruct st as [t d]. cbn [fst snd]. intros Ht Hd. unfold headerStep. cbn [fst snd].
  split.
  - destruct (includes line (lit "Total:")); [|exact Ht].
    destruct (matchTotal line) as [ds|] eqn:E; [|exact Ht].
    apply digitsValue_nonneg. exact (matchTotal_digits _ _ E).
  - destruct (includes line (lit "Duration:")); [|exact Hd].
    destruct (matchDuration line) as [[num unit]|]; [|exact Hd].
    repeat case_bool_decide; try apply scale_nonneg; try lia; apply parseFloat_nonneg.
Qed.

Lemma foldl_headerStep_nonneg lines : forall st,
  0 <= fst st -> from_option (Qle 0) True (snd st) ->
  0 <= fst (foldl headerStep st lines)
  /\ from_option (Qle 0) True (snd (foldl headerStep st lines)).
Proof.
  induction lines as [|l lines IH]; intros st Ht Hd; cbn [foldl]; [auto|].
  destruct (headerStep_nonneg st l Ht Hd). apply IH; assumption.
Qed.

(** X23.  whatever the text, [parseTextFormat] gives a profile with at least
    one sample and a positive duration, sampled at 100 Hz with type
    [cpu], without file metrics and without top functions. *)
Theorem parseTextFormat_positive {F T : Type} (text : ustring) :
  1 <= totalSamples (@parseTextFormat F T text)
  /\ (0 < durationNs (@parseTextFormat F T text))%Q
  /\ sampleRate (@parseTextFormat F T text) = 100
  /\ sampleType (@parseTextFormat F T text) = "cpu"
  /\ fileMetrics (@parseTextFormat F T text) = ∅
  /\ topFunctions (@parseTextFormat F T text) = [].
Proof.
  unfold parseTextFormat.
  destruct (foldl_headerStep_nonneg (splitLines text) (0, Some 0%Q)) as [Ht Hd].
  { cbn. lia. }
  { cbn. apply Qle_refl. }
  destruct (foldl headerStep (0, Some 0%Q) (splitLines text)) as [t d].
  cbn [fst snd totalSamples durationNs sampleRate sampleType fileMetrics topFunctions] in *.
  split.
  { destruct (Z.eqb_spec t 0); lia. }
  split; [|auto].
  unfold orElse. destruct d as [q|]; [|reflexivity].
  destruct (Qeq_bool q 0) eqn:E; [reflexivity|].
  cbn in Hd. apply Qle_lteq in Hd as [Hlt|Heq]; [exact Hlt|].
  apply Qeq_bool_neq in E. exfalso. apply E. symmetry. exact Heq.
Qed.

End TextHeaderProps.
